(** * dingo-store client core: coordinator leader rotation, benchmark
      operations and the vector index cache response check.

    A shallow embedding of
      - [src/coordinator/coordinator_interaction.cc]
      - [src/benchmark/operation.cc]
      - [src/sdk/vector/vector_index_cache.h]
    and the properties of the specification that concern them. *)

From Stdlib Require Import ZArith List Bool Lia DecimalString DecimalN FinFun.
From Stdlib Require Import Ascii.
From Stdlib Require String.
From stdpp Require Import base gmap list strings.

Import ListNotations.
Open Scope Z_scope.

(** ** Machine integers

    C++ integers are modelled in [Z]; every conversion writes its
    wrap-around out. *)
Module Int.

Definition INT_MAX : Z := 2147483647.
Definition UINT32_MAX : Z := 4294967295.

(** Conversion to [int] (32-bit two's complement). *)
Definition to_int (z : Z) : Z := (z + 2 ^ 31) mod 2 ^ 32 - 2 ^ 31.

(** Conversion to [uint32_t] and to [size_t] (64-bit). *)
Definition to_uint32 (z : Z) : Z := z mod 2 ^ 32.
Definition to_size_t (z : Z) : Z := z mod 2 ^ 64.

End Int.

(** ** The coordinator's leader pointer
    ([src/coordinator/coordinator_interaction.cc]) *)
Module Coordinator.
Import Int.

Record EndPoint := { ip : Z; port : Z }.

(** The two members [NextLeader] touches: the endpoint vector filled by
    [Init] and the atomic [leader_index_]. *)
Record CoordinatorInteraction := {
  endpoints_ : list EndPoint;
  leader_index_ : Z
}.

(** [std::atomic<int>::compare_exchange_weak (expected, desired)], with
    the spurious failure the standard allows as an explicit input.
    Returns the new value of the atomic, the new value of [expected],
    and the success flag. *)
Definition compare_exchange_weak (spurious : bool) (obj expected desired : Z)
  : Z * Z * bool :=
  if negb spurious && (obj =? expected)
  then (desired, expected, true)
  else (obj, obj, false).

Definition GetLeader (c : CoordinatorInteraction) : Z := leader_index_ c.

(** [NextLeader]: [None] stands for undefined behaviour: [leader_index + 1]
    overflowing [int], or the remainder by an empty endpoint vector.
    The sum is converted to [size_t] for the remainder and the result is
    narrowed back to [int]. *)
Definition NextLeader (spurious : bool) (leader_index : Z)
    (c : CoordinatorInteraction) : option CoordinatorInteraction :=
  let size := Z.of_nat (length (endpoints_ c)) in
  if (leader_index =? INT_MAX) || (size =? 0) then None
  else
    let next_leader_index := to_int (to_size_t (leader_index + 1) mod size) in
    let '(obj, _, _) :=
      compare_exchange_weak spurious (leader_index_ c) leader_index
        next_leader_index in
    Some {| endpoints_ := endpoints_ c; leader_index_ := obj |}.

(** Concurrent callers: the only shared access of a call is its one atomic
    compare-exchange, so an execution of concurrent calls is a sequence of
    them in the order of their atomic operations.  A call is its argument
    and whether its compare-exchange fails spuriously. *)
Definition Call : Type := Z * bool.

Fixpoint run (calls : list Call) (c : CoordinatorInteraction)
  : option CoordinatorInteraction :=
  match calls with
  | [] => Some c
  | (i, spurious) :: rest =>
      match NextLeader spurious i c with
      | Some c' => run rest c'
      | None => None
      end
  end.

(** Number of calls of an execution that changed the leader pointer. *)
Fixpoint rotations (calls : list Call) (c : CoordinatorInteraction) : nat :=
  match calls with
  | [] => 0%nat
  | (i, spurious) :: rest =>
      match NextLeader spurious i c with
      | Some c' =>
          ((if (leader_index_ c' =? leader_index_ c)%Z then 0 else 1)
           + rotations rest c')%nat
      | None => 0%nat
      end
  end.

Definition size (c : CoordinatorInteraction) : Z :=
  Z.of_nat (length (endpoints_ c)).

Definition valid (c : CoordinatorInteraction) : Prop :=
  1 <= size c <= INT_MAX /\ 0 <= leader_index_ c < size c.

Definition set_leader (c : CoordinatorInteraction) (i : Z) :=
  {| endpoints_ := endpoints_ c; leader_index_ := i |}.

End Coordinator.

(** ** The benchmark operations ([src/benchmark/operation.cc]) *)
Module Benchmark.
Import Int.

(** *** Flags, SDK values and the shard target *)

(** The gflags of the file.  The four sizes are [uint32]. *)
Record Flags := {
  FLAGS_key_size : Z;
  FLAGS_value_size : Z;
  FLAGS_batch_size : Z;
  FLAGS_arrange_kv_num : Z;
  FLAGS_is_pessimistic_txn : bool;
  FLAGS_txn_isolation_level : string
}.

Definition is_uint32 (z : Z) : Prop := 0 <= z <= UINT32_MAX.

(** [sdk::Status]: only [IsOK]/[ok] is looked at. *)
Inductive Status :=
| OK
| NotOK (errno : Z).

Definition IsOK (s : Status) : bool :=
  match s with OK => true | NotOK _ => false end.

Record KVPair := { key : string; value : string }.

Inductive TransactionKind := kOptimistic | kPessimistic.
Inductive TransactionIsolation := kSnapshotIsolation | kReadCommitted.

Record TransactionOptions := {
  kind : TransactionKind;
  isolation : TransactionIsolation
}.

(** [Operation::Result] without its elapsed time (wall-clock time is not
    modelled); the byte counters start at zero. *)
Record Result := {
  status : Status;
  write_bytes : Z;
  read_bytes : Z
}.

(** [RegionEntry], the shard target.  It is declared in
    [benchmark/benchmark.h]; the operations use these four members. *)
Record RegionEntry := {
  prefix : string;
  counter : Z;
  keys : list string;
  read_index : Z
}.

(** A [RegionEntryPtr] is an address in the store of region entries, so
    that two pointers to one entry share its counter, keys and cursor. *)
Definition RegionEntryPtr : Type := nat.

(** *** The outside world *)

(** Every statement that reaches the SDK: the raw key-value object, the
    client, the transaction handle, and the [delete txn] at the label
    [end] (of a null pointer when the opening failed). *)
Inductive SdkCall :=
| RawKV_Put (k v : string)
| RawKV_BatchPut (kvs : list KVPair)
| RawKV_Get (k : string)
| RawKV_BatchGet (ks : list string)
| Client_NewTransaction (options : TransactionOptions)
| Txn_Put (k v : string)
| Txn_BatchPut (kvs : list KVPair)
| Txn_Get (k : string)
| Txn_BatchGet (ks : list string)
| Txn_PreCommit
| Txn_Commit
| Txn_delete.

(** What a call gives back: its status and its output parameters. *)
Record Reply := {
  reply_status : Status;
  out_value : string;
  out_kvs : list KVPair
}.

(** Which branch of an [Execute] ran. *)
Inductive Path := Single | Batched.

(** The environment of a run: the SDK's answer to a call after a history
    of calls, the stream of raw random numbers, and the widths in bits of
    the two unsigned integers of [RegionEntry], whose declaration is not
    part of the sources at hand. *)
Record Env := {
  sdk : list SdkCall -> SdkCall -> Reply;
  random_device : nat -> Z;
  counter_bits : Z;
  read_index_bits : Z
}.

(** The mutable state: the region entries, the calls made so far (oldest
    first), the number of random numbers drawn, and the branches taken
    by the [Execute] functions so far. *)
Record World := {
  regions : gmap nat RegionEntry;
  trace : list SdkCall;
  draws : nat;
  paths : list Path
}.

(** How a run can stop without returning. *)
Inductive Failure :=
| Undefined   (* undefined behaviour *)
| Fatal       (* LOG(FATAL) *)
| Thrown.     (* an exception nobody catches *)

Inductive Outcome (A : Type) :=
| Ret (a : A) (w : World)
| Stop (e : Failure) (w : World).
Arguments Ret {A} a w.
Arguments Stop {A} e w.

Definition M (A : Type) : Type := World -> Outcome A.

Definition ret {A} (a : A) : M A := fun w => Ret a w.

Definition bind {A B} (m : M A) (k : A -> M B) : M B :=
  fun w => match m w with
           | Ret a w' => k a w'
           | Stop e w' => Stop e w'
           end.

Definition stop {A} (e : Failure) : M A := fun w => Stop e w.

Declare Scope op_scope.
Delimit Scope op_scope with op.
Notation "x <- m ;; k" := (bind m (fun x => k))
  (at level 100, m at next level, right associativity) : op_scope.
Notation "m ;;; k" := (bind m (fun _ => k))
  (at level 100, right associativity) : op_scope.
Open Scope op_scope.

Definition final_world {A} (o : Outcome A) : World :=
  match o with Ret _ w => w | Stop _ w => w end.

(** *** The isolation-level flag *)

(** Modelled from the spec: the upper-casing of one character by
    [Helper::ToUpper] ([common/helper.h] is not among the sources).  The
    spec calls the comparison case-insensitive after upper-casing: an
    ASCII lower-case letter becomes its upper-case letter and every
    other character is kept. *)
Definition toupper (c : Ascii.ascii) : Ascii.ascii :=
  let n := Ascii.nat_of_ascii c in
  if ((97 <=? n) && (n <=? 122))%nat then Ascii.ascii_of_nat (n - 32) else c.

(** Modelled from the spec: [Helper::ToUpper], which is not among the
    sources: the string with every character upper-cased. *)
Fixpoint ToUpper (s : string) : string :=
  match s with
  | EmptyString => EmptyString
  | String c s' => String (toupper c) (ToUpper s')
  end.

(** The validator registered for [txn_isolation_level]. *)
Definition txn_isolation_level_validator (value : string) : bool :=
  let isolation_level := ToUpper value in
  String.eqb isolation_level "SI" || String.eqb isolation_level "RC".

(** *** Strings *)

Definition kClientRaw : string := "w".

Definition kAlphabet : list Ascii.ascii :=
  List.map Ascii.ascii_of_nat
    [97; 98; 99; 100; 101; 102; 103; 104; 105; 106; 107; 108;
     109; 110; 111; 112; 113; 114; 115; 116; 117; 118; 119; 120;
     121; 122; 48; 49; 50; 51; 52; 53; 54; 55; 56; 57]%nat.

Definition EncodeRawKey (str : string) : string := kClientRaw +:+ str.

Definition size (s : string) : Z := Z.of_nat (String.length s).

Fixpoint zeros (n : nat) : string :=
  match n with
  | O => EmptyString
  | S n' => String "0"%char (zeros n')
  end.

Definition decimal (n : N) : string :=
  NilEmpty.string_of_uint (N.to_uint n).

(** [fmt::format("{0:0{1}}", num, len)] on an [int]: the decimal digits,
    after the sign and as many zeros as the width [len] asks for; a
    negative width makes fmt throw. *)
Definition zero_padded (num len : Z) : string :=
  let sign : string := if num <? 0 then "-" else "" in
  let digits := decimal (Z.to_N (Z.abs num)) in
  let fill := (Z.to_nat len - String.length sign - String.length digits)%nat in
  sign +:+ zeros fill +:+ digits.

Definition format_zero_padded (num len : Z) : option string :=
  if len <? 0 then None else Some (zero_padded num len).

Section Operations.

Variable flags : Flags.
Variable env : Env.

(** *** Primitive steps *)

(** A call into the SDK: answered from the history, then logged. *)
Definition call (c : SdkCall) : M Reply :=
  fun w => Ret (sdk env (trace w) c)
               {| regions := regions w; trace := trace w ++ [c];
                  draws := draws w; paths := paths w |}.

(** One number from the random engine. *)
Definition draw : M Z :=
  fun w => Ret (random_device env (draws w))
               {| regions := regions w; trace := trace w;
                  draws := S (draws w); paths := paths w |}.

Definition took (p : Path) : M unit :=
  fun w => Ret tt {| regions := regions w; trace := trace w;
                     draws := draws w; paths := paths w ++ [p] |}.

(** Dereferencing a region entry pointer; a dangling one is undefined. *)
Definition deref (p : RegionEntryPtr) : M RegionEntry :=
  fun w => match regions w !! p with
           | Some r => Ret r w
           | None => Stop Undefined w
           end.

Definition assign (p : RegionEntryPtr) (r : RegionEntry) : M unit :=
  fun w => Ret tt {| regions := <[p := r]> (regions w); trace := trace w;
                     draws := draws w; paths := paths w |}.

(** [region_entry->counter.fetch_add(1)], the result stored in a
    [size_t]. *)
Definition counter_fetch_add (p : RegionEntryPtr) : M Z :=
  r <- deref p ;;
  assign p {| prefix := prefix r;
              counter := (counter r + 1) mod 2 ^ counter_bits env;
              keys := keys r; read_index := read_index r |} ;;;
  ret (to_size_t (counter r)).

(** [region_entry->read_index++], promoted to [size_t] by the remainder
    it is used in. *)
Definition read_index_post_inc (p : RegionEntryPtr) : M Z :=
  r <- deref p ;;
  assign p {| prefix := prefix r; counter := counter r; keys := keys r;
              read_index := (read_index r + 1) mod 2 ^ read_index_bits env |} ;;;
  ret (to_size_t (read_index r)).

(** [region_entry->keys.push_back(k)]. *)
Definition keys_push_back (p : RegionEntryPtr) (k : string) : M unit :=
  r <- deref p ;;
  assign p {| prefix := prefix r; counter := counter r;
              keys := keys r ++ [k]; read_index := read_index r |}.

(** [v[i]] on a vector: out of range is undefined. *)
Definition at_index (v : list string) (i : Z) : M string :=
  match v !! Z.to_nat i with
  | Some k => ret k
  | None => stop Undefined
  end.

(** [a % b] on [size_t]: a zero divisor is undefined. *)
Definition rem (a b : Z) : M Z :=
  if b =? 0 then stop Undefined else ret (a mod b).

(** [for (int i = 0; i < n; ++i)] with [n] a [uint32]: the comparison is
    unsigned, and the increment that follows the iteration at [INT_MAX]
    overflows. *)
Fixpoint repeat_body {S} (n : nat) (body : S -> M S) (s : S) : M S :=
  match n with
  | O => ret s
  | Datatypes.S n' => s' <- body s ;; repeat_body n' body s'
  end.

Definition for_int {S} (n : Z) (body : S -> M S) (s : S) : M S :=
  s' <- repeat_body (Z.to_nat (Z.min n (INT_MAX + 1))) body s ;;
  if INT_MAX <? n then stop Undefined else ret s'.

(** [for (auto& x : xs)]. *)
Fixpoint for_each {A S} (xs : list A) (body : S -> A -> M S) (s : S) : M S :=
  match xs with
  | [] => ret s
  | x :: xs' => s' <- body s x ;; for_each xs' body s'
  end.

(** *** Key and value generation *)

Fixpoint random_chars (n : nat) : M string :=
  match n with
  | O => ret EmptyString
  | S n' =>
      v <- draw ;;
      let c := nth (Z.to_nat (v mod 36)) kAlphabet "a"%char in
      rest <- random_chars n' ;;
      ret (String c rest)
  end.

(** [GenRandomString (int len)]: nothing for a negative length. *)
Definition GenRandomString (len : Z) : M string :=
  random_chars (Z.to_nat len).

(** [GenSeqString (int num, int len)]. *)
Definition GenSeqString (num len : Z) : M string :=
  match format_zero_padded num len with
  | Some s => ret s
  | None => stop Thrown
  end.

(** [FLAGS_key_size - prefix.size()] is a [size_t] difference narrowed
    to [int]. *)
Definition random_str_len_of (prefix : string) : Z :=
  to_int (to_size_t (FLAGS_key_size flags - size prefix)).

(** [FLAGS_key_size + 4 - prefix.size()]: the sum is [uint32]. *)
Definition missing_str_len_of (prefix : string) : Z :=
  to_int (to_size_t (to_uint32 (FLAGS_key_size flags + 4) - size prefix)).

Definition kv_bytes (kv : KVPair) : Z := size (key kv) + size (value kv).

(** *** Raw operations *)

Definition KvPut (region_entry : RegionEntryPtr) (is_random : bool)
  : M Result :=
  r <- deref region_entry ;;
  let prefix := prefix r in
  let random_str_len := random_str_len_of prefix in
  count <- counter_fetch_add region_entry ;;
  key <- (if is_random
          then s <- GenRandomString random_str_len ;;
               ret (EncodeRawKey (prefix +:+ s))
          else s <- GenSeqString (to_int count) random_str_len ;;
               ret (EncodeRawKey (prefix +:+ s))) ;;
  value <- GenRandomString (to_int (FLAGS_value_size flags)) ;;
  reply <- call (RawKV_Put key value) ;;
  ret {| status := reply_status reply;
         write_bytes := size key + size value;
         read_bytes := 0 |}.

Definition KvBatchPut (region_entry : RegionEntryPtr) (is_random : bool)
  : M Result :=
  r <- deref region_entry ;;
  let prefix := prefix r in
  let random_str_len := random_str_len_of prefix in
  built <-
    for_int (FLAGS_batch_size flags)
      (fun '(kvs, bytes) =>
         key <- (if is_random
                 then s <- GenRandomString random_str_len ;;
                      ret (EncodeRawKey (prefix +:+ s))
                 else count <- counter_fetch_add region_entry ;;
                      s <- GenSeqString (to_int count) random_str_len ;;
                      ret (EncodeRawKey (prefix +:+ s))) ;;
         value <- GenRandomString (to_int (FLAGS_value_size flags)) ;;
         let kv := {| key := key; value := value |} in
         ret (kvs ++ [kv], bytes + kv_bytes kv))
      ([], 0) ;;
  let '(kvs, bytes) := built in
  reply <- call (RawKV_BatchPut kvs) ;;
  ret {| status := reply_status reply; write_bytes := bytes;
         read_bytes := 0 |}.

Definition KvGet (key : string) : M Result :=
  reply <- call (RawKV_Get key) ;;
  ret {| status := reply_status reply; write_bytes := 0;
         read_bytes := size (out_value reply) |}.

Definition KvBatchGet (keys : list string) : M Result :=
  reply <- call (RawKV_BatchGet keys) ;;
  ret {| status := reply_status reply; write_bytes := 0;
         read_bytes := fold_left (fun acc kv => acc + kv_bytes kv)
                         (out_kvs reply) 0 |}.

(** *** Transactions *)

Definition GetTxnIsolationLevel : M TransactionIsolation :=
  let isolation_level := ToUpper (FLAGS_txn_isolation_level flags) in
  if String.eqb isolation_level "SI" then ret kSnapshotIsolation
  else if String.eqb isolation_level "RC" then ret kReadCommitted
  else stop Fatal.

(** The options every transactional operation builds. *)
Definition transaction_options : M TransactionOptions :=
  let kind :=
    if FLAGS_is_pessimistic_txn flags then kPessimistic else kOptimistic in
  isolation <- GetTxnIsolationLevel ;;
  ret {| kind := kind; isolation := isolation |}.

(** [PreCommit], then [Commit] unless [PreCommit] jumped to [end]. *)
Definition precommit_commit : M Status :=
  pre <- call Txn_PreCommit ;;
  if negb (IsOK (reply_status pre)) then ret (reply_status pre)
  else
    com <- call Txn_Commit ;;
    ret (reply_status com).

(** The loops over the operands of a transaction.  [rest] is what follows
    the loop; a failed step jumps to [end] and skips it. *)
Fixpoint txn_put_each (kvs : list KVPair) (rest : M Status) : M Status :=
  match kvs with
  | [] => rest
  | kv :: kvs' =>
      reply <- call (Txn_Put (key kv) (value kv)) ;;
      if negb (IsOK (reply_status reply)) then ret (reply_status reply)
      else txn_put_each kvs' rest
  end.

Fixpoint txn_get_each (keys : list string) (rest : M Status) : M Status :=
  match keys with
  | [] => rest
  | key :: keys' =>
      reply <- call (Txn_Get key) ;;
      if negb (IsOK (reply_status reply)) then ret (reply_status reply)
      else txn_get_each keys' rest
  end.

Fixpoint txn_batch_get_each (keys : list (list string)) (rest : M Status)
  : M Status :=
  match keys with
  | [] => rest
  | batch_keys :: keys' =>
      reply <- call (Txn_BatchGet batch_keys) ;;
      if negb (IsOK (reply_status reply)) then ret (reply_status reply)
      else txn_batch_get_each keys' rest
  end.

(** A transactional operation from [NewTransaction] to its [return]:
    [steps] runs when the transaction opened, and the label [end]
    deletes the handle. *)
Definition transaction (steps : M Status) : M Status :=
  options <- transaction_options ;;
  opened <- call (Client_NewTransaction options) ;;
  status <- (if negb (IsOK (reply_status opened))
             then ret (reply_status opened)
             else steps) ;;
  call Txn_delete ;;;
  ret status.

Definition sum_kv_bytes (kvs : list KVPair) : Z :=
  fold_left (fun acc kv => acc + kv_bytes kv) kvs 0.

(** [KvTxnPut (const std::vector<sdk::KVPair>&)]. *)
Definition KvTxnPut (kvs : list KVPair) : M Result :=
  status <- transaction (txn_put_each kvs precommit_commit) ;;
  ret {| status := status; write_bytes := sum_kv_bytes kvs;
         read_bytes := 0 |}.

(** [KvTxnBatchPut (const std::vector<sdk::KVPair>&)]. *)
Definition KvTxnBatchPut (kvs : list KVPair) : M Result :=
  status <- transaction
              (reply <- call (Txn_BatchPut kvs) ;;
               if negb (IsOK (reply_status reply))
               then ret (reply_status reply)
               else precommit_commit) ;;
  ret {| status := status; write_bytes := sum_kv_bytes kvs;
         read_bytes := 0 |}.

Definition KvTxnGet (keys : list string) : M Result :=
  status <- transaction (txn_get_each keys precommit_commit) ;;
  ret {| status := status; write_bytes := 0; read_bytes := 0 |}.

Definition KvTxnBatchGet (keys : list (list string)) : M Result :=
  status <- transaction (txn_batch_get_each keys precommit_commit) ;;
  ret {| status := status; write_bytes := 0; read_bytes := 0 |}.

(** The key-value pair the two overloads below make for one region
    entry: the counter is fetched whether or not the key is random. *)
Definition txn_gen_kv (region_entry : RegionEntryPtr) (is_random : bool)
    (random_str_len : Z) (prefix : string) : M KVPair :=
  count <- counter_fetch_add region_entry ;;
  key <- (if is_random
          then s <- GenRandomString random_str_len ;;
               ret (EncodeRawKey (prefix +:+ s))
          else s <- GenSeqString (to_int count) random_str_len ;;
               ret (EncodeRawKey (prefix +:+ s))) ;;
  value <- GenRandomString (to_int (FLAGS_value_size flags)) ;;
  ret {| key := key; value := value |}.

(** [KvTxnPut (std::vector<RegionEntryPtr>&, bool)]. *)
Definition KvTxnPut_entries (region_entries : list RegionEntryPtr)
    (is_random : bool) : M Result :=
  kvs <- for_each region_entries
           (fun kvs region_entry =>
              r <- deref region_entry ;;
              let random_str_len := random_str_len_of (prefix r) in
              kv <- txn_gen_kv region_entry is_random random_str_len
                      (prefix r) ;;
              ret (kvs ++ [kv]))
           [] ;;
  KvTxnPut kvs.

(** [KvTxnBatchPut (std::vector<RegionEntryPtr>&, bool)]. *)
Definition KvTxnBatchPut_entries (region_entries : list RegionEntryPtr)
    (is_random : bool) : M Result :=
  kvs <- for_each region_entries
           (fun kvs region_entry =>
              r <- deref region_entry ;;
              let random_str_len := random_str_len_of (prefix r) in
              for_int (FLAGS_batch_size flags)
                (fun kvs =>
                   kv <- txn_gen_kv region_entry is_random random_str_len
                           (prefix r) ;;
                   ret (kvs ++ [kv]))
                kvs)
           [] ;;
  KvTxnBatchPut kvs.

(** *** Fill operations *)

Definition FillSeqOperation_Execute (region_entry : RegionEntryPtr)
  : M Result :=
  if FLAGS_batch_size flags =? 1
  then took Single ;;; KvPut region_entry false
  else took Batched ;;; KvBatchPut region_entry false.

Definition FillRandomOperation_Execute (region_entry : RegionEntryPtr)
  : M Result :=
  if FLAGS_batch_size flags =? 1
  then took Single ;;; KvPut region_entry true
  else took Batched ;;; KvBatchPut region_entry true.

Definition FillTxnSeqOperation_Execute_entries
    (region_entries : list RegionEntryPtr) : M Result :=
  if FLAGS_batch_size flags =? 1
  then took Single ;;; KvTxnPut_entries region_entries false
  else took Batched ;;; KvTxnBatchPut_entries region_entries false.

Definition FillTxnSeqOperation_Execute (region_entry : RegionEntryPtr)
  : M Result :=
  let region_entries := [region_entry] in
  if FLAGS_batch_size flags =? 1
  then took Single ;;; KvTxnPut_entries region_entries false
  else took Batched ;;; KvTxnBatchPut_entries region_entries false.

Definition FillTxnRandomOperation_Execute_entries
    (region_entries : list RegionEntryPtr) : M Result :=
  if FLAGS_batch_size flags =? 1
  then took Single ;;; KvTxnPut_entries region_entries true
  else took Batched ;;; KvTxnBatchPut_entries region_entries true.

Definition FillTxnRandomOperation_Execute (region_entry : RegionEntryPtr)
  : M Result :=
  let region_entries := [region_entry] in
  if FLAGS_batch_size flags =? 1
  then took Single ;;; KvTxnPut_entries region_entries true
  else took Batched ;;; KvTxnBatchPut_entries region_entries true.

(** *** Arrange *)

(** The key and value one iteration of [Arrange] makes, the key recorded
    in the region entry's key list. *)
Definition arrange_kv (region_entry : RegionEntryPtr) (prefix : string)
    (random_str_len : Z) : M KVPair :=
  count <- counter_fetch_add region_entry ;;
  s <- GenSeqString (to_int count) random_str_len ;;
  let key := EncodeRawKey (prefix +:+ s) in
  value <- GenRandomString (to_int (FLAGS_value_size flags)) ;;
  keys_push_back region_entry key ;;;
  ret {| key := key; value := value |}.

(** The loop of [Arrange] from iteration [i] on, [todo] iterations to
    go, with [write] the batched write of the class.  The result is what
    [Arrange] returns.  The progress lines written to [std::cout] are
    left out. *)
Fixpoint Arrange_loop (write : list KVPair -> M Status)
    (region_entry : RegionEntryPtr) (prefix : string) (random_str_len : Z)
    (todo : nat) (i : Z) (kvs : list KVPair) : M bool :=
  match todo with
  | O => ret true
  | S todo' =>
      kv <- arrange_kv region_entry prefix random_str_len ;;
      let kvs := kvs ++ [kv] in
      if (to_uint32 (i + 1) mod 256 =? 0)
         || (to_uint32 (i + 1) =? FLAGS_arrange_kv_num flags)
      then
        status <- write kvs ;;
        if negb (IsOK status) then ret false
        else Arrange_loop write region_entry prefix random_str_len
               todo' (i + 1) []
      else Arrange_loop write region_entry prefix random_str_len
             todo' (i + 1) kvs
  end.

Definition ReadOperation_Arrange (region_entry : RegionEntryPtr) : M bool :=
  r <- deref region_entry ;;
  let random_str_len := random_str_len_of (prefix r) in
  Arrange_loop
    (fun kvs => reply <- call (RawKV_BatchPut kvs) ;; ret (reply_status reply))
    region_entry (prefix r) random_str_len
    (Z.to_nat (FLAGS_arrange_kv_num flags)) 0 [].

Definition TxnReadOperation_Arrange (region_entry : RegionEntryPtr)
  : M bool :=
  r <- deref region_entry ;;
  let random_str_len := random_str_len_of (prefix r) in
  Arrange_loop
    (fun kvs => result <- KvTxnBatchPut kvs ;; ret (status result))
    region_entry (prefix r) random_str_len
    (Z.to_nat (FLAGS_arrange_kv_num flags)) 0 [].

(** *** Read operations *)

(** [keys[region_entry->read_index++ % keys.size()]] with [keys] the key
    list of the region entry. *)
Definition next_read_key (region_entry : RegionEntryPtr) : M string :=
  r <- deref region_entry ;;
  i <- read_index_post_inc region_entry ;;
  index <- rem i (Z.of_nat (length (keys r))) ;;
  at_index (keys r) index.

(** Modelled from the spec: [Helper::GenerateRealRandomInteger]
    ([common/helper.h] is not among the sources): an integer between the
    two bounds, taken from the random engine. *)
Definition GenerateRealRandomInteger (min_value max_value : Z) : M Z :=
  v <- draw ;;
  ret (min_value + v mod (max_value - min_value + 1)).

(** [keys[index]] with
    [uint32_t index = GenerateRealRandomInteger(0, UINT32_MAX) % keys.size()]. *)
Definition random_read_key (keys : list string) : M string :=
  v <- GenerateRealRandomInteger 0 UINT32_MAX ;;
  index <- rem (to_size_t v) (Z.of_nat (length keys)) ;;
  at_index keys (to_uint32 index).

(** A missing key: [EncodeRawKey (prefix + GenRandomString (random_str_len))]. *)
Definition missing_key (prefix : string) (random_str_len : Z) : M string :=
  s <- GenRandomString random_str_len ;;
  ret (EncodeRawKey (prefix +:+ s)).

(** In the batched branch the local vector [keys] hides the key list of
    the region entry: the element read and the size divided by are those
    of the vector being filled. *)
Definition ReadSeqOperation_Execute (region_entry : RegionEntryPtr)
  : M Result :=
  r <- deref region_entry ;;
  if FLAGS_batch_size flags <=? 1
  then
    took Single ;;;
    key <- next_read_key region_entry ;;
    KvGet key
  else
    took Batched ;;;
    keys <- for_int (FLAGS_batch_size flags)
              (fun keys : list string =>
                 i <- read_index_post_inc region_entry ;;
                 index <- rem i (Z.of_nat (length keys)) ;;
                 key <- at_index keys index ;;
                 ret (keys ++ [key]))
              [] ;;
    KvBatchGet keys.

Definition ReadRandomOperation_Execute (region_entry : RegionEntryPtr)
  : M Result :=
  r <- deref region_entry ;;
  if FLAGS_batch_size flags <=? 1
  then
    took Single ;;;
    key <- random_read_key (keys r) ;;
    KvGet key
  else
    took Batched ;;;
    keys <- for_int (FLAGS_batch_size flags)
              (fun keys : list string =>
                 key <- random_read_key keys ;;
                 ret (keys ++ [key]))
              [] ;;
    KvBatchGet keys.

Definition ReadMissingOperation_Execute (region_entry : RegionEntryPtr)
  : M Result :=
  r <- deref region_entry ;;
  let prefix := prefix r in
  let random_str_len := missing_str_len_of prefix in
  if FLAGS_batch_size flags <=? 1
  then
    took Single ;;;
    key <- missing_key prefix random_str_len ;;
    KvGet key
  else
    took Batched ;;;
    keys <- for_int (FLAGS_batch_size flags)
              (fun keys : list string =>
                 key <- missing_key prefix random_str_len ;;
                 ret (keys ++ [key]))
              [] ;;
    KvBatchGet keys.

Definition TxnReadSeqOperation_Execute (region_entry : RegionEntryPtr)
  : M Result :=
  r <- deref region_entry ;;
  if FLAGS_batch_size flags <=? 1
  then
    took Single ;;;
    key <- next_read_key region_entry ;;
    KvTxnGet [key]
  else
    took Batched ;;;
    batch_keys <- for_int (FLAGS_batch_size flags)
                    (fun batch_keys : list string =>
                       key <- next_read_key region_entry ;;
                       ret (batch_keys ++ [key]))
                    [] ;;
    KvTxnBatchGet [batch_keys].

Definition TxnReadSeqOperation_Execute_entries
    (region_entries : list RegionEntryPtr) : M Result :=
  if FLAGS_batch_size flags <=? 1
  then
    took Single ;;;
    tmp_keys <- for_each region_entries
                  (fun tmp_keys region_entry =>
                     key <- next_read_key region_entry ;;
                     ret (tmp_keys ++ [key]))
                  [] ;;
    KvTxnGet tmp_keys
  else
    took Batched ;;;
    tmp_keys <- for_each region_entries
                  (fun tmp_keys region_entry =>
                     r <- deref region_entry ;;
                     batch_keys <- for_int (FLAGS_batch_size flags)
                                     (fun batch_keys : list string =>
                                        key <- next_read_key region_entry ;;
                                        ret (batch_keys ++ [key]))
                                     [] ;;
                     ret (tmp_keys ++ [batch_keys]))
                  [] ;;
    KvTxnBatchGet tmp_keys.

Definition TxnReadRandomOperation_Execute (region_entry : RegionEntryPtr)
  : M Result :=
  r <- deref region_entry ;;
  if FLAGS_batch_size flags <=? 1
  then
    took Single ;;;
    key <- random_read_key (keys r) ;;
    KvTxnGet [key]
  else
    took Batched ;;;
    batch_keys <- for_int (FLAGS_batch_size flags)
                    (fun batch_keys : list string =>
                       key <- random_read_key (keys r) ;;
                       ret (batch_keys ++ [key]))
                    [] ;;
    KvTxnBatchGet [batch_keys].

Definition TxnReadRandomOperation_Execute_entries
    (region_entries : list RegionEntryPtr) : M Result :=
  if FLAGS_batch_size flags <=? 1
  then
    took Single ;;;
    tmp_keys <- for_each region_entries
                  (fun tmp_keys region_entry =>
                     r <- deref region_entry ;;
                     key <- random_read_key (keys r) ;;
                     ret (tmp_keys ++ [key]))
                  [] ;;
    KvTxnGet tmp_keys
  else
    took Batched ;;;
    tmp_keys <- for_each region_entries
                  (fun tmp_keys region_entry =>
                     r <- deref region_entry ;;
                     batch_keys <- for_int (FLAGS_batch_size flags)
                                     (fun batch_keys : list string =>
                                        key <- random_read_key (keys r) ;;
                                        ret (batch_keys ++ [key]))
                                     [] ;;
                     ret (tmp_keys ++ [batch_keys]))
                  [] ;;
    KvTxnBatchGet tmp_keys.

Definition TxnReadMissingOperation_Execute (region_entry : RegionEntryPtr)
  : M Result :=
  r <- deref region_entry ;;
  let prefix := prefix r in
  let random_str_len := missing_str_len_of prefix in
  if FLAGS_batch_size flags <=? 1
  then
    took Single ;;;
    key <- missing_key prefix random_str_len ;;
    KvTxnGet [key]
  else
    took Batched ;;;
    batch_keys <- for_int (FLAGS_batch_size flags)
                    (fun batch_keys : list string =>
                       key <- missing_key prefix random_str_len ;;
                       ret (batch_keys ++ [key]))
                    [] ;;
    KvTxnBatchGet [batch_keys].

Definition TxnReadMissingOperation_Execute_entries
    (region_entries : list RegionEntryPtr) : M Result :=
  if FLAGS_batch_size flags <=? 1
  then
    took Single ;;;
    tmp_keys <- for_each region_entries
                  (fun tmp_keys region_entry =>
                     r <- deref region_entry ;;
                     let random_str_len := missing_str_len_of (prefix r) in
                     key <- missing_key (prefix r) random_str_len ;;
                     ret (tmp_keys ++ [key]))
                  [] ;;
    KvTxnGet tmp_keys
  else
    took Batched ;;;
    tmp_keys <- for_each region_entries
                  (fun tmp_keys region_entry =>
                     r <- deref region_entry ;;
                     let random_str_len := missing_str_len_of (prefix r) in
                     batch_keys <- for_int (FLAGS_batch_size flags)
                                     (fun batch_keys : list string =>
                                        key <- missing_key (prefix r)
                                                 random_str_len ;;
                                        ret (batch_keys ++ [key]))
                                     [] ;;
                     ret (tmp_keys ++ [batch_keys]))
                  [] ;;
    KvTxnBatchGet tmp_keys.

(** *** The operations by name *)

(** The classes registered in [support_operations]. *)
Inductive Operation :=
| FillSeqOperation
| FillRandomOperation
| ReadSeqOperation
| ReadRandomOperation
| ReadMissingOperation
| FillTxnSeqOperation
| FillTxnRandomOperation
| TxnReadSeqOperation
| TxnReadRandomOperation
| TxnReadMissingOperation.

(** The virtual [Execute (RegionEntryPtr)]. *)
Definition Execute (op : Operation) (region_entry : RegionEntryPtr)
  : M Result :=
  match op with
  | FillSeqOperation => FillSeqOperation_Execute region_entry
  | FillRandomOperation => FillRandomOperation_Execute region_entry
  | ReadSeqOperation => ReadSeqOperation_Execute region_entry
  | ReadRandomOperation => ReadRandomOperation_Execute region_entry
  | ReadMissingOperation => ReadMissingOperation_Execute region_entry
  | FillTxnSeqOperation => FillTxnSeqOperation_Execute region_entry
  | FillTxnRandomOperation => FillTxnRandomOperation_Execute region_entry
  | TxnReadSeqOperation => TxnReadSeqOperation_Execute region_entry
  | TxnReadRandomOperation => TxnReadRandomOperation_Execute region_entry
  | TxnReadMissingOperation => TxnReadMissingOperation_Execute region_entry
  end.

(** The overrides of [Execute (std::vector<RegionEntryPtr>&)] that the
    file defines; the other classes inherit it from a base class that is
    not part of the file. *)
Definition Execute_entries (op : Operation)
    (region_entries : list RegionEntryPtr) : option (M Result) :=
  match op with
  | FillTxnSeqOperation =>
      Some (FillTxnSeqOperation_Execute_entries region_entries)
  | FillTxnRandomOperation =>
      Some (FillTxnRandomOperation_Execute_entries region_entries)
  | TxnReadSeqOperation =>
      Some (TxnReadSeqOperation_Execute_entries region_entries)
  | TxnReadRandomOperation =>
      Some (TxnReadRandomOperation_Execute_entries region_entries)
  | TxnReadMissingOperation =>
      Some (TxnReadMissingOperation_Execute_entries region_entries)
  | _ => None
  end.

End Operations.

(** [support_operations], in the order of the map's keys. *)
Definition support_operations : list (string * Operation) :=
  [ ("fillrandom", FillRandomOperation);
    ("fillseq", FillSeqOperation);
    ("filltxnrandom", FillTxnRandomOperation);
    ("filltxnseq", FillTxnSeqOperation);
    ("readmissing", ReadMissingOperation);
    ("readrandom", ReadRandomOperation);
    ("readseq", ReadSeqOperation);
    ("readtxnmissing", TxnReadMissingOperation);
    ("readtxnrandom", TxnReadRandomOperation);
    ("readtxnseq", TxnReadSeqOperation) ].

Fixpoint find_operation (benchmark : string)
    (table : list (string * Operation)) : option Operation :=
  match table with
  | [] => None
  | (name, op) :: table' =>
      if String.eqb name benchmark then Some op
      else find_operation benchmark table'
  end.

Definition IsSupportBenchmarkType (benchmark : string) : bool :=
  match find_operation benchmark support_operations with
  | Some _ => true
  | None => false
  end.

(** [NewOperation]: [None] is the null pointer. *)
Definition NewOperation (benchmark : string) : option Operation :=
  find_operation benchmark support_operations.

(** [GetSupportBenchmarkType]: the names of the map in its order, each
    followed by a space. *)
Definition GetSupportBenchmarkType : string :=
  fold_left (fun benchmarks entry => (benchmarks +:+ fst entry) +:+ " ")
    support_operations "".

End Benchmark.

(** ** The vector index cache ([src/sdk/vector/vector_index_cache.h]) *)
Module VectorIndexCache.

Section Cache.

(** [pb::meta::IndexDefinitionWithId] and [VectorIndex] are opaque here;
    [CheckIndexDefinitionWithId] is only declared by the header and
    [ProcessIndexDefinitionWithId] builds the cached object with its id. *)
Variable IndexDefinitionWithId : Type.
Variable VectorIndex : Type.
Variable CheckIndexDefinitionWithId : IndexDefinitionWithId -> bool.
Variable index_of_definition : IndexDefinitionWithId -> Z * VectorIndex.

(** A response of the metadata service: the part [CheckIndexResponse]
    reads, and its [DebugString]. *)
Record VectorIndexResponse := {
  index_definition_with_id : option IndexDefinitionWithId;
  DebugString : string
}.

Definition has_index_definition_with_id (response : VectorIndexResponse)
  : bool :=
  match index_definition_with_id response with
  | Some _ => true
  | None => false
  end.

(** A line of the warning log. *)
Inductive LogLine := Warning (text : string).

(** [CheckIndexResponse]: the verdict and the lines it logs. *)
Definition CheckIndexResponse (response : VectorIndexResponse)
  : bool * list LogLine :=
  let checked :=
    match index_definition_with_id response with
    | None => false
    | Some definition => CheckIndexDefinitionWithId definition
    end in
  if negb checked
  then (checked, [Warning ("Fail checked, response:" +:+ DebugString response)])
  else (checked, []).

(** The two maps of the cache. *)
Record Cache := {
  index_key_to_id_ : gmap string Z;
  id_to_index_ : gmap Z VectorIndex
}.

Inductive LookupStatus := LookupOK | LookupFailed.

(** Modelled from the spec: the slow lookup path
    ([SlowGetVectorIndexByKey], defined in [vector_index_cache.cc], which
    is not among the sources).  The spec: the slow path validates the
    remote response shape before trusting it; a malformed response is
    logged and treated as lookup failure, not cached; nothing is cached
    on failure; a successful lookup fills both maps together. *)
Definition SlowGetVectorIndexByKey
    (remote : string -> option VectorIndexResponse)
    (index_key : string) (cache : Cache)
  : LookupStatus * option VectorIndex * Cache * list LogLine :=
  match remote index_key with
  | None => (LookupFailed, None, cache, [])
  | Some response =>
      let '(checked, log) := CheckIndexResponse response in
      if negb checked then (LookupFailed, None, cache, log)
      else
        match index_definition_with_id response with
        | None => (LookupFailed, None, cache, log)
        | Some definition =>
            let '(id, index) := index_of_definition definition in
            (LookupOK, Some index,
             {| index_key_to_id_ := <[index_key := id]> (index_key_to_id_ cache);
                id_to_index_ := <[id := index]> (id_to_index_ cache) |},
             log)
        end
  end.

End Cache.

End VectorIndexCache.

(** ** Initialising the coordinator's channels
    ([src/coordinator/coordinator_interaction.cc]) *)
Module CoordinatorInit.
Import Int Coordinator.

(** A [brpc::Channel] that was initialised on an endpoint. *)
Record Channel := { channel_endpoint : EndPoint }.

(** The members that [Init] and [InitByNameService] touch, with the
    leader index beside them. *)
Record Members := {
  service_type_ : Z;
  endpoints_ : list EndPoint;
  channels_ : list Channel;
  use_service_name_ : bool;
  leader_index_ : Z
}.

(** The part of the object that [NextLeader] works on. *)
Definition interaction (m : Members) : CoordinatorInteraction :=
  {| Coordinator.endpoints_ := endpoints_ m;
     Coordinator.leader_index_ := leader_index_ m |}.

Section Init.

(** [Helper::StrToEndpoints] is not among the sources, and the two
    [brpc::Channel::Init] belong to brpc: the endpoints an address parses
    to, the result of initialising the channel of the endpoint at a
    position of the vector, and the result of initialising the name
    service channel (zero is success). *)
Variable StrToEndpoints : string -> list EndPoint.
Variable channel_Init : nat -> EndPoint -> Z.
Variable name_service_channel_Init : string -> Z.

(** The loop of [Init] over the endpoints from position [k] on: false as
    soon as a channel fails to initialise, the channels made so far
    staying in [channels_]. *)
Fixpoint init_channels (k : nat) (endpoints : list EndPoint)
    (channels : list Channel) : bool * list Channel :=
  match endpoints with
  | [] => (true, channels)
  | endpoint :: rest =>
      if negb (channel_Init k endpoint =? 0) then (false, channels)
      else init_channels (S k) rest
             (channels ++ [{| channel_endpoint := endpoint |}])
  end.

Definition Init (addr : string) (service_type : Z) (m : Members)
  : bool * Members :=
  let endpoints := StrToEndpoints addr in
  match endpoints with
  | [] =>
      (false,
       {| service_type_ := service_type; endpoints_ := endpoints;
          channels_ := channels_ m;
          use_service_name_ := use_service_name_ m;
          leader_index_ := leader_index_ m |})
  | _ =>
      let '(ok, channels) := init_channels 0 endpoints (channels_ m) in
      (ok,
       {| service_type_ := service_type; endpoints_ := endpoints;
          channels_ := channels;
          use_service_name_ := use_service_name_ m;
          leader_index_ := leader_index_ m |})
  end.

Definition InitByNameService (service_name : string) (service_type : Z)
    (m : Members) : bool * Members :=
  if negb (name_service_channel_Init service_name =? 0)
  then (false,
        {| service_type_ := service_type; endpoints_ := endpoints_ m;
           channels_ := channels_ m;
           use_service_name_ := use_service_name_ m;
           leader_index_ := leader_index_ m |})
  else (true,
        {| service_type_ := service_type; endpoints_ := endpoints_ m;
           channels_ := channels_ m;
           use_service_name_ := true;
           leader_index_ := leader_index_ m |}).

End Init.

End CoordinatorInit.

(** * Properties *)

(** ** Integer conversions *)
Section IntFacts.
Import Int.

Lemma to_int_id z : - 2 ^ 31 <= z < 2 ^ 31 -> to_int z = z.
Proof. intros H. unfold to_int. rewrite Z.mod_small; lia. Qed.

Lemma to_uint32_id z : 0 <= z < 2 ^ 32 -> to_uint32 z = z.
Proof. intros H. unfold to_uint32. now rewrite Z.mod_small. Qed.

Lemma to_size_t_id z : 0 <= z < 2 ^ 64 -> to_size_t z = z.
Proof. intros H. unfold to_size_t. now rewrite Z.mod_small. Qed.

Lemma to_int_range z : - 2 ^ 31 <= to_int z < 2 ^ 31.
Proof.
  unfold to_int.
  pose proof (Z.mod_pos_bound (z + 2 ^ 31) (2 ^ 32)). lia.
Qed.

(** Narrowing a [size_t] difference to [int] only keeps the low 32 bits. *)
Lemma to_int_to_size_t z : to_int (to_size_t z) = to_int z.
Proof.
  unfold to_int, to_size_t. f_equal.
  rewrite <- (Zplus_mod_idemp_l (z mod _)).
  rewrite Z.mod_mod_divide by (exists (2 ^ 32); reflexivity).
  now rewrite Zplus_mod_idemp_l.
Qed.

End IntFacts.

(** ** The leader pointer *)
Section CoordinatorFacts.
Import Int Coordinator.

Lemma next_leader_index_in_range (n i : Z) :
  1 <= n <= INT_MAX -> 0 <= i < n ->
  to_int (to_size_t (i + 1) mod n) = (i + 1) mod n.
Proof.
  unfold INT_MAX. intros Hn Hi.
  rewrite to_size_t_id by lia.
  apply to_int_id.
  pose proof (Z.mod_pos_bound (i + 1) n). lia.
Qed.

(** The outcome of one call, whatever its argument: the pointer is kept,
    or it equalled the argument and moved one place round. *)
Lemma NextLeader_cases (spurious : bool) (j : Z) (c : CoordinatorInteraction) :
  valid c -> j <> INT_MAX ->
  exists c', NextLeader spurious j c = Some c' /\
    endpoints_ c' = endpoints_ c /\
    ((leader_index_ c' = leader_index_ c /\
      (spurious = true \/ leader_index_ c <> j)) \/
     (spurious = false /\ leader_index_ c = j /\
      leader_index_ c' = (j + 1) mod size c)).
Proof.
  intros [Hn Hl] Hj. unfold NextLeader, compare_exchange_weak, size in *.
  destruct (Z.eqb_spec j INT_MAX); [contradiction|].
  destruct (Z.eqb_spec (Z.of_nat (length (endpoints_ c))) 0); [lia|]. simpl.
  destruct spurious; simpl.
  - eexists; split; [reflexivity|]. simpl. auto.
  - destruct (Z.eqb_spec (leader_index_ c) j) as [Heq|Hne].
    + eexists; split; [reflexivity|]. simpl. split; [reflexivity|].
      right. repeat split; [assumption|].
      apply next_leader_index_in_range; lia.
    + eexists; split; [reflexivity|]. simpl. auto.
Qed.

Lemma NextLeader_valid (spurious : bool) (j : Z) (c c' : CoordinatorInteraction) :
  valid c -> j <> INT_MAX ->
  NextLeader spurious j c = Some c' -> valid c'.
Proof.
  intros Hv Hj Hrun.
  destruct (NextLeader_cases spurious j c Hv Hj) as (c'' & Heq & Hep & Hcase).
  rewrite Heq in Hrun. injection Hrun as <-.
  destruct Hv as [Hn Hl]. unfold valid, size in *. rewrite Hep.
  split; [assumption|].
  destruct Hcase as [[-> _]|(_ & _ & ->)]; [assumption|].
  apply Z.mod_pos_bound. lia.
Qed.

(** Calls that all carry the index [i], run from a pointer that is no
    longer [i], change nothing. *)
Lemma run_stale_calls (i : Z) (flags : list bool) (c : CoordinatorInteraction) :
  valid c -> i <> INT_MAX -> leader_index_ c <> i ->
  exists c', run (List.map (pair i) flags) c = Some c' /\
    leader_index_ c' = leader_index_ c /\
    endpoints_ c' = endpoints_ c /\
    rotations (List.map (pair i) flags) c = 0%nat.
Proof.
  intros Hv Hi. revert c Hv.
  induction flags as [|b flags IH]; intros c Hv Hne; simpl.
  - eauto.
  - destruct (NextLeader_cases b i c Hv Hi) as (c1 & Heq & Hep & Hcase).
    rewrite Heq.
    destruct Hcase as [[Hl _]|(_ & Hl & _)]; [|contradiction].
    assert (Hv1 : valid c1) by (eapply NextLeader_valid; eauto).
    destruct (IH c1 Hv1) as (c' & Hrun & Hl' & Hep' & Hrot); [congruence|].
    exists c'. rewrite Hrun, Hrot, Hl', Hep', Hl, Z.eqb_refl. auto.
Qed.

(** C1, as the code has it.  On a coordinator with N endpoints (1 <= N)
    whose leader pointer is a valid index: a call [NextLeader (i)] made
    while the pointer still is the observed index [i], its weak
    compare-and-swap not failing spuriously, moves the pointer to
    [(i + 1) mod N]; any call, whatever
    its argument, either keeps the pointer or moves it from its argument
    one place round; and any number of concurrent calls that observed the
    same index [i], in any order and with any spurious failures, leave
    the pointer on [i] (all failed spuriously) or on [(i + 1) mod N],
    having changed it at most once. *)
Theorem NextLeader_single_rotation (c : CoordinatorInteraction) :
  valid c ->
  (forall i, leader_index_ c = i ->
     NextLeader false i c = Some (set_leader c ((i + 1) mod size c))) /\
  (forall spurious j, j <> INT_MAX ->
     exists c', NextLeader spurious j c = Some c' /\
       (leader_index_ c' = leader_index_ c \/
        (leader_index_ c = j /\ leader_index_ c' = (j + 1) mod size c))) /\
  (forall i (flags : list bool), leader_index_ c = i ->
     exists c', run (List.map (pair i) flags) c = Some c' /\
       leader_index_ c' =
         (if existsb negb flags then (i + 1) mod size c else i) /\
       (rotations (List.map (pair i) flags) c <= 1)%nat).
Proof.
  intros Hv. split; [|split].
  - intros i Hi.
    assert (Hne : i <> INT_MAX) by (destruct Hv; lia).
    destruct (NextLeader_cases false i c Hv Hne) as (c' & Heq & Hep & Hcase).
    rewrite Heq. f_equal. destruct c' as [eps l]. simpl in *.
    unfold set_leader. f_equal; [assumption|].
    destruct Hcase as [[_ [Hs|Hl]]|(_ & _ & Hl)];
      [discriminate | contradiction | assumption].
  - intros spurious j Hj.
    destruct (NextLeader_cases spurious j c Hv Hj) as (c' & Heq & _ & Hcase).
    exists c'. split; [assumption|].
    destruct Hcase as [[Hl _]|(_ & Hl & Hl')]; auto.
  - intros i flags. revert c Hv.
    induction flags as [|b flags IH]; intros c Hv Hi; simpl.
    + exists c. auto.
    + assert (Hne : i <> INT_MAX) by (destruct Hv; lia).
      destruct (NextLeader_cases b i c Hv Hne) as (c1 & Heq & Hep & Hcase).
      assert (Hv1 : valid c1) by (eapply NextLeader_valid; eauto).
      assert (Hsz : size c1 = size c) by (unfold size; now rewrite Hep).
      rewrite Heq.
      destruct Hcase as [[Hl [->|Hl']]|(-> & _ & Hl)]; [|contradiction|].
      * destruct (IH c1 Hv1) as (c' & Hrun & Hl' & Hrot); [congruence|].
        exists c'. rewrite Hrun, Hl, Z.eqb_refl, Hl', Hsz. simpl. auto.
      * simpl. destruct (Z.eq_dec ((i + 1) mod size c) i) as [Hfix|Hmoved].
        -- destruct (IH c1 Hv1) as (c' & Hrun & Hl' & Hrot); [congruence|].
           exists c'. rewrite Hrun, Hl', Hsz, Hl, Hi, Hfix, Z.eqb_refl.
           split; [reflexivity|]. split; [now destruct (existsb _ _)|].
           assumption.
        -- destruct (run_stale_calls i flags c1 Hv1 Hne)
             as (c' & Hrun & Hl' & _ & Hrot); [congruence|].
           exists c'. rewrite Hrun, Hrot, Hl', Hl.
           split; [reflexivity|]. split; [reflexivity|].
           destruct (_ =? _); simpl; lia.
Qed.

Definition three_endpoints : CoordinatorInteraction :=
  {| endpoints_ := [ {| ip := 1; port := 22001 |};
                     {| ip := 2; port := 22001 |};
                     {| ip := 3; port := 22001 |} ];
     leader_index_ := 2 |}.

(** The compare-and-swap of [NextLeader] is the weak one, tried once
    and its result dropped: when it fails spuriously a call made with the
    index the pointer holds leaves the pointer where it is, here on 2 and
    not on (2 + 1) mod 3. *)
Lemma NextLeader_spurious_failure_keeps_the_leader :
  valid three_endpoints /\
  leader_index_ three_endpoints = 2 /\
  NextLeader true 2 three_endpoints = Some three_endpoints /\
  (2 + 1) mod size three_endpoints <> 2.
Proof.
  split; [vm_compute; intuition discriminate|].
  repeat split. vm_compute. discriminate.
Qed.

Lemma NextLeader_single_rotation_witness :
  valid three_endpoints /\
  NextLeader false 2 three_endpoints = Some (set_leader three_endpoints 0).
Proof.
  assert (Hv : valid three_endpoints) by (vm_compute; intuition discriminate).
  split; [exact Hv|].
  exact (proj1 (NextLeader_single_rotation three_endpoints Hv) 2 eq_refl).
Defined.

End CoordinatorFacts.

(** ** The transaction driver *)
Section TransactionFacts.
Import Int Benchmark.

Variable flags : Flags.
Variable env : Env.

Definition with_trace (w : World) (t : list SdkCall) : World :=
  {| regions := regions w; trace := t; draws := draws w; paths := paths w |}.

Definition status_of (history : list SdkCall) (c : SdkCall) : Status :=
  reply_status (sdk env history c).

(** The calls a sequence of fallible steps makes after [history], and the
    status it ends with: it stops behind the first step that fails. *)
Fixpoint attempt (history plan : list SdkCall) (last : Status)
  : list SdkCall * Status :=
  match plan with
  | [] => ([], last)
  | c :: plan' =>
      let st := status_of history c in
      if IsOK st
      then let '(calls, st') := attempt (history ++ [c]) plan' st in
           (c :: calls, st')
      else ([c], st)
  end.

(** A sequence of steps, each jumping to [end] when it fails. *)
Fixpoint steps_each (plan : list SdkCall) (last : Status) : M Status :=
  match plan with
  | [] => ret last
  | c :: plan' =>
      reply <- call env c ;;
      if negb (IsOK (reply_status reply)) then ret (reply_status reply)
      else steps_each plan' (reply_status reply)
  end.

Lemma with_trace_id w : with_trace w (trace w) = w.
Proof. now destruct w. Qed.

Lemma with_trace_twice w t t' : with_trace (with_trace w t) t' = with_trace w t'.
Proof. reflexivity. Qed.

Lemma call_eq c w :
  call env c w = Ret (sdk env (trace w) c) (with_trace w (trace w ++ [c])).
Proof. reflexivity. Qed.

Lemma bind_ext {A B} (m : M A) (k1 k2 : A -> M B) w :
  (forall a w', k1 a w' = k2 a w') -> bind m k1 w = bind m k2 w.
Proof. intros H. unfold bind. destruct (m w); auto. Qed.

Lemma steps_each_attempt plan last w :
  steps_each plan last w =
  Ret (snd (attempt (trace w) plan last))
      (with_trace w (trace w ++ fst (attempt (trace w) plan last))).
Proof.
  revert last w. induction plan as [|c plan IH]; intros last w; simpl.
  - unfold ret. now rewrite app_nil_r, with_trace_id.
  - unfold bind. rewrite call_eq. fold (status_of (trace w) c).
    destruct (IsOK (status_of (trace w) c)) eqn:Hok; simpl.
    + rewrite IH. simpl.
      destruct (attempt (trace w ++ [c]) plan (status_of (trace w) c))
        as [calls st]. simpl.
      now rewrite with_trace_twice, <- app_assoc.
    + reflexivity.
Qed.

(** What [attempt] does: a prefix of the plan, ending at the first
    failure. *)
Lemma attempt_prefix history plan last :
  fst (attempt history plan last) `prefix_of` plan.
Proof.
  revert history last. induction plan as [|c plan IH]; intros; simpl.
  - reflexivity.
  - destruct (IsOK (status_of history c)).
    + specialize (IH (history ++ [c]) (status_of history c)).
      destruct (attempt _ plan _) as [calls st]. simpl in *.
      now apply prefix_cons.
    + apply prefix_cons, prefix_nil.
Qed.

Lemma attempt_failure history plan last k c :
  fst (attempt history plan last) !! k = Some c ->
  IsOK (status_of (history ++ take k (fst (attempt history plan last))) c)
    = false ->
  length (fst (attempt history plan last)) = S k /\
  snd (attempt history plan last) =
    status_of (history ++ take k (fst (attempt history plan last))) c.
Proof.
  revert history last k. induction plan as [|c0 plan IH];
    intros history last k; simpl.
  - intros H. discriminate.
  - destruct (IsOK (status_of history c0)) eqn:Hok.
    + specialize (IH (history ++ [c0]) (status_of history c0)).
      destruct (attempt _ plan _) as [calls st]. simpl in *.
      destruct k as [|k]; simpl.
      * intros [= <-]. rewrite app_nil_r. congruence.
      * intros Hk Hfail.
        rewrite cons_middle, app_assoc in Hfail |- *.
        destruct (IH k Hk Hfail) as [-> ->]. auto.
    + simpl. destruct k as [|k]; simpl.
      * intros [= <-]. rewrite app_nil_r. auto.
      * intros H. discriminate.
Qed.

Lemma attempt_success history plan last :
  (forall k c, fst (attempt history plan last) !! k = Some c ->
     IsOK (status_of (history ++ take k (fst (attempt history plan last))) c)
       = true) ->
  fst (attempt history plan last) = plan /\
  ((plan = [] /\ snd (attempt history plan last) = last) \/
   IsOK (snd (attempt history plan last)) = true).
Proof.
  revert history last. induction plan as [|c0 plan IH];
    intros history last; simpl.
  - auto.
  - destruct (IsOK (status_of history c0)) eqn:Hok.
    + specialize (IH (history ++ [c0]) (status_of history c0)).
      destruct (attempt _ plan _) as [calls st]. simpl in *.
      intros Hall.
      destruct IH as [-> Hst].
      { intros k c Hk. specialize (Hall (S k) c Hk). simpl in Hall.
        now rewrite cons_middle, app_assoc in Hall. }
      split; [reflexivity|]. right.
      destruct Hst as [[-> ->]|Hst]; assumption.
    + simpl. intros Hall. specialize (Hall 0%nat c0 eq_refl).
      simpl in Hall. rewrite app_nil_r in Hall. congruence.
Qed.

(** The transaction options the flags ask for. *)
Definition isolation_of (level : string) : TransactionIsolation :=
  if String.eqb (ToUpper level) "SI" then kSnapshotIsolation
  else kReadCommitted.

Definition options_of_flags : TransactionOptions :=
  {| kind := if FLAGS_is_pessimistic_txn flags
             then kPessimistic else kOptimistic;
     isolation := isolation_of (FLAGS_txn_isolation_level flags) |}.

(** The operand steps of a transaction, between its opening and its
    [PreCommit]. *)
Definition operand (c : SdkCall) : Prop :=
  match c with
  | Txn_Put _ _ | Txn_BatchPut _ | Txn_Get _ | Txn_BatchGet _ => True
  | _ => False
  end.

Definition plan_of (steps : list SdkCall) : list SdkCall :=
  Client_NewTransaction options_of_flags :: steps ++ [Txn_PreCommit; Txn_Commit].

(** What the driver promises about a transaction with the operand steps
    [steps], run from the world [w] with outcome [o]: it returns; the
    calls it made are a prefix of the plan followed by one [delete] of
    the handle; a call that fails is the last one before the [delete] and
    its status is the status returned; when no call fails the whole plan
    ran and the status returned is OK; after a failed opening or operand
    step there is no [PreCommit] and no [Commit], and after a failed
    [PreCommit] no [Commit]. *)
Definition first_failure_aborts {A} (status_in : A -> Status) (w : World)
    (steps : list SdkCall) (o : Outcome A) : Prop :=
  exists (res : A) (calls : list SdkCall),
    let failed k c :=
      IsOK (status_of (trace w ++ take k calls) c) = false in
    o = Ret res (with_trace w (trace w ++ calls ++ [Txn_delete])) /\
    calls `prefix_of` plan_of steps /\
    (Txn_delete ∉ calls) /\
    (forall k c, calls !! k = Some c -> failed k c ->
       length calls = S k /\
       status_in res = status_of (trace w ++ take k calls) c) /\
    ((forall k c, calls !! k = Some c -> ~ failed k c) ->
       calls = plan_of steps /\ status_in res = OK) /\
    (forall k c, calls !! k = Some c -> failed k c ->
       c <> Txn_PreCommit -> c <> Txn_Commit ->
       (Txn_PreCommit ∉ calls) /\ (Txn_Commit ∉ calls)) /\
    (forall k, calls !! k = Some Txn_PreCommit -> failed k Txn_PreCommit ->
       Txn_Commit ∉ calls).

Lemma IsOK_true st : IsOK st = true -> st = OK.
Proof. now destruct st. Qed.

Lemma plan_of_lookup steps j x :
  Forall operand steps ->
  plan_of steps !! j = Some x ->
  (j <= length steps /\ x <> Txn_PreCommit /\ x <> Txn_Commit /\ x <> Txn_delete)%nat \/
  (j = S (length steps) /\ x = Txn_PreCommit) \/
  (j = S (S (length steps)) /\ x = Txn_Commit).
Proof.
  intros Hop. unfold plan_of. destruct j as [|j]; simpl.
  - intros [= <-]. left. repeat split; [lia|discriminate..].
  - intros H. apply lookup_app_Some in H as [H|[Hlen H]].
    + left. split; [apply lookup_lt_Some in H; lia|].
      rewrite Forall_forall in Hop.
      assert (Hx : operand x) by (apply Hop; eapply list_elem_of_lookup_2; eauto).
      repeat split; intros ->; exact Hx.
    + right. destruct (j - length steps)%nat as [|[|n]] eqn:E; simpl in H;
        try discriminate; injection H as <-; [left|right]; split; auto; lia.
Qed.

Lemma precommit_commit_steps last w :
  precommit_commit env w = steps_each [Txn_PreCommit; Txn_Commit] last w.
Proof.
  unfold precommit_commit. simpl. apply bind_ext. intros pre w'.
  destruct (IsOK (reply_status pre)); simpl; [|reflexivity].
  apply bind_ext. intros com w''. now destruct (IsOK (reply_status com)).
Qed.


Definition put_step (kv : KVPair) : SdkCall := Txn_Put (key kv) (value kv).

Lemma txn_put_each_steps kvs rest plan2 :
  (forall last w, rest w = steps_each plan2 last w) ->
  forall last w,
    txn_put_each env kvs rest w =
    steps_each (List.map put_step kvs ++ plan2) last w.
Proof.
  intros Hrest. induction kvs as [|kv kvs IH]; intros last w; simpl.
  - apply Hrest.
  - apply bind_ext. intros reply w'.
    destruct (IsOK (reply_status reply)); simpl; [apply IH|reflexivity].
Qed.

Lemma txn_get_each_steps keys rest plan2 :
  (forall last w, rest w = steps_each plan2 last w) ->
  forall last w,
    txn_get_each env keys rest w =
    steps_each (List.map Txn_Get keys ++ plan2) last w.
Proof.
  intros Hrest. induction keys as [|k keys IH]; intros last w; simpl.
  - apply Hrest.
  - apply bind_ext. intros reply w'.
    destruct (IsOK (reply_status reply)); simpl; [apply IH|reflexivity].
Qed.

Lemma txn_batch_get_each_steps keys rest plan2 :
  (forall last w, rest w = steps_each plan2 last w) ->
  forall last w,
    txn_batch_get_each env keys rest w =
    steps_each (List.map Txn_BatchGet keys ++ plan2) last w.
Proof.
  intros Hrest. induction keys as [|k keys IH]; intros last w; simpl.
  - apply Hrest.
  - apply bind_ext. intros reply w'.
    destruct (IsOK (reply_status reply)); simpl; [apply IH|reflexivity].
Qed.

(** With a validated isolation level the options are those of the
    flags. *)
Lemma transaction_options_valid w :
  txn_isolation_level_validator (FLAGS_txn_isolation_level flags) = true ->
  transaction_options flags w = Ret options_of_flags w.
Proof.
  unfold txn_isolation_level_validator, transaction_options,
    GetTxnIsolationLevel, options_of_flags, isolation_of, bind, ret.
  intros Hv.
  destruct (String.eqb (ToUpper _) "SI"); [reflexivity|].
  simpl in Hv. now rewrite Hv.
Qed.

Lemma bind_Stop {A B} (m : M A) (k : A -> M B) w e w' :
  m w = Stop e w' -> bind m k w = Stop e w'.
Proof. intros H. unfold bind. now rewrite H. Qed.

Lemma transaction_options_invalid w :
  txn_isolation_level_validator (FLAGS_txn_isolation_level flags) = false ->
  transaction_options flags w = Stop Fatal w.
Proof.
  unfold txn_isolation_level_validator, transaction_options,
    GetTxnIsolationLevel, bind.
  intros Hv. apply orb_false_iff in Hv as [-> ->]. reflexivity.
Qed.

(** A transactional operation is its plan, attempted step by step, and
    the [delete] of the handle. *)
Lemma transaction_attempt steps_plan steps w :
  txn_isolation_level_validator (FLAGS_txn_isolation_level flags) = true ->
  (forall last w, steps w =
     steps_each (steps_plan ++ [Txn_PreCommit; Txn_Commit]) last w) ->
  transaction flags env steps w =
  Ret (snd (attempt (trace w) (plan_of steps_plan) OK))
      (with_trace w (trace w ++ fst (attempt (trace w) (plan_of steps_plan) OK)
                       ++ [Txn_delete])).
Proof.
  intros Hv Hsteps. unfold transaction, bind.
  rewrite (transaction_options_valid w Hv), call_eq.
  unfold plan_of. simpl.
  fold (status_of (trace w) (Client_NewTransaction options_of_flags)).
  destruct (IsOK (status_of (trace w) _)) eqn:Hok; simpl.
  - rewrite (Hsteps (status_of (trace w) (Client_NewTransaction options_of_flags))).
    rewrite steps_each_attempt. simpl.
    destruct (attempt _ _ _) as [calls st]. simpl.
    unfold ret, with_trace. simpl. now rewrite <- !app_assoc.
  - unfold ret, with_trace. simpl. now rewrite <- !app_assoc.
Qed.

Lemma attempt_first_failure_aborts steps w :
  Forall operand steps ->
  first_failure_aborts id w steps
    (Ret (snd (attempt (trace w) (plan_of steps) OK))
       (with_trace w (trace w ++ fst (attempt (trace w) (plan_of steps) OK)
                        ++ [Txn_delete]))).
Proof.
  intros Hop.
  pose proof (attempt_prefix (trace w) (plan_of steps) OK) as Hpre.
  pose proof (attempt_failure (trace w) (plan_of steps) OK) as Hfail.
  pose proof (attempt_success (trace w) (plan_of steps) OK) as Hsucc.
  destruct (attempt (trace w) (plan_of steps) OK) as [calls st].
  simpl in *. exists st, calls. simpl.
  assert (Hin : forall j x, calls !! j = Some x ->
            plan_of steps !! j = Some x).
  { intros j x Hj. eapply prefix_lookup_Some; eauto. }
  split; [reflexivity|]. split; [assumption|].
  split.
  { intros Hd. apply list_elem_of_lookup_1 in Hd as [j Hj].
    apply Hin, (plan_of_lookup _ _ _ Hop) in Hj.
    destruct Hj as [(_ & _ & _ & Hx)|[[_ Hx]|[_ Hx]]];
      [contradiction|discriminate..]. }
  split; [exact Hfail|].
  split.
  { intros Hall. destruct Hsucc as [Hc Hst].
    - intros k c Hk. specialize (Hall k c Hk).
      now destruct (IsOK _).
    - split; [assumption|].
      destruct Hst as [[Hnil _]|Hst]; [discriminate|].
      now apply IsOK_true. }
  split.
  - intros k c Hk Hf Hpc Hcm.
    destruct (Hfail k c Hk Hf) as [Hlen _].
    pose proof (plan_of_lookup _ _ _ Hop (Hin _ _ Hk)) as Hkc.
    destruct Hkc as [(Hk' & _)|[[_ Hx]|[_ Hx]]]; [|contradiction..].
    split; intros Hd; apply list_elem_of_lookup_1 in Hd as [j Hj];
      pose proof (lookup_lt_Some _ _ _ Hj) as Hlt;
      apply Hin, (plan_of_lookup _ _ _ Hop) in Hj;
      destruct Hj as [(_ & H1 & H2 & _)|[[Hj _]|[Hj _]]];
      try contradiction; lia.
  - intros k Hk Hf.
    destruct (Hfail k _ Hk Hf) as [Hlen _].
    pose proof (plan_of_lookup _ _ _ Hop (Hin _ _ Hk)) as Hkc.
    destruct Hkc as [(_ & Hx & _)|[[Hk' _]|[_ Hx]]];
      [contradiction| |discriminate].
    intros Hd. apply list_elem_of_lookup_1 in Hd as [j Hj].
    pose proof (lookup_lt_Some _ _ _ Hj) as Hlt.
    apply Hin, (plan_of_lookup _ _ _ Hop) in Hj.
    destruct Hj as [(_ & _ & H2 & _)|[[_ Hx]|[Hj _]]];
      [contradiction|discriminate|lia].
Qed.

Lemma first_failure_aborts_result steps w st w' wb rb :
  first_failure_aborts id w steps (Ret st w') ->
  first_failure_aborts status w steps
    (Ret {| status := st; write_bytes := wb; read_bytes := rb |} w').
Proof.
  intros (res & calls & Heq & H). injection Heq as <- ->.
  eexists _, calls. split; [reflexivity|]. exact H.
Qed.

(** C2.  With a validated isolation level, each of [KvTxnPut],
    [KvTxnBatchPut], [KvTxnGet] and [KvTxnBatchGet] returns, from every
    world and whatever the SDK answers; it calls [NewTransaction], the
    operand steps, [PreCommit] and [Commit] in this order up to the first
    call that fails and no further, so that a failed opening or operand
    step is followed by neither [PreCommit] nor [Commit] and a failed
    [PreCommit] by no [Commit]; the status of the first failing call is
    the status of the result; and the handle is deleted exactly once, as
    the last call, on every path. *)
Theorem KvTxn_first_failure_aborts :
  txn_isolation_level_validator (FLAGS_txn_isolation_level flags) = true ->
  forall w : World,
    (forall kvs, first_failure_aborts status w (List.map put_step kvs)
                   (KvTxnPut flags env kvs w)) /\
    (forall kvs, first_failure_aborts status w [Txn_BatchPut kvs]
                   (KvTxnBatchPut flags env kvs w)) /\
    (forall keys, first_failure_aborts status w (List.map Txn_Get keys)
                    (KvTxnGet flags env keys w)) /\
    (forall keys, first_failure_aborts status w (List.map Txn_BatchGet keys)
                    (KvTxnBatchGet flags env keys w)).
Proof.
  intros Hv w. repeat split.
  - intros kvs. unfold KvTxnPut, bind.
    rewrite (transaction_attempt (List.map put_step kvs)); [|assumption|].
    + apply first_failure_aborts_result, attempt_first_failure_aborts.
      apply Forall_forall. intros c Hc.
      apply list_elem_of_In, in_map_iff in Hc as (kv & <- & _). exact I.
    + apply txn_put_each_steps. intros. apply precommit_commit_steps.
  - intros kvs. unfold KvTxnBatchPut, bind.
    rewrite (transaction_attempt [Txn_BatchPut kvs]); [|assumption|].
    + apply first_failure_aborts_result, attempt_first_failure_aborts.
      repeat constructor.
    + intros last w'. cbn [app steps_each]. apply bind_ext. intros reply w''.
      destruct (IsOK (reply_status reply)); cbn [negb]; [|reflexivity].
      apply (precommit_commit_steps (reply_status reply)).
  - intros keys. unfold KvTxnGet, bind.
    rewrite (transaction_attempt (List.map Txn_Get keys)); [|assumption|].
    + apply first_failure_aborts_result, attempt_first_failure_aborts.
      apply Forall_forall. intros c Hc.
      apply list_elem_of_In, in_map_iff in Hc as (k & <- & _). exact I.
    + apply txn_get_each_steps. intros. apply precommit_commit_steps.
  - intros keys. unfold KvTxnBatchGet, bind.
    rewrite (transaction_attempt (List.map Txn_BatchGet keys)); [|assumption|].
    + apply first_failure_aborts_result, attempt_first_failure_aborts.
      apply Forall_forall. intros c Hc.
      apply list_elem_of_In, in_map_iff in Hc as (k & <- & _). exact I.
    + apply txn_batch_get_each_steps. intros. apply precommit_commit_steps.
Qed.

End TransactionFacts.

(** ** Steps that leave a part of the world alone *)

(** A part of the world that calls and random draws do not touch: the
    region entries, and the log of branches. *)
Class Untouched {X} (part : Benchmark.World -> X) : Prop := {
  untouched_by_trace : forall w t,
    part {| Benchmark.regions := Benchmark.regions w; Benchmark.trace := t;
            Benchmark.draws := Benchmark.draws w;
            Benchmark.paths := Benchmark.paths w |} = part w;
  untouched_by_draws : forall w d,
    part {| Benchmark.regions := Benchmark.regions w;
            Benchmark.trace := Benchmark.trace w; Benchmark.draws := d;
            Benchmark.paths := Benchmark.paths w |} = part w
}.

#[export] Instance regions_untouched : Untouched Benchmark.regions.
Proof. split; reflexivity. Qed.

#[export] Instance paths_untouched : Untouched Benchmark.paths.
Proof. split; reflexivity. Qed.

Section FrameFacts.
Import Int Benchmark.

Variable flags : Flags.
Variable env : Env.

Context {X : Type} (part : World -> X) `{!Untouched part}.

Definition keeps {A} (m : M A) : Prop :=
  forall w, part (final_world (m w)) = part w.

Lemma keeps_ret {A} (a : A) : keeps (ret a).
Proof. intros w. reflexivity. Qed.

Lemma keeps_stop {A} e : keeps (@stop A e).
Proof. intros w. reflexivity. Qed.

Lemma keeps_bind {A B} (m : M A) (k : A -> M B) :
  keeps m -> (forall a, keeps (k a)) -> keeps (bind m k).
Proof.
  intros Hm Hk w. unfold bind. specialize (Hm w).
  destruct (m w) as [a w'|e w']; simpl in *; [|assumption].
  now rewrite Hk.
Qed.

Lemma keeps_call c : keeps (call env c).
Proof. intros w. apply untouched_by_trace. Qed.

Lemma keeps_draw : keeps (draw env).
Proof. intros w. apply untouched_by_draws. Qed.

Lemma keeps_deref p : keeps (deref p).
Proof. intros w. unfold deref. now destruct (regions w !! p). Qed.

Lemma keeps_rem a b : keeps (rem a b).
Proof. unfold rem. destruct (b =? 0); [apply keeps_stop|apply keeps_ret]. Qed.

Lemma keeps_at_index v i : keeps (at_index v i).
Proof.
  unfold at_index. destruct (v !! Z.to_nat i);
    [apply keeps_ret|apply keeps_stop].
Qed.

Lemma keeps_random_chars n : keeps (random_chars env n).
Proof.
  induction n as [|n IH]; cbn [random_chars]; [apply keeps_ret|].
  apply keeps_bind; [apply keeps_draw|]. intros v.
  apply keeps_bind; [apply IH|]. intros rest. apply keeps_ret.
Qed.

Lemma keeps_GenRandomString len : keeps (GenRandomString env len).
Proof. apply keeps_random_chars. Qed.

Lemma keeps_GenSeqString num len : keeps (GenSeqString num len).
Proof.
  unfold GenSeqString. destruct (format_zero_padded num len);
    [apply keeps_ret|apply keeps_stop].
Qed.

Lemma keeps_repeat_body {S} n (body : S -> M S) s :
  (forall s, keeps (body s)) -> keeps (repeat_body n body s).
Proof.
  intros Hb. revert s. induction n as [|n IH]; intros s; simpl.
  - apply keeps_ret.
  - apply keeps_bind; [apply Hb|]. intros s'. apply IH.
Qed.

Lemma keeps_for_int {S} n (body : S -> M S) s :
  (forall s, keeps (body s)) -> keeps (for_int n body s).
Proof.
  intros Hb. unfold for_int.
  apply keeps_bind; [now apply keeps_repeat_body|]. intros s'.
  destruct (_ <? _); [apply keeps_stop|apply keeps_ret].
Qed.

Lemma keeps_for_each {A S} (xs : list A) (body : S -> A -> M S) s :
  (forall s x, keeps (body s x)) -> keeps (for_each xs body s).
Proof.
  intros Hb. revert s. induction xs as [|x xs IH]; intros s; simpl.
  - apply keeps_ret.
  - apply keeps_bind; [apply Hb|]. intros s'. apply IH.
Qed.

End FrameFacts.

Abbreviation keeps_regions := (keeps Benchmark.regions).
Abbreviation keeps_paths := (keeps Benchmark.paths).

Section FrameFactsOfParts.
Import Int Benchmark.

Variable env : Env.

Lemma keeps_took p : keeps_regions (took p).
Proof. intros w. reflexivity. Qed.

Lemma keeps_assign p r : keeps_paths (assign p r).
Proof. intros w. reflexivity. Qed.

End FrameFactsOfParts.

(** Solves goals [keeps part m] by following the shape of [m]. *)
Ltac frame_step :=
  first
    [ match goal with |- Untouched _ => typeclasses eauto end
    | apply keeps_ret | apply keeps_stop | apply keeps_call
    | apply keeps_draw | apply keeps_deref | apply keeps_rem
    | apply keeps_at_index | apply keeps_GenRandomString
    | apply keeps_GenSeqString | apply keeps_took | apply keeps_assign
    | assumption
    | apply keeps_for_int; intros ?
    | apply keeps_for_each; intros ? ?
    | apply keeps_repeat_body; intros ?
    | apply keeps_bind; [|intros ?]
    | match goal with
      | |- keeps _ (if ?b then _ else _) => destruct b
      | |- keeps _ (let '(_, _) := ?p in _) => destruct p
      | |- keeps _ (match ?p with (_, _) => _ end) => destruct p
      end ].

Ltac frame := repeat frame_step.

(** A run to look at: an SDK that refuses the key ["k2"]. *)
Section TransactionExample.
Import Benchmark.

Definition default_flags : Flags :=
  {| FLAGS_key_size := 64; FLAGS_value_size := 256; FLAGS_batch_size := 1;
     FLAGS_arrange_kv_num := 10000; FLAGS_is_pessimistic_txn := false;
     FLAGS_txn_isolation_level := "SI" |}.

Definition ok_reply : Reply :=
  {| reply_status := OK; out_value := ""; out_kvs := [] |}.

Definition refusing_k2 : Env :=
  {| sdk := fun _ c =>
              match c with
              | Txn_Put "k2" _ =>
                  {| reply_status := NotOK 5; out_value := ""; out_kvs := [] |}
              | _ => ok_reply
              end;
     random_device := fun n => Z.of_nat n;
     counter_bits := 64;
     read_index_bits := 32 |}.

Definition empty_world : World :=
  {| regions := ∅; trace := []; draws := 0; paths := [] |}.

Definition three_pairs : list KVPair :=
  [ {| key := "k1"; value := "v1" |}; {| key := "k2"; value := "v2" |};
    {| key := "k3"; value := "v3" |} ].

Example KvTxnPut_second_put_refused :
  KvTxnPut default_flags refusing_k2 three_pairs empty_world =
  Ret {| status := NotOK 5; write_bytes := 12; read_bytes := 0 |}
      (with_trace empty_world
         [ Client_NewTransaction
             {| kind := kOptimistic; isolation := kSnapshotIsolation |};
           Txn_Put "k1" "v1"; Txn_Put "k2" "v2"; Txn_delete ]).
Proof. reflexivity. Qed.

Lemma KvTxn_first_failure_aborts_witness :
  first_failure_aborts default_flags refusing_k2 status empty_world
    (List.map put_step three_pairs)
    (KvTxnPut default_flags refusing_k2 three_pairs empty_world).
Proof.
  exact (proj1 (KvTxn_first_failure_aborts default_flags refusing_k2
                  eq_refl empty_world) three_pairs).
Defined.

End TransactionExample.

(** ** Reasoning about runs

    [wp m Q E w]: run from [w], [m] either returns a value and a world
    that satisfy [Q], or stops with a failure and a world that satisfy
    [E]. *)
Section ProgramLogic.
Import Int Benchmark.

Variable env : Env.

Definition wp {A} (m : M A) (Q : A -> World -> Prop)
    (E : Failure -> World -> Prop) (w : World) : Prop :=
  match m w with
  | Ret a w' => Q a w'
  | Stop e w' => E e w'
  end.

(** No failure is allowed. *)
Definition never : Failure -> World -> Prop := fun _ _ => False.

Definition with_regions (w : World) (m : gmap nat RegionEntry) : World :=
  {| regions := m; trace := trace w; draws := draws w; paths := paths w |}.

Lemma wp_ret {A} (a : A) Q E w : Q a w -> wp (ret a) Q E w.
Proof. exact id. Qed.

Lemma wp_stop {A} e (Q : A -> World -> Prop) E w :
  E e w -> wp (stop e) Q E w.
Proof. exact id. Qed.

Lemma wp_bind {A B} (m : M A) (k : A -> M B) Q E w :
  wp m (fun a w' => wp (k a) Q E w') E w -> wp (bind m k) Q E w.
Proof. unfold wp, bind. now destruct (m w). Qed.

Lemma wp_mono {A} (m : M A) (Q Q' : A -> World -> Prop) (E E' : Failure -> World -> Prop) w :
  wp m Q E w ->
  (forall a w', Q a w' -> Q' a w') ->
  (forall e w', E e w' -> E' e w') ->
  wp m Q' E' w.
Proof. unfold wp. destruct (m w); auto. Qed.

Lemma wp_returns {A} (m : M A) Q w :
  wp m Q never w <-> exists a w', m w = Ret a w' /\ Q a w'.
Proof.
  unfold wp, never. destruct (m w) as [a w'|e w'].
  - split; [eauto|]. now intros (? & ? & [= <- <-] & ?).
  - split; [contradiction|]. now intros (? & ? & ? & _).
Qed.

Lemma wp_call c (Q : Reply -> World -> Prop) E w :
  Q (sdk env (trace w) c) (with_trace w (trace w ++ [c])) ->
  wp (call env c) Q E w.
Proof. exact id. Qed.

Lemma wp_took p (Q : unit -> World -> Prop) E w :
  Q tt {| regions := regions w; trace := trace w; draws := draws w;
          paths := paths w ++ [p] |} ->
  wp (took p) Q E w.
Proof. exact id. Qed.

Lemma wp_deref p r (Q : RegionEntry -> World -> Prop) E w :
  regions w !! p = Some r -> Q r w -> wp (deref p) Q E w.
Proof. intros H HQ. unfold wp, deref. now rewrite H. Qed.

Lemma wp_assign p r (Q : unit -> World -> Prop) E w :
  Q tt (with_regions w (<[p := r]> (regions w))) -> wp (assign p r) Q E w.
Proof. exact id. Qed.

Lemma wp_rem a b (Q : Z -> World -> Prop) E w :
  (b = 0 -> E Undefined w) -> (b <> 0 -> Q (a mod b) w) ->
  wp (rem a b) Q E w.
Proof.
  intros H0 H1. unfold wp, rem.
  destruct (Z.eqb_spec b 0); [apply H0|apply H1]; assumption.
Qed.

Lemma wp_at_index v i (Q : string -> World -> Prop) E w :
  match v !! Z.to_nat i with
  | Some k => Q k w
  | None => E Undefined w
  end ->
  wp (at_index v i) Q E w.
Proof. unfold wp, at_index. now destruct (v !! Z.to_nat i). Qed.

(** [GenRandomString] returns a string of the length asked for and only
    consumes random numbers. *)
Lemma wp_random_chars n (Q : string -> World -> Prop) E w :
  (forall s w', String.length s = n ->
     regions w' = regions w -> trace w' = trace w -> paths w' = paths w ->
     Q s w') ->
  wp (random_chars env n) Q E w.
Proof.
  revert Q w. induction n as [|n IH]; intros Q w HQ; cbn [random_chars].
  - apply wp_ret, HQ; reflexivity.
  - apply wp_bind. unfold wp at 1, draw.
    apply wp_bind, IH. intros s w' Hlen Hr Ht Hp.
    apply wp_ret, HQ; simpl in *; congruence.
Qed.

Lemma wp_GenRandomString len (Q : string -> World -> Prop) E w :
  (forall s w', String.length s = Z.to_nat len ->
     regions w' = regions w -> trace w' = trace w -> paths w' = paths w ->
     Q s w') ->
  wp (GenRandomString env len) Q E w.
Proof. apply wp_random_chars. Qed.

Lemma wp_GenSeqString num len (Q : string -> World -> Prop) E w :
  match format_zero_padded num len with
  | Some s => Q s w
  | None => E Thrown w
  end ->
  wp (GenSeqString num len) Q E w.
Proof. unfold wp, GenSeqString. now destruct (format_zero_padded num len). Qed.

(** Loops, by an invariant indexed by the iterations done. *)
Lemma wp_repeat_body {S} (Inv : nat -> S -> World -> Prop) E
    (body : S -> M S) n :
  (forall i s w, (i < n)%nat -> Inv i s w -> wp (body s) (Inv (Datatypes.S i)) E w) ->
  forall s w, Inv 0%nat s w -> wp (repeat_body n body s) (Inv n) E w.
Proof.
  intros Hbody.
  assert (H : forall todo i s w, (i + todo = n)%nat -> Inv i s w ->
            wp (repeat_body todo body s) (Inv n) E w).
  { induction todo as [|todo IH]; intros i s w Hi Hinv; cbn [repeat_body].
    - apply wp_ret. now replace n with i by lia.
    - apply wp_bind. eapply wp_mono; [apply (Hbody i); [lia|eassumption]| |auto].
      intros s' w' Hinv'. apply (IH (Datatypes.S i)); [lia|assumption]. }
  intros s w. apply (H n 0%nat). lia.
Qed.

Lemma wp_for_int {S} (Inv : nat -> S -> World -> Prop) E (body : S -> M S) n :
  0 <= n <= INT_MAX ->
  (forall i s w, (i < Z.to_nat n)%nat -> Inv i s w ->
     wp (body s) (Inv (Datatypes.S i)) E w) ->
  forall s w, Inv 0%nat s w -> wp (for_int n body s) (Inv (Z.to_nat n)) E w.
Proof.
  intros Hn Hbody s w Hinv. unfold for_int. apply wp_bind.
  rewrite Z.min_l by lia.
  eapply wp_mono; [apply (wp_repeat_body Inv E body); eassumption| |auto].
  intros s' w' Hinv'. cbv beta.
  destruct (Z.ltb_spec INT_MAX n); [lia|]. now apply wp_ret.
Qed.

Lemma wp_for_each {A S} (Inv : list A -> S -> World -> Prop) E
    (body : S -> A -> M S) (xs : list A) :
  (forall done x s w, done ++ [x] `prefix_of` xs -> Inv done s w ->
     wp (body s x) (Inv (done ++ [x])) E w) ->
  forall s w, Inv [] s w -> wp (for_each xs body s) (Inv xs) E w.
Proof.
  intros Hbody.
  assert (H : forall todo done s w, done ++ todo = xs -> Inv done s w ->
            wp (for_each todo body s) (Inv xs) E w).
  { induction todo as [|x todo IH]; intros done s w Hxs Hinv;
      cbn [for_each].
    - apply wp_ret. now rewrite app_nil_r in Hxs; subst.
    - apply wp_bind.
      eapply wp_mono; [apply (Hbody done x); [|eassumption]| |auto].
      + exists todo. now rewrite <- app_assoc.
      + intros s' w' Hinv'. apply (IH (done ++ [x])); [|assumption].
        now rewrite <- app_assoc. }
  intros s w. now apply (H xs []).
Qed.

End ProgramLogic.

(** One step of a [wp] goal whose program is a primitive step. *)
Ltac wp_step :=
  first
    [ apply wp_bind
    | apply wp_ret
    | apply wp_call
    | apply wp_took
    | apply wp_assign
    | apply wp_GenRandomString; intros ? ? ? ? ? ? ].

(** ** The shared counter of a region entry *)
Section CounterFacts.
Import Int Benchmark.

Variable flags : Flags.
Variable env : Env.

(** The entry [r] with its counter advanced [n] times. *)
Definition advance (r : RegionEntry) (n : Z) : RegionEntry :=
  {| prefix := prefix r;
     counter := (counter r + n) mod 2 ^ counter_bits env;
     keys := keys r; read_index := read_index r |}.

Lemma advance_advance r n m : advance (advance r n) m = advance r (n + m).
Proof.
  unfold advance. simpl. f_equal.
  rewrite Zplus_mod_idemp_l. f_equal. lia.
Qed.

Lemma wp_counter_fetch_add p r (Q : Z -> World -> Prop) E w :
  regions w !! p = Some r ->
  Q (to_size_t (counter r))
    (with_regions w (<[p := advance r 1]> (regions w))) ->
  wp (counter_fetch_add env p) Q E w.
Proof.
  intros Hp HQ. unfold counter_fetch_add.
  apply wp_bind, (wp_deref p r); [assumption|].
  apply wp_bind, wp_assign, wp_ret. exact HQ.
Qed.

Lemma wp_final {A} (m : M A) (P : World -> Prop) w :
  wp m (fun _ => P) (fun _ => P) w <-> P (final_world (m w)).
Proof. unfold wp. now destruct (m w). Qed.

Lemma keeps_wp {A} (m : M A) (P : gmap nat RegionEntry -> Prop) w :
  keeps_regions m -> P (regions w) ->
  wp m (fun _ w' => P (regions w')) (fun _ w' => P (regions w')) w.
Proof.
  intros Hm HP. apply (wp_final m (fun w' => P (regions w'))).
  now rewrite Hm.
Qed.

(** C10.  On a region entry [r] at [region_entry]: [KvPut] leaves the
    counter advanced by exactly one, for a random key as for a sequential
    one, and changes nothing else of any region entry; [KvBatchPut] with
    random keys leaves every region entry, so the counter, as it was; and
    [KvBatchPut] with sequential keys advances the counter by the batch
    size (when the key width is not negative, so that formatting does not
    throw). *)
Theorem KvPut_counter_even_when_random (region_entry : RegionEntryPtr)
    (r : RegionEntry) (w : World) :
  regions w !! region_entry = Some r ->
  (forall is_random,
     regions (final_world (KvPut flags env region_entry is_random w)) =
     <[region_entry := advance r 1]> (regions w)) /\
  regions (final_world (KvBatchPut flags env region_entry true w)) =
    regions w /\
  (0 <= counter r < 2 ^ counter_bits env ->
   0 <= random_str_len_of flags (prefix r) ->
   0 <= FLAGS_batch_size flags <= INT_MAX + 1 ->
   regions (final_world (KvBatchPut flags env region_entry false w)) =
   <[region_entry := advance r (FLAGS_batch_size flags)]> (regions w)).
Proof.
  intros Hp. split; [|split].
  - intros is_random.
    apply (wp_final _ (fun w' => regions w' = _)).
    unfold KvPut. apply wp_bind, (wp_deref _ r); [assumption|].
    apply wp_bind, (wp_counter_fetch_add _ r); [assumption|].
    apply (keeps_wp _ (fun m => m = _)); [|reflexivity].
    destruct is_random; frame.
  - apply (wp_final _ (fun w' => regions w' = _)).
    apply (keeps_wp _ (fun m => m = _)); [|reflexivity].
    unfold KvBatchPut. apply keeps_bind; [frame|]. intros r'.
    apply keeps_bind.
    + apply keeps_for_int. intros [kvs bytes]. frame.
    + intros [kvs bytes]. frame.
  - intros Hc Hlen Hb.
    apply (wp_final _ (fun w' => regions w' = _)).
    unfold KvBatchPut. apply wp_bind, (wp_deref _ r); [assumption|].
    apply wp_bind. unfold for_int. apply wp_bind.
    rewrite Z.min_l by lia.
    eapply wp_mono;
      [apply (wp_repeat_body
                (fun i (_ : list KVPair * Z) w' =>
                   regions w' =
                   <[region_entry := advance r (Z.of_nat i)]> (regions w))
                (fun _ _ => False))| |contradiction].
    + intros i [kvs bytes] w1 Hi Hinv.
      apply wp_bind, wp_bind.
      apply (wp_counter_fetch_add _ (advance r (Z.of_nat i)));
        [rewrite Hinv; apply lookup_insert_eq|].
      apply wp_bind, wp_GenSeqString. unfold format_zero_padded.
      destruct (Z.ltb_spec (random_str_len_of flags (prefix r)) 0); [lia|].
      apply wp_ret, wp_bind, wp_GenRandomString.
      intros value w2 _ Hr _ _. apply wp_ret. rewrite Hr. simpl.
      rewrite Hinv, insert_insert_eq, advance_advance.
      do 2 f_equal. lia.
    + simpl. symmetry. apply insert_id. rewrite Hp. f_equal.
      destruct r as [pre cnt ks ri]. unfold advance. simpl in *.
      f_equal. rewrite Z.add_0_r. now rewrite Z.mod_small.
    + intros [kvs bytes] w1 Hinv. cbv beta.
      destruct (INT_MAX <? FLAGS_batch_size flags).
      * apply wp_stop. rewrite Hinv. do 2 f_equal. lia.
      * apply wp_ret. cbv beta iota.
        apply wp_bind, wp_call, wp_ret. simpl.
        rewrite Hinv. do 2 f_equal. lia.
Qed.

End CounterFacts.

(** Runs to look at: one shard with the prefix ["P"], keys of size 8, an
    SDK that accepts everything. *)
Section CounterExamples.
Import Benchmark.

Definition small_flags (batch_size : Z) : Flags :=
  {| FLAGS_key_size := 8; FLAGS_value_size := 4;
     FLAGS_batch_size := batch_size;
     FLAGS_arrange_kv_num := 1000; FLAGS_is_pessimistic_txn := false;
     FLAGS_txn_isolation_level := "SI" |}.

Definition accepting : Env :=
  {| sdk := fun _ _ => ok_reply;
     random_device := fun n => Z.of_nat n;
     counter_bits := 64;
     read_index_bits := 32 |}.

Definition shard_P : RegionEntry :=
  {| prefix := "P"; counter := 0; keys := []; read_index := 0 |}.

Definition one_shard : World :=
  {| regions := {[ 0%nat := shard_P ]}; trace := []; draws := 0;
     paths := [] |}.

Definition counter_after {A} (o : Outcome A) : option Z :=
  counter <$> regions (final_world o) !! 0%nat.

Example KvPut_sequential_trace :
  trace (final_world (KvPut (small_flags 1) accepting 0%nat false one_shard))
  = [RawKV_Put "wP0000000" "abcd"].
Proof. vm_compute. reflexivity. Qed.

Example KvPut_random_counter :
  counter_after (KvPut (small_flags 1) accepting 0%nat true one_shard)
  = Some 1.
Proof. vm_compute. reflexivity. Qed.

Example KvBatchPut_random_counter :
  counter_after (KvBatchPut (small_flags 3) accepting 0%nat true one_shard)
  = Some 0.
Proof. vm_compute. reflexivity. Qed.

Example KvBatchPut_sequential_counter :
  counter_after (KvBatchPut (small_flags 3) accepting 0%nat false one_shard)
  = Some 3.
Proof. vm_compute. reflexivity. Qed.

Lemma KvPut_counter_even_when_random_witness :
  regions (final_world (KvPut (small_flags 1) accepting 0%nat true one_shard))
  = <[0%nat := advance accepting shard_P 1]> (regions one_shard).
Proof.
  assert (H : regions one_shard !! 0%nat = Some shard_P)
    by (vm_compute; reflexivity).
  exact (proj1 (KvPut_counter_even_when_random (small_flags 1) accepting
                  0%nat shard_P one_shard H) true).
Defined.

End CounterExamples.

(** ** Arrange *)
Section ArrangeFacts.
Import Int Benchmark.

Variable flags : Flags.
Variable env : Env.

(** The key of iteration [j] of [Arrange] on the entry [r]. *)
Definition seq_key (r : RegionEntry) (j : nat) : string :=
  EncodeRawKey
    (prefix r +:+
     zero_padded
       (to_int (to_size_t ((counter r + Z.of_nat j) mod 2 ^ counter_bits env)))
       (random_str_len_of flags (prefix r))).

(** The entry [r] after [i] iterations. *)
Definition grown (r : RegionEntry) (i : nat) : RegionEntry :=
  {| prefix := prefix r;
     counter := (counter r + Z.of_nat i) mod 2 ^ counter_bits env;
     keys := keys r ++ List.map (seq_key r) (seq 0 i);
     read_index := read_index r |}.

(** One batched write: the pairs, the world before, the status and the
    world after. *)
Record WriteAttempt := {
  batch : list KVPair;
  before : World;
  answer : Status;
  after : World
}.

Definition accepted (a : WriteAttempt) : Prop := IsOK (answer a) = true.

(** The writes of [log] account for every call made between the calls
    [t] and the calls [t']: the first write began after the calls [t],
    every write began after the calls its predecessor ended with, and
    [t'] are the calls the last write ended with. *)
Fixpoint linked (t : list SdkCall) (log : list WriteAttempt)
    (t' : list SdkCall) : Prop :=
  match log with
  | [] => t' = t
  | a :: rest => trace (before a) = t /\ linked (trace (after a)) rest t'
  end.

(** What [Arrange] with the batched write [write] has done when it
    returns [b] in the world [w'], from the entry [r] and the world [w]:
    it ran [i] iterations and the entry has grown by their keys; [log]
    are the writes it made, in order, their batches are the pairs of
    these iterations, and the calls of the run are the calls of these
    writes and no others; returning true, it ran all iterations and every
    write was accepted; returning false, the last write was refused, all
    before it were accepted, and nothing was done after it. *)
Definition arranged (write : list KVPair -> M Status) (p : RegionEntryPtr)
    (r : RegionEntry) (w : World) (b : bool) (w' : World) : Prop :=
  exists (log : list WriteAttempt) (i : nat),
    (i <= Z.to_nat (FLAGS_arrange_kv_num flags))%nat /\
    regions w' = <[p := grown r i]> (regions w) /\
    List.map key (concat (List.map batch log)) = List.map (seq_key r) (seq 0 i) /\
    Forall (fun a => write (batch a) (before a) = Ret (answer a) (after a)) log /\
    linked (trace w) log (trace w') /\
    if b
    then i = Z.to_nat (FLAGS_arrange_kv_num flags) /\ Forall accepted log
    else exists log0 a, log = log0 ++ [a] /\ Forall accepted log0 /\
           IsOK (answer a) = false /\ after a = w'.

Lemma linked_snoc t log t1 a :
  linked t log t1 -> trace (before a) = t1 ->
  linked t (log ++ [a]) (trace (after a)).
Proof.
  revert t. induction log as [|a0 log IH]; intros t; simpl.
  - intros -> Ha. auto.
  - intros [H0 Hrest] Ha. split; [assumption|]. now apply IH.
Qed.

Lemma grown_0 r :
  0 <= counter r < 2 ^ counter_bits env -> grown r 0 = r.
Proof.
  intros H. destruct r as [pre c ks ri]. unfold grown. simpl in *.
  rewrite Z.add_0_r, Z.mod_small, app_nil_r by assumption. reflexivity.
Qed.

Lemma wp_keys_push_back p r k (Q : unit -> World -> Prop) E w :
  regions w !! p = Some r ->
  Q tt (with_regions w
          (<[p := {| prefix := prefix r; counter := counter r;
                     keys := keys r ++ [k]; read_index := read_index r |}]>
             (regions w))) ->
  wp (keys_push_back p k) Q E w.
Proof.
  intros Hp HQ. unfold keys_push_back.
  apply wp_bind, (wp_deref p r); [assumption|]. now apply wp_assign.
Qed.

Lemma wp_arrange_kv p r i (Q : KVPair -> World -> Prop) E w u :
  regions u = <[p := grown r i]> (regions w) ->
  0 <= random_str_len_of flags (prefix r) ->
  (forall value u',
     trace u' = trace u -> paths u' = paths u ->
     regions u' = <[p := grown r (S i)]> (regions w) ->
     Q {| key := seq_key r i; value := value |} u') ->
  wp (arrange_kv flags env p (prefix r) (random_str_len_of flags (prefix r)))
     Q E u.
Proof.
  intros Hu Hlen HQ. unfold arrange_kv.
  apply wp_bind, (wp_counter_fetch_add env p (grown r i));
    [rewrite Hu; apply lookup_insert_eq|].
  apply wp_bind, wp_GenSeqString. unfold format_zero_padded.
  destruct (Z.ltb_spec (random_str_len_of flags (prefix r)) 0); [lia|].
  apply wp_bind, wp_GenRandomString. intros value u1 _ Hr Ht Hp.
  apply wp_bind, (wp_keys_push_back p (advance env (grown r i) 1));
    [rewrite Hr; apply lookup_insert_eq|].
  apply wp_ret, HQ; [assumption..|].
  simpl. rewrite Hr. simpl. rewrite Hu, !insert_insert_eq. f_equal.
  unfold grown. simpl. f_equal.
  - rewrite Zplus_mod_idemp_l. f_equal. lia.
  - change (seq_key r 0 :: List.map (seq_key r) (seq 1 i))
      with (List.map (seq_key r) (seq 0 (S i))).
    rewrite seq_S, List.map_app, <- app_assoc. reflexivity.
Qed.

Lemma keys_snoc r i (done : list KVPair) kvs value :
  List.map key (done ++ kvs) = List.map (seq_key r) (seq 0 i) ->
  List.map key (done ++ kvs ++ [{| key := seq_key r i; value := value |}])
  = List.map (seq_key r) (seq 0 (S i)).
Proof.
  intros H. rewrite seq_S, app_assoc, !List.map_app, <- List.map_app, H.
  reflexivity.
Qed.

(** The loop of [Arrange], from any iteration on.  [log] are the writes
    made so far, all accepted, and [kvs] the pairs not yet written. *)
Lemma Arrange_loop_arranged (write : list KVPair -> M Status) p r w :
  (forall kvs u, exists st v, write kvs u = Ret st v /\ regions v = regions u) ->
  0 <= random_str_len_of flags (prefix r) ->
  is_uint32 (FLAGS_arrange_kv_num flags) ->
  forall todo i kvs log u,
    (i + todo = Z.to_nat (FLAGS_arrange_kv_num flags))%nat ->
    regions u = <[p := grown r i]> (regions w) ->
    List.map key (concat (List.map batch log) ++ kvs)
      = List.map (seq_key r) (seq 0 i) ->
    Forall (fun a => write (batch a) (before a) = Ret (answer a) (after a))
      log ->
    linked (trace w) log (trace u) ->
    Forall accepted log ->
    (todo = 0%nat -> kvs = []) ->
    wp (Arrange_loop flags env write p (prefix r)
          (random_str_len_of flags (prefix r)) todo (Z.of_nat i) kvs)
       (arranged write p r w) never u.
Proof.
  intros Hwrite Hlen Hn.
  induction todo as [|todo IH];
    intros i kvs log u Hi Hu Hkeys Hlog Hlink Hok Hkvs; cbn [Arrange_loop].
  - apply wp_ret. exists log, i.
    rewrite (Hkvs eq_refl), app_nil_r in Hkeys.
    repeat split; try assumption; lia.
  - apply wp_bind, (wp_arrange_kv p r i _ _ w); [assumption..|].
    intros value u1 Ht Hp Hr.
    assert (Hi1 : to_uint32 (Z.of_nat i + 1) = Z.of_nat (S i)).
    { rewrite to_uint32_id; unfold is_uint32, UINT32_MAX in *; lia. }
    rewrite !Hi1.
    replace (Z.of_nat i + 1) with (Z.of_nat (S i)) by lia.
    destruct ((Z.of_nat (S i) mod 256 =? 0)
              || (Z.of_nat (S i) =? FLAGS_arrange_kv_num flags)) eqn:Hflush.
    + apply wp_bind.
      destruct (Hwrite (kvs ++ [{| key := seq_key r i; value := value |}]) u1)
        as (st & v & Hw & Hrv).
      unfold wp at 1. rewrite Hw.
      pose (a := {| batch := kvs ++ [{| key := seq_key r i; value := value |}];
                    before := u1; answer := st; after := v |}).
      assert (Hkeys' : List.map key (concat (List.map batch (log ++ [a])))
                       = List.map (seq_key r) (seq 0 (S i))).
      { rewrite List.map_app, concat_app. simpl. rewrite app_nil_r.
        now apply keys_snoc. }
      assert (Hlog' : Forall (fun a => write (batch a) (before a)
                                       = Ret (answer a) (after a)) (log ++ [a])).
      { apply Forall_app. split; [assumption|]. now repeat constructor. }
      assert (Hlink' : linked (trace w) (log ++ [a]) (trace v)).
      { apply (linked_snoc _ _ (trace u) a); [assumption|].
        simpl. exact Ht. }
      destruct (IsOK st) eqn:Hst; cbn [negb].
      * apply (IH (S i) [] (log ++ [a]));
          [lia|congruence|now rewrite app_nil_r|assumption|assumption|
          |reflexivity].
        apply Forall_app. split; [assumption|]. now repeat constructor.
      * apply wp_ret. exists (log ++ [a]), (S i).
        split; [lia|]. split; [congruence|].
        split; [assumption|]. split; [assumption|].
        split; [assumption|].
        exists log, a. auto.
    + apply orb_false_iff in Hflush as [_ Hlast].
      apply Z.eqb_neq in Hlast.
      apply (IH (S i) _ log);
        [lia|assumption| |assumption|now rewrite Ht|assumption|lia].
      rewrite app_assoc in *. rewrite <- app_assoc. now apply keys_snoc.
Qed.

(** The batched writes of the two [Arrange] functions. *)
Definition raw_write (kvs : list KVPair) : M Status :=
  reply <- call env (RawKV_BatchPut kvs) ;; ret (reply_status reply).

Definition txn_write (kvs : list KVPair) : M Status :=
  result <- KvTxnBatchPut flags env kvs ;; ret (status result).

Lemma raw_write_returns kvs u :
  exists st v, raw_write kvs u = Ret st v /\ regions v = regions u.
Proof. eexists _, _. split; reflexivity. Qed.

Lemma txn_write_returns kvs u :
  txn_isolation_level_validator (FLAGS_txn_isolation_level flags) = true ->
  exists st v, txn_write kvs u = Ret st v /\ regions v = regions u.
Proof.
  intros Hv. unfold txn_write, KvTxnBatchPut, bind.
  rewrite (transaction_attempt flags env [Txn_BatchPut kvs]); [|assumption|].
  - eexists _, _. split; reflexivity.
  - intros last w'. cbn [app steps_each]. apply bind_ext. intros reply w''.
    destruct (IsOK (reply_status reply)); cbn [negb]; [|reflexivity].
    apply (precommit_commit_steps env (reply_status reply)).
Qed.

Lemma ReadOperation_Arrange_arranged p r w :
  regions w !! p = Some r ->
  0 <= counter r < 2 ^ counter_bits env ->
  0 <= random_str_len_of flags (prefix r) ->
  is_uint32 (FLAGS_arrange_kv_num flags) ->
  wp (ReadOperation_Arrange flags env p) (arranged raw_write p r w) never w.
Proof.
  intros Hp Hc Hlen Hn.
  assert (Hw : regions w = <[p := grown r 0]> (regions w)).
  { symmetry. apply insert_id. now rewrite grown_0. }
  unfold ReadOperation_Arrange.
  apply wp_bind, (wp_deref _ r); [assumption|].
  apply (Arrange_loop_arranged raw_write p r w
           raw_write_returns Hlen Hn _ 0%nat [] []);
    [lia|assumption|reflexivity|constructor|reflexivity|constructor
    |reflexivity].
Qed.

Lemma TxnReadOperation_Arrange_arranged p r w :
  regions w !! p = Some r ->
  0 <= counter r < 2 ^ counter_bits env ->
  0 <= random_str_len_of flags (prefix r) ->
  is_uint32 (FLAGS_arrange_kv_num flags) ->
  txn_isolation_level_validator (FLAGS_txn_isolation_level flags) = true ->
  wp (TxnReadOperation_Arrange flags env p) (arranged txn_write p r w) never w.
Proof.
  intros Hp Hc Hlen Hn Hv.
  assert (Hw : regions w = <[p := grown r 0]> (regions w)).
  { symmetry. apply insert_id. now rewrite grown_0. }
  unfold TxnReadOperation_Arrange.
  apply wp_bind, (wp_deref _ r); [assumption|].
  apply (Arrange_loop_arranged txn_write p r w
           (fun kvs u => txn_write_returns kvs u Hv) Hlen Hn _ 0%nat [] []);
    [lia|assumption|reflexivity|constructor|reflexivity|constructor
    |reflexivity].
Qed.

(** The keys of the batches of [calls] that the SDK accepted, [calls]
    made after [history]. *)
Fixpoint written_keys (history calls : list SdkCall) : list string :=
  match calls with
  | [] => []
  | c :: rest =>
      match c with
      | RawKV_BatchPut kvs =>
          if IsOK (status_of env history c) then List.map key kvs else []
      | _ => []
      end ++ written_keys (history ++ [c]) rest
  end.

(** C4, as the code has it.  [Arrange] of either class, on a region
    entry [r] whose key width is not negative, returns.  The calls it
    made are those of its batched writes, one write after the other and
    nothing in between.  When it returns true every write was accepted,
    so that a refused write makes it return false; when it returns
    false, the write it made last was refused, every write before was
    accepted and nothing was done after the refused write (no further
    batch is attempted: the world it returns in is the world the refused
    write ended in); the key list has then grown by the keys of all the
    batches handed to the write, those of the refused batch included. *)
Theorem Arrange_returns_at_refused_write (region_entry : RegionEntryPtr)
    (r : RegionEntry) (w : World) :
  regions w !! region_entry = Some r ->
  0 <= counter r < 2 ^ counter_bits env ->
  0 <= random_str_len_of flags (prefix r) ->
  is_uint32 (FLAGS_arrange_kv_num flags) ->
  txn_isolation_level_validator (FLAGS_txn_isolation_level flags) = true ->
  (exists b w', ReadOperation_Arrange flags env region_entry w = Ret b w' /\
                arranged raw_write region_entry r w b w') /\
  (exists b w', TxnReadOperation_Arrange flags env region_entry w = Ret b w' /\
                arranged txn_write region_entry r w b w').
Proof.
  intros Hp Hc Hlen Hn Hv.
  split; apply wp_returns.
  - now apply ReadOperation_Arrange_arranged.
  - now apply TxnReadOperation_Arrange_arranged.
Qed.

End ArrangeFacts.

(** Runs of [Arrange] to look at. *)
Section ArrangeExamples.
Import Benchmark.

Definition refusing_all : Env :=
  {| sdk := fun _ _ =>
              {| reply_status := NotOK 7; out_value := ""; out_kvs := [] |};
     random_device := fun n => Z.of_nat n;
     counter_bits := 64;
     read_index_bits := 32 |}.

Definition keys_after {A} (o : Outcome A) : option (list string) :=
  keys <$> regions (final_world o) !! 0%nat.

Definition arrange_flags (n : Z) : Flags :=
  {| FLAGS_key_size := 8; FLAGS_value_size := 2; FLAGS_batch_size := 1;
     FLAGS_arrange_kv_num := n; FLAGS_is_pessimistic_txn := false;
     FLAGS_txn_isolation_level := "SI" |}.

Example Arrange_three_keys :
  keys_after (ReadOperation_Arrange (arrange_flags 3) accepting 0%nat one_shard)
  = Some ["wP0000000"; "wP0000001"; "wP0000002"].
Proof. vm_compute. reflexivity. Qed.

(** Three pairs, one write, refused: [Arrange] returns false, no batch
    was written, and the key list holds the three keys all the same. *)
Lemma Arrange_keeps_keys_of_refused_batch :
  let o := ReadOperation_Arrange (arrange_flags 3) refusing_all 0%nat one_shard in
  (exists w', o = Ret false w') /\
  written_keys refusing_all (trace one_shard) (trace (final_world o)) = [] /\
  keys_after o = Some ["wP0000000"; "wP0000001"; "wP0000002"] /\
  keys_after o <>
    Some (keys shard_P ++
          written_keys refusing_all (trace one_shard) (trace (final_world o))).
Proof.
  split; [eexists; vm_compute; reflexivity|].
  split; [vm_compute; reflexivity|].
  split; [vm_compute; reflexivity|].
  vm_compute. discriminate.
Qed.

Lemma Arrange_returns_at_refused_write_witness :
  exists b w',
    ReadOperation_Arrange (arrange_flags 3) refusing_all 0%nat one_shard
      = Ret b w' /\
    arranged (arrange_flags 3) refusing_all (raw_write refusing_all) 0%nat
      shard_P one_shard b w'.
Proof.
  assert (H1 : regions one_shard !! 0%nat = Some shard_P)
    by (vm_compute; reflexivity).
  assert (H2 : 0 <= counter shard_P < 2 ^ counter_bits refusing_all)
    by (vm_compute; intuition discriminate).
  assert (H3 : 0 <= random_str_len_of (arrange_flags 3) (prefix shard_P))
    by (vm_compute; discriminate).
  assert (H4 : is_uint32 (FLAGS_arrange_kv_num (arrange_flags 3)))
    by (vm_compute; intuition discriminate).
  exact (proj1 (Arrange_returns_at_refused_write (arrange_flags 3) refusing_all
                  0%nat shard_P one_shard H1 H2 H3 H4 eq_refl)).
Defined.

End ArrangeExamples.

(** ** Strings and key formatting *)
Section StringFacts.
Import Int Benchmark.

Lemma length_append (a b : string) :
  String.length (a +:+ b) = (String.length a + String.length b)%nat.
Proof. induction a as [|c a IH]; simpl; [reflexivity|now rewrite IH]. Qed.

Lemma zeros_length n : String.length (zeros n) = n.
Proof. induction n as [|n IH]; simpl; [reflexivity|now rewrite IH]. Qed.

Lemma EncodeRawKey_length s :
  String.length (EncodeRawKey s) = S (String.length s).
Proof. reflexivity. Qed.

(** Reading a string of decimal digits back. *)
Definition digits_value (s : string) : option N :=
  N.of_uint <$> NilEmpty.uint_of_string s.

Lemma digits_value_zeros k s :
  digits_value (zeros k +:+ s) = digits_value s.
Proof.
  unfold digits_value. induction k as [|k IH]; simpl; [reflexivity|].
  destruct (NilEmpty.uint_of_string (zeros k +:+ s)) as [d|];
    destruct (NilEmpty.uint_of_string s) as [d'|]; simpl in *;
    congruence.
Qed.

Lemma digits_value_decimal n : digits_value (decimal n) = Some n.
Proof.
  unfold digits_value, decimal. rewrite NilEmpty.usu. simpl.
  now rewrite DecimalN.Unsigned.of_to.
Qed.

Lemma zero_padded_nonneg num len :
  0 <= num ->
  zero_padded num len =
  zeros (Z.to_nat len - String.length (decimal (Z.to_N num)))
    +:+ decimal (Z.to_N num).
Proof.
  intros H. unfold zero_padded.
  destruct (Z.ltb_spec num 0); [lia|].
  rewrite Z.abs_eq by assumption. simpl. now rewrite Nat.sub_0_r.
Qed.

(** Sequence keys of distinct non-negative numbers are distinct. *)
Lemma zero_padded_inj a b len :
  0 <= a -> 0 <= b -> zero_padded a len = zero_padded b len -> a = b.
Proof.
  intros Ha Hb H. rewrite !zero_padded_nonneg in H by assumption.
  apply (f_equal digits_value) in H.
  rewrite !digits_value_zeros, !digits_value_decimal in H.
  injection H as H. lia.
Qed.


Lemma append_inj_r (a b c : string) : a +:+ b = a +:+ c -> b = c.
Proof. induction a as [|x a IH]; simpl; [auto|]. intros [= H]. auto. Qed.

Lemma prefix_append (a b : string) : String.prefix a (a +:+ b) = true.
Proof.
  induction a as [|x a IH]; simpl; [now destruct b|].
  destruct (ascii_dec x x); [assumption|contradiction].
Qed.

End StringFacts.

(** ** Sequential reads *)
Section ReadFacts.
Import Int Benchmark.

Variable flags : Flags.
Variable env : Env.

(** The entry [r] with its read cursor advanced [j] times. *)
Definition stepped (r : RegionEntry) (j : Z) : RegionEntry :=
  {| prefix := prefix r; counter := counter r; keys := keys r;
     read_index := (read_index r + j) mod 2 ^ read_index_bits env |}.

Lemma stepped_stepped r i j : stepped (stepped r i) j = stepped r (i + j).
Proof.
  unfold stepped. simpl. f_equal. rewrite Zplus_mod_idemp_l. f_equal. lia.
Qed.

Lemma wp_read_index_post_inc p r (Q : Z -> World -> Prop) E u :
  regions u !! p = Some r ->
  Q (to_size_t (read_index r))
    (with_regions u (<[p := stepped r 1]> (regions u))) ->
  wp (read_index_post_inc env p) Q E u.
Proof.
  intros Hp HQ. unfold read_index_post_inc.
  apply wp_bind, (wp_deref p r); [assumption|].
  apply wp_bind, wp_assign, wp_ret. exact HQ.
Qed.

Lemma wp_stops {A} (m : M A) E w :
  wp m (fun _ _ => False) E w -> exists e w', m w = Stop e w' /\ E e w'.
Proof. unfold wp. destruct (m w); [contradiction|eauto]. Qed.

(** [keys[read_index++ % keys.size()]] on a non-empty key list. *)
Lemma wp_next_read_key p r (Q : string -> World -> Prop) E u :
  regions u !! p = Some r ->
  keys r <> [] ->
  0 <= read_index r < 2 ^ 64 ->
  (forall k,
     keys r !! Z.to_nat (read_index r mod Z.of_nat (length (keys r))) = Some k ->
     Q k (with_regions u (<[p := stepped r 1]> (regions u)))) ->
  wp (next_read_key env p) Q E u.
Proof.
  intros Hp Hne Hri HQ. unfold next_read_key.
  apply wp_bind, (wp_deref p r); [assumption|].
  apply wp_bind, (wp_read_index_post_inc p r); [assumption|].
  rewrite to_size_t_id by assumption.
  assert (Hlen : 0 < Z.of_nat (length (keys r)))
    by (destruct (keys r); [contradiction|simpl; lia]).
  apply wp_bind, wp_rem; [lia|]. intros _.
  apply wp_at_index.
  pose proof (Z.mod_pos_bound (read_index r) _ Hlen) as Hb.
  destruct (keys r !! Z.to_nat (read_index r mod Z.of_nat (length (keys r))))
    as [k|] eqn:Hk; [now apply HQ|].
  apply lookup_ge_None in Hk. lia.
Qed.

(** The single-key path of [ReadSeqOperation::Execute]: one [Get] of the
    key under the cursor, and the cursor advanced by one. *)
Lemma ReadSeq_single_reads_cursor_key p r u :
  regions u !! p = Some r ->
  keys r <> [] ->
  0 <= read_index r < 2 ^ 64 ->
  FLAGS_batch_size flags <= 1 ->
  wp (ReadSeqOperation_Execute flags env p)
     (fun _ u' =>
        exists k,
          keys r !! Z.to_nat (read_index r mod Z.of_nat (length (keys r)))
            = Some k /\
          trace u' = trace u ++ [RawKV_Get k] /\
          regions u' = <[p := stepped r 1]> (regions u))
     never u.
Proof.
  intros Hp Hne Hri Hb. unfold ReadSeqOperation_Execute.
  apply wp_bind, (wp_deref p r); [assumption|].
  destruct (Z.leb_spec (FLAGS_batch_size flags) 1); [|lia].
  apply wp_bind, wp_took, wp_bind.
  apply (wp_next_read_key p r); [assumption..|]. intros k Hk.
  unfold KvGet. apply wp_bind, wp_call, wp_ret. exists k. auto.
Qed.

(** [m] sequential reads in a row, from a cursor at zero: the keys are
    read in the order of the key list, round and round. *)
Lemma ReadSeq_single_cycles p r w m :
  regions w !! p = Some r ->
  keys r <> [] ->
  read_index r = 0 ->
  FLAGS_batch_size flags <= 1 ->
  0 <= read_index_bits env <= 64 ->
  Z.of_nat m <= 2 ^ read_index_bits env ->
  wp (repeat_body m
        (fun _ : unit => ReadSeqOperation_Execute flags env p ;;; ret tt) tt)
     (fun _ u =>
        trace u = trace w ++
          List.map (fun j => RawKV_Get (nth (j mod length (keys r)) (keys r) ""))
            (seq 0 m))
     never w.
Proof.
  intros Hp Hne Hri Hb Hbits Hm.
  assert (H64 : 2 ^ read_index_bits env <= 2 ^ 64)
    by (apply Z.pow_le_mono_r; lia).
  eapply wp_mono;
    [apply (wp_repeat_body
              (fun j (_ : unit) u =>
                 trace u = trace w ++
                   List.map (fun j => RawKV_Get
                               (nth (j mod length (keys r)) (keys r) ""))
                     (seq 0 j) /\
                 regions u = <[p := stepped r (Z.of_nat j)]> (regions w))
              never)| |auto].
  - intros j [] u Hj [Ht Hr].
    assert (Hcur : read_index (stepped r (Z.of_nat j)) = Z.of_nat j).
    { simpl. rewrite Hri. apply Z.mod_small. lia. }
    apply wp_bind.
    eapply wp_mono;
      [apply (ReadSeq_single_reads_cursor_key p (stepped r (Z.of_nat j)));
       [rewrite Hr; apply lookup_insert_eq|assumption|lia|assumption]| |auto].
    intros res u' (k & Hk & Ht' & Hr'). apply wp_ret.
    rewrite Hcur in Hk. simpl in Hk.
    rewrite <- Nat2Z.inj_mod, Nat2Z.id in Hk.
    split.
    + rewrite Ht', Ht, seq_S, List.map_app, <- app_assoc. simpl.
      now rewrite (nth_lookup_Some _ _ _ _ Hk).
    + rewrite Hr', Hr, insert_insert_eq, stepped_stepped.
      do 2 f_equal. lia.
  - split; [now rewrite app_nil_r|].
    symmetry. apply insert_id. rewrite Hp. f_equal.
    destruct r as [pre c ks ri]. unfold stepped. simpl in *. subst ri.
    reflexivity.
  - intros [] u [Ht _]. exact Ht.
Qed.

(** The loop of the batched path of [TxnReadSeqOperation::Execute],
    which fills [batch_keys] and leaves [keys] to the key list: every
    iteration takes the key under the cursor and advances the cursor by
    one. *)
Lemma TxnReadSeq_loop_reads_cursor_keys p r u batch_size :
  regions u !! p = Some r ->
  keys r <> [] ->
  0 <= read_index r < 2 ^ read_index_bits env ->
  read_index r + batch_size <= 2 ^ read_index_bits env ->
  0 <= read_index_bits env <= 64 ->
  0 <= batch_size <= INT_MAX ->
  wp (for_int batch_size
        (fun batch_keys : list string =>
           key <- next_read_key env p ;; ret (batch_keys ++ [key])) [])
     (fun batch_keys u' =>
        batch_keys =
          List.map
            (fun j => nth (Z.to_nat ((read_index r + Z.of_nat j)
                                       mod Z.of_nat (length (keys r))))
                        (keys r) "")
            (seq 0 (Z.to_nat batch_size)) /\
        regions u' = <[p := stepped r batch_size]> (regions u) /\
        trace u' = trace u)
     never u.
Proof.
  intros Hp Hne Hri Hend Hbits Hb.
  assert (H64 : 2 ^ read_index_bits env <= 2 ^ 64)
    by (apply Z.pow_le_mono_r; lia).
  eapply wp_mono;
    [apply (wp_for_int
              (fun i (batch_keys : list string) u' =>
                 batch_keys =
                   List.map
                     (fun j => nth (Z.to_nat ((read_index r + Z.of_nat j)
                                                mod Z.of_nat (length (keys r))))
                                 (keys r) "")
                     (seq 0 i) /\
                 regions u' = <[p := stepped r (Z.of_nat i)]> (regions u) /\
                 trace u' = trace u)
              never); [assumption| |]| |auto].
  - intros i ks u' Hi (Hks & Hr & Ht).
    assert (Hcur : read_index (stepped r (Z.of_nat i))
                   = read_index r + Z.of_nat i).
    { simpl. apply Z.mod_small. lia. }
    apply wp_bind, (wp_next_read_key p (stepped r (Z.of_nat i)));
      [rewrite Hr; apply lookup_insert_eq|assumption|lia|].
    intros k Hk. apply wp_ret. rewrite Hcur in Hk. simpl in Hk.
    split; [|split; [|assumption]].
    + rewrite Hks, seq_S, List.map_app. simpl.
      now rewrite (nth_lookup_Some _ _ _ _ Hk).
    + simpl. rewrite Hr, insert_insert_eq, stepped_stepped.
      do 2 f_equal. lia.
  - split; [reflexivity|]. split; [|reflexivity].
    symmetry. apply insert_id. rewrite Hp. f_equal.
    destruct r as [pre c ks ri]. unfold stepped. simpl in *.
    f_equal. rewrite Z.add_0_r. now rewrite Z.mod_small.
  - intros ks u' (Hks & Hr & Ht). rewrite Z2Nat.id in Hr by lia. auto.
Qed.

(** C3 (the batched path of [ReadSeqOperation::Execute]).  With a batch
    size above one the first iteration divides the cursor by the size of
    the local, still empty vector [keys] that hides the key list: the run
    stops in undefined behaviour before any key is read from the key list
    and before any call to the SDK, whatever the key list holds. *)
Theorem ReadSeq_batched_divides_by_zero (region_entry : RegionEntryPtr)
    (r : RegionEntry) (w : World) :
  regions w !! region_entry = Some r ->
  1 < FLAGS_batch_size flags ->
  exists w', ReadSeqOperation_Execute flags env region_entry w
             = Stop Undefined w' /\
             trace w' = trace w.
Proof.
  intros Hp Hb.
  enough (H : exists e w',
             ReadSeqOperation_Execute flags env region_entry w = Stop e w' /\
             (e = Undefined /\ trace w' = trace w)).
  { destruct H as (e & w' & Hrun & -> & Ht). eauto. }
  apply wp_stops. unfold ReadSeqOperation_Execute.
  apply wp_bind, (wp_deref _ r); [assumption|].
  destruct (Z.leb_spec (FLAGS_batch_size flags) 1); [lia|].
  apply wp_bind, wp_took, wp_bind. unfold for_int. apply wp_bind.
  destruct (Z.to_nat (Z.min (FLAGS_batch_size flags) (INT_MAX + 1)))
    as [|n] eqn:Hn; [unfold INT_MAX in Hn; lia|].
  cbn [repeat_body]. apply wp_bind, wp_bind.
  apply (wp_read_index_post_inc _ r); [assumption|].
  apply wp_bind, wp_rem; [|simpl; lia].
  intros _. split; reflexivity.
Qed.

End ReadFacts.

(** ** The scenario: prefix ["P"], 1000 keys of size 8 *)
Section ScenarioFacts.
Import Int Benchmark.

Variable flags : Flags.
Variable env : Env.

(** The key of iteration [j] when the counter started at [c]. *)
Definition scenario_key (c : Z) (j : nat) : string :=
  "wP" +:+ zero_padded (c + Z.of_nat j) 7.

Lemma seq_key_scenario r j :
  prefix r = "P" -> FLAGS_key_size flags = 8 ->
  0 <= counter r -> counter r + 1000 <= 2 ^ 31 ->
  counter r + 1000 <= 2 ^ counter_bits env ->
  (j < 1000)%nat ->
  seq_key flags env r j = scenario_key (counter r) j.
Proof.
  intros Hpre Hks Hc0 Hc31 Hcb Hj.
  unfold seq_key, scenario_key, random_str_len_of. rewrite Hpre, Hks.
  rewrite (Z.mod_small (counter r + Z.of_nat j)) by lia.
  rewrite to_size_t_id, to_int_id by lia.
  reflexivity.
Qed.

Lemma scenario_key_inj c : 0 <= c -> Injective (scenario_key c).
Proof.
  intros Hc i j H. unfold scenario_key in H.
  apply append_inj_r, zero_padded_inj in H; lia.
Qed.

(** C5, as the code has it.  After a successful [Arrange] of a fresh
    region entry with the prefix ["P"], 1000 keys to arrange and key size
    8: the key list has exactly 1000 keys; every key starts with ["wP"],
    the raw-key marker ["w"] followed by the prefix; the keys are
    pairwise distinct and in the order of the counter; and sequential
    reads on the single-key path read them in this order, the read after
    key 1000 reading key 1 again. *)
Theorem Arrange_1000_keys_then_cycle (region_entry : RegionEntryPtr)
    (r : RegionEntry) (w w' : World) :
  regions w !! region_entry = Some r ->
  prefix r = "P" -> keys r = [] -> read_index r = 0 ->
  FLAGS_key_size flags = 8 -> FLAGS_arrange_kv_num flags = 1000 ->
  0 <= counter r -> counter r + 1000 <= 2 ^ 31 ->
  counter r + 1000 <= 2 ^ counter_bits env ->
  ReadOperation_Arrange flags env region_entry w = Ret true w' ->
  exists r',
    regions w' !! region_entry = Some r' /\
    keys r' = List.map (scenario_key (counter r)) (seq 0 1000) /\
    length (keys r') = 1000%nat /\
    (forall k, k ∈ keys r' -> String.prefix "wP" k = true) /\
    NoDup (keys r') /\
    (FLAGS_batch_size flags <= 1 ->
     0 <= read_index_bits env <= 64 ->
     forall m : nat, Z.of_nat m <= 2 ^ read_index_bits env ->
       wp (repeat_body m
             (fun _ : unit =>
                ReadSeqOperation_Execute flags env region_entry ;;; ret tt) tt)
          (fun _ u =>
             trace u = trace w' ++
               List.map (fun j => RawKV_Get (nth (j mod 1000) (keys r') ""))
                 (seq 0 m))
          never w').
Proof.
  intros Hp Hpre Hkeys Hri Hks Hn Hc0 Hc31 Hcb Hrun.
  assert (Hlen : random_str_len_of flags (prefix r) = 7).
  { unfold random_str_len_of. now rewrite Hpre, Hks. }
  pose proof (ReadOperation_Arrange_arranged flags env region_entry r w Hp)
    as Harr.
  unfold wp in Harr. rewrite Hrun in Harr.
  destruct Harr as (log & i & _ & Hr' & _ & _ & _ & -> & _);
    [lia|lia|rewrite Hn; unfold is_uint32, UINT32_MAX; lia|].
  rewrite Hn in Hr'. change (Z.to_nat 1000) with 1000%nat in Hr'.
  assert (Hks' : keys (grown flags env r 1000)
                 = List.map (scenario_key (counter r)) (seq 0 1000)).
  { unfold grown. cbn [keys]. rewrite Hkeys. cbn [app].
    apply map_ext_in. intros j Hj. apply in_seq in Hj.
    apply seq_key_scenario; try assumption; lia. }
  assert (Hlen' : length (keys (grown flags env r 1000)) = 1000%nat).
  { rewrite Hks'. now rewrite length_map, length_seq. }
  exists (grown flags env r 1000).
  split; [rewrite Hr'; apply lookup_insert_eq|].
  split; [assumption|]. split; [assumption|].
  split; [|split].
  - intros k Hk. rewrite Hks' in Hk.
    apply list_elem_of_In, in_map_iff in Hk as (j & <- & _).
    apply prefix_append.
  - rewrite Hks'. apply NoDup_ListNoDup.
    apply Injective_map_NoDup; [now apply scenario_key_inj|].
    apply seq_NoDup.
  - intros Hb Hbits m Hm.
    eapply wp_mono;
      [apply (ReadSeq_single_cycles flags env region_entry
                (grown flags env r 1000));
       [rewrite Hr'; apply lookup_insert_eq| |assumption..]| |auto].
    + intros Hnil. rewrite Hnil in Hlen'. discriminate.
    + intros [] u Ht. cbv beta in Ht. now rewrite Hlen' in Ht.
Qed.

End ScenarioFacts.

(** The scenario and the batched sequential read, run. *)
Section ScenarioExamples.
Import Int Benchmark.

Definition arranged_1000 : Outcome bool :=
  ReadOperation_Arrange (arrange_flags 1000) accepting 0%nat one_shard.

(** The keys of the scenario do not start with ["P"]: the first one is
    ["wP0000000"]. *)
Lemma Arrange_keys_start_with_w :
  (exists w', arranged_1000 = Ret true w') /\
  length <$> keys_after arranged_1000 = Some 1000%nat /\
  head <$> keys_after arranged_1000 = Some (Some "wP0000000") /\
  forallb (String.prefix "P") <$> keys_after arranged_1000 = Some false.
Proof.
  split; [eexists; vm_compute; reflexivity|].
  repeat split; vm_compute; reflexivity.
Qed.

Lemma Arrange_1000_keys_then_cycle_witness :
  exists r',
    regions (final_world arranged_1000) !! 0%nat = Some r' /\
    keys r' = List.map (scenario_key 0) (seq 0 1000) /\
    length (keys r') = 1000%nat /\
    (forall k, k ∈ keys r' -> String.prefix "wP" k = true) /\
    NoDup (keys r') /\
    (FLAGS_batch_size (arrange_flags 1000) <= 1 ->
     0 <= read_index_bits accepting <= 64 ->
     forall m : nat, Z.of_nat m <= 2 ^ read_index_bits accepting ->
       wp (repeat_body m
             (fun _ : unit =>
                ReadSeqOperation_Execute (arrange_flags 1000) accepting 0%nat
                  ;;; ret tt) tt)
          (fun _ u =>
             trace u = trace (final_world arranged_1000) ++
               List.map (fun j => RawKV_Get (nth (j mod 1000) (keys r') ""))
                 (seq 0 m))
          never (final_world arranged_1000)).
Proof.
  assert (H1 : regions one_shard !! 0%nat = Some shard_P)
    by (vm_compute; reflexivity).
  assert (H2 : counter shard_P + 1000 <= 2 ^ 31)
    by (vm_compute; discriminate).
  assert (H3 : counter shard_P + 1000 <= 2 ^ counter_bits accepting)
    by (vm_compute; discriminate).
  assert (H4 : arranged_1000 = Ret true (final_world arranged_1000))
    by (vm_compute; reflexivity).
  exact (Arrange_1000_keys_then_cycle (arrange_flags 1000) accepting 0%nat
           shard_P one_shard (final_world arranged_1000)
           H1 eq_refl eq_refl eq_refl eq_refl eq_refl (Z.le_refl 0) H2 H3 H4).
Defined.

(** Three keys arranged, then read with a batch size of two. *)
Definition three_keys : World :=
  final_world
    (ReadOperation_Arrange (arrange_flags 3) accepting 0%nat one_shard).

Example ReadSeq_single_reads_first_key :
  trace (final_world (ReadSeqOperation_Execute (small_flags 1) accepting 0%nat
                        three_keys))
  = trace three_keys ++ [RawKV_Get "wP0000000"].
Proof. vm_compute. reflexivity. Qed.

Example ReadSeq_batched_stops :
  exists w', ReadSeqOperation_Execute (small_flags 2) accepting 0%nat three_keys
             = Stop Undefined w' /\ trace w' = trace three_keys.
Proof. eexists. split; vm_compute; reflexivity. Qed.

Example TxnReadSeq_batched_reads_two_keys :
  trace (final_world (TxnReadSeqOperation_Execute (small_flags 2) accepting
                        0%nat three_keys))
  = trace three_keys ++
    [ Client_NewTransaction
        {| kind := kOptimistic; isolation := kSnapshotIsolation |};
      Txn_BatchGet ["wP0000000"; "wP0000001"];
      Txn_PreCommit; Txn_Commit; Txn_delete ].
Proof. vm_compute. reflexivity. Qed.

Lemma ReadSeq_batched_divides_by_zero_witness :
  exists w', ReadSeqOperation_Execute (small_flags 2) accepting 0%nat three_keys
             = Stop Undefined w' /\ trace w' = trace three_keys.
Proof.
  assert (H : regions three_keys !! 0%nat
              = Some {| prefix := "P"; counter := 3;
                        keys := ["wP0000000"; "wP0000001"; "wP0000002"];
                        read_index := 0 |})
    by (vm_compute; reflexivity).
  assert (Hb : 1 < FLAGS_batch_size (small_flags 2)) by reflexivity.
  exact (ReadSeq_batched_divides_by_zero (small_flags 2) accepting 0%nat _
           three_keys H Hb).
Defined.

End ScenarioExamples.


(** ** The length of generated keys *)
Section KeyLengthFacts.
Import Int Benchmark.

Variable flags : Flags.
Variable env : Env.



(** The calls made by the run with outcome [o] from the world [w]. *)
Definition new_calls {A} (w : World) (o : Outcome A) : list SdkCall :=
  drop (length (trace w)) (trace (final_world o)).














Section OneRegion.

Variable region_entry : RegionEntryPtr.
Variable r : RegionEntry.
Variable w : World.

Hypothesis Hentry : regions w !! region_entry = Some r.
Hypothesis Hsize0 : 0 <= FLAGS_key_size flags.
Hypothesis Hsize4 : FLAGS_key_size flags + 4 <= UINT32_MAX.
Hypothesis Hprefix : size (prefix r) <= FLAGS_key_size flags.
Hypothesis Hint : FLAGS_key_size flags + 4 - size (prefix r) <= INT_MAX.





End OneRegion.














Section OneRegionWrites.

Variable region_entry : RegionEntryPtr.
Variable r : RegionEntry.
Variable w : World.

Hypothesis Hentry : regions w !! region_entry = Some r.
Hypothesis Hsize0 : 0 <= FLAGS_key_size flags.
Hypothesis Hprefix : size (prefix r) <= FLAGS_key_size flags.
Hypothesis Hint : FLAGS_key_size flags + 4 - size (prefix r) <= INT_MAX.
Hypothesis Hcounter : 0 <= counter r < 2 ^ counter_bits env.















End OneRegionWrites.


End KeyLengthFacts.

(** Missing reads, run. *)
Section KeyLengthExamples.
Import Int Benchmark.





End KeyLengthExamples.

(** ** The branch of Execute, read off the calls *)
Section CallKinds.
Import Int Benchmark.

Variable flags : Flags.
Variable env : Env.





Variable P : SdkCall -> Prop.


















End CallKinds.



Section BranchFacts.
Import Int Benchmark.

Variable flags : Flags.
Variable env : Env.


Section AnyKind.

Variable P : SdkCall -> Prop.

Hypothesis Hopen : forall options, P (Client_NewTransaction options).
Hypothesis Hpre : P Txn_PreCommit.
Hypothesis Hcommit : P Txn_Commit.
Hypothesis Hdelete : P Txn_delete.



End AnyKind.















End BranchFacts.


Section BranchChoice.
Import Int Benchmark.

Variable flags : Flags.
Variable env : Env.








Lemma returns_new_calls {A} (m : M A) w (calls : list SdkCall) :
  wp m (fun _ u => trace u = trace w ++ calls) never w ->
  new_calls w (m w) = calls.
Proof.
  intros H. apply wp_returns in H as (a & u & Hrun & Ht).
  unfold new_calls. rewrite Hrun. simpl. now rewrite Ht, drop_app_length.
Qed.




End BranchChoice.

(** The branches, run. *)
Section BranchExamples.
Import Int Benchmark.


Example FillSeq_batch_size_one_puts_one_key :
  new_calls three_keys
    (Execute (small_flags 1) accepting FillSeqOperation 0%nat three_keys)
  = [RawKV_Put "wP0000003" "ghij"].
Proof. vm_compute. reflexivity. Qed.


End BranchExamples.

(** ** The isolation-level flag *)
Section IsolationFacts.
Import Int Benchmark.

Ltac by_cases_on_char c :=
  destruct c as [[] [] [] [] [] [] [] []]; vm_compute;
  (split; [intros H; try discriminate H; auto
          |intros [H|H]; try discriminate H; reflexivity]).

Lemma toupper_S c : toupper c = "S"%char <-> c = "S"%char \/ c = "s"%char.
Proof. by_cases_on_char c. Qed.

Lemma toupper_I c : toupper c = "I"%char <-> c = "I"%char \/ c = "i"%char.
Proof. by_cases_on_char c. Qed.

Lemma toupper_R c : toupper c = "R"%char <-> c = "R"%char \/ c = "r"%char.
Proof. by_cases_on_char c. Qed.

Lemma toupper_C c : toupper c = "C"%char <-> c = "C"%char \/ c = "c"%char.
Proof. by_cases_on_char c. Qed.

Lemma ToUpper_two value a b :
  ToUpper value = String a (String b EmptyString) ->
  exists c1 c2, value = String c1 (String c2 EmptyString) /\
                toupper c1 = a /\ toupper c2 = b.
Proof.
  destruct value as [|c1 [|c2 [|c3 rest]]]; simpl; intros [= H1 H2].
  eauto.
Qed.

Definition accepted_levels : list string :=
  ["si"; "sI"; "Si"; "SI"; "rc"; "rC"; "Rc"; "RC"].

Lemma validator_accepts value :
  txn_isolation_level_validator value = true <-> In value accepted_levels.
Proof.
  unfold txn_isolation_level_validator. split.
  - intros H. apply orb_true_iff in H as [H|H]; apply String.eqb_eq in H;
      apply ToUpper_two in H as (c1 & c2 & -> & H1 & H2).
    + apply toupper_S in H1 as [-> | ->]; apply toupper_I in H2 as [-> | ->];
        simpl; auto.
    + apply toupper_R in H1 as [-> | ->]; apply toupper_C in H2 as [-> | ->];
        simpl; auto 10.
  - intros H. simpl in H.
    repeat (destruct H as [<-|H]; [reflexivity|]). contradiction.
Qed.

(** C8.  The validator of [txn_isolation_level] accepts exactly the
    eight spellings of "si" and "rc" in either case, by comparing the
    upper-cased value with "SI" and "RC"; an accepted value selects
    snapshot isolation or read committed; and with any other value
    [GetTxnIsolationLevel] and with it every transactional operation
    stops fatally before [NewTransaction] is called. *)
Theorem txn_isolation_level_accepts_si_rc (value : string) :
  (txn_isolation_level_validator value = true <-> In value accepted_levels) /\
  (forall flags w,
     FLAGS_txn_isolation_level flags = value ->
     txn_isolation_level_validator value = true ->
     GetTxnIsolationLevel flags w =
       Ret (if String.eqb (ToUpper value) "SI"
            then kSnapshotIsolation else kReadCommitted) w) /\
  (forall flags env w,
     FLAGS_txn_isolation_level flags = value ->
     txn_isolation_level_validator value = false ->
     GetTxnIsolationLevel flags w = Stop Fatal w /\
     (forall kvs, KvTxnPut flags env kvs w = Stop Fatal w) /\
     (forall kvs, KvTxnBatchPut flags env kvs w = Stop Fatal w) /\
     (forall ks, KvTxnGet flags env ks w = Stop Fatal w) /\
     (forall kss, KvTxnBatchGet flags env kss w = Stop Fatal w)).
Proof.
  split; [apply validator_accepts|]. split.
  - intros flags w <- Hv.
    unfold txn_isolation_level_validator in Hv.
    unfold GetTxnIsolationLevel.
    destruct (String.eqb (ToUpper _) "SI"); [reflexivity|].
    simpl in Hv. now rewrite Hv.
  - intros flags env w <- Hv.
    assert (Ht : forall steps, transaction flags env steps w = Stop Fatal w).
    { intros steps. unfold transaction.
      now rewrite (bind_Stop _ _ _ _ _ (transaction_options_invalid flags w Hv)). }
    split.
    + unfold txn_isolation_level_validator in Hv.
      apply orb_false_iff in Hv as [H1 H2].
      unfold GetTxnIsolationLevel. now rewrite H1, H2.
    + repeat split; intros; unfold KvTxnPut, KvTxnBatchPut, KvTxnGet,
        KvTxnBatchGet; now rewrite (bind_Stop _ _ _ _ _ (Ht _)).
Qed.

Lemma txn_isolation_level_accepts_si_rc_witness :
  txn_isolation_level_validator "Si" = true.
Proof.
  assert (H : In "Si" accepted_levels) by (simpl; auto).
  exact (proj2 (proj1 (txn_isolation_level_accepts_si_rc "Si")) H).
Defined.

Example validator_rejects_serializable :
  txn_isolation_level_validator "serializable" = false.
Proof. reflexivity. Qed.

End IsolationFacts.

(** ** The response check of the vector index cache *)
Section CacheFacts.
Import VectorIndexCache.

Variable IndexDefinitionWithId : Type.
Variable VectorIndex : Type.
Variable CheckIndexDefinitionWithId : IndexDefinitionWithId -> bool.
Variable index_of_definition : IndexDefinitionWithId -> Z * VectorIndex.

(** C9.  [CheckIndexResponse] returns true exactly for a response that
    carries an index definition with id which passes
    [CheckIndexDefinitionWithId]; for every other response it returns
    false and logs the response, and it logs nothing otherwise.  On the
    slow lookup path a response that fails the check makes the lookup
    fail, with no index returned and the cache as it was; a lookup that
    succeeds had a response that passed the check. *)
Theorem CheckIndexResponse_guards_the_cache
    (response : VectorIndexResponse IndexDefinitionWithId) :
  let check := CheckIndexResponse IndexDefinitionWithId
                 CheckIndexDefinitionWithId in
  let slow_get := SlowGetVectorIndexByKey IndexDefinitionWithId VectorIndex
                    CheckIndexDefinitionWithId index_of_definition in
  (fst (check response) = true <->
   exists definition,
     index_definition_with_id _ response = Some definition /\
     CheckIndexDefinitionWithId definition = true) /\
  (fst (check response) = false ->
   snd (check response) =
     [Warning ("Fail checked, response:" +:+ DebugString _ response)]) /\
  (fst (check response) = true -> snd (check response) = []) /\
  (forall remote index_key cache,
     remote index_key = Some response ->
     fst (check response) = false ->
     slow_get remote index_key cache =
       (LookupFailed, None, cache, snd (check response))) /\
  (forall remote index_key cache index cache' log,
     remote index_key = Some response ->
     slow_get remote index_key cache = (LookupOK, Some index, cache', log) ->
     fst (check response) = true).
Proof.
  intros check slow_get. subst check slow_get.
  assert (Hslow : forall remote index_key cache,
            remote index_key = Some response ->
            fst (CheckIndexResponse IndexDefinitionWithId
                   CheckIndexDefinitionWithId response) = false ->
            SlowGetVectorIndexByKey IndexDefinitionWithId VectorIndex
              CheckIndexDefinitionWithId index_of_definition
              remote index_key cache =
              (LookupFailed, None, cache,
               snd (CheckIndexResponse IndexDefinitionWithId
                      CheckIndexDefinitionWithId response))).
  { intros remote index_key cache Hr Hc. unfold SlowGetVectorIndexByKey.
    rewrite Hr.
    destruct (CheckIndexResponse IndexDefinitionWithId
                CheckIndexDefinitionWithId response) as [checked log].
    simpl in Hc. subst checked. reflexivity. }
  split; [|split; [|split; [|split]]].
  - unfold CheckIndexResponse.
    destruct (index_definition_with_id _ response) as [definition|].
    + destruct (CheckIndexDefinitionWithId definition) eqn:Hcheck; simpl.
      * split; eauto.
      * split; [discriminate|]. intros (d & [= <-] & Hd). congruence.
    + simpl. split; [discriminate|]. intros (d & Hd & _). discriminate.
  - unfold CheckIndexResponse.
    destruct (match index_definition_with_id _ response with
              | Some definition => CheckIndexDefinitionWithId definition
              | None => false
              end); simpl; [discriminate|reflexivity].
  - unfold CheckIndexResponse.
    destruct (match index_definition_with_id _ response with
              | Some definition => CheckIndexDefinitionWithId definition
              | None => false
              end); simpl; [reflexivity|discriminate].
  - exact Hslow.
  - intros remote index_key cache index cache' log Hr Hget.
    destruct (fst (CheckIndexResponse IndexDefinitionWithId
                     CheckIndexDefinitionWithId response)) eqn:Hc;
      [reflexivity|].
    rewrite (Hslow remote index_key cache Hr eq_refl) in Hget. discriminate.
Qed.

End CacheFacts.

(** The check, run on a response without definition. *)
Section CacheExamples.
Import VectorIndexCache.

Definition empty_response : VectorIndexResponse Z :=
  {| index_definition_with_id := None; DebugString := "{}" |}.

Definition positive_id (definition : Z) : bool := 0 <? definition.

Example CheckIndexResponse_logs_empty_response :
  CheckIndexResponse Z positive_id empty_response
  = (false, [Warning "Fail checked, response:{}"]).
Proof. reflexivity. Qed.

Lemma CheckIndexResponse_guards_the_cache_witness :
  snd (CheckIndexResponse Z positive_id empty_response)
  = [Warning ("Fail checked, response:" +:+ DebugString Z empty_response)].
Proof.
  exact (proj1 (proj2 (CheckIndexResponse_guards_the_cache Z unit positive_id
                         (fun definition => (definition, tt))
                         empty_response)) eq_refl).
Defined.

End CacheExamples.

(** * Further properties *)

(** ** The leader pointer under arbitrary callers *)
Section LeaderInvariant.
Import Int Coordinator.

(** Whatever indices the callers pass and whichever compare-exchanges
    fail, the pointer stays an index of the endpoint list; and calls that
    pass an index outside the list never move it. *)
Theorem leader_index_stays_valid (calls : list Call)
    (c : CoordinatorInteraction) :
  valid c ->
  Forall (fun call => fst call <> INT_MAX) calls ->
  exists c',
    run calls c = Some c' /\
    valid c' /\
    endpoints_ c' = endpoints_ c /\
    (rotations calls c <= length calls)%nat /\
    (Forall (fun call => ~ 0 <= fst call < size c) calls ->
     leader_index_ c' = leader_index_ c).
Proof.
  intros Hv Hcalls. revert c Hv.
  induction Hcalls as [|[j b] calls Hj _ IH]; intros c Hv; simpl.
  - exists c. repeat split; auto; apply Hv.
  - simpl in Hj.
    destruct (NextLeader_cases b j c Hv Hj) as (c1 & Heq & Hep & Hcase).
    assert (Hv1 : valid c1) by (eapply NextLeader_valid; eauto).
    assert (Hsz : size c1 = size c) by (unfold size; now rewrite Hep).
    rewrite Heq.
    destruct (IH c1 Hv1) as (c' & Hrun & Hv' & Hep' & Hrot & Hout).
    exists c'. split; [assumption|]. split; [assumption|].
    split; [congruence|]. split.
    + destruct (_ =? _); simpl; lia.
    + intros Hall. apply Forall_cons in Hall as [Hj' Hall]. simpl in Hj'.
      rewrite Hout by (now rewrite Hsz).
      destruct Hcase as [[Hl _]|(_ & Hl & _)]; [assumption|].
      destruct Hv as [_ Hl']. rewrite Hl in Hl'. contradiction.
Qed.

Definition stray_calls : list Call := [(7, false); (2, true); (-1, false)].

Lemma leader_index_stays_valid_witness :
  exists c',
    run stray_calls three_endpoints = Some c' /\
    valid c' /\
    endpoints_ c' = endpoints_ three_endpoints /\
    (rotations stray_calls three_endpoints <= length stray_calls)%nat /\
    (Forall (fun call => ~ 0 <= fst call < size three_endpoints) stray_calls ->
     leader_index_ c' = leader_index_ three_endpoints).
Proof.
  assert (Hv : valid three_endpoints) by (vm_compute; intuition discriminate).
  assert (Hc : Forall (fun call : Call => fst call <> INT_MAX) stray_calls)
    by (repeat constructor; discriminate).
  exact (leader_index_stays_valid stray_calls three_endpoints Hv Hc).
Defined.

(** A caller that follows the leader: it reads the pointer and asks for
    the next one, [k] times, no compare-exchange failing. *)
Fixpoint rotate (k : nat) (c : CoordinatorInteraction)
  : option CoordinatorInteraction :=
  match k with
  | O => Some c
  | S k' =>
      match NextLeader false (GetLeader c) c with
      | Some c' => rotate k' c'
      | None => None
      end
  end.

Lemma set_leader_same c : set_leader c (leader_index_ c) = c.
Proof. now destruct c. Qed.

(** [k] rotations move the pointer [k] places round the endpoint list,
    so that as many rotations as there are endpoints try every endpoint
    once and come back to the first one. *)
Theorem rotate_goes_round (k : nat) (c : CoordinatorInteraction) :
  valid c ->
  rotate k c = Some (set_leader c ((leader_index_ c + Z.of_nat k) mod size c)) /\
  rotate (length (endpoints_ c)) c = Some c.
Proof.
  intros Hv.
  assert (H : forall k c, valid c ->
            rotate k c =
            Some (set_leader c ((leader_index_ c + Z.of_nat k) mod size c))).
  { clear. induction k as [|k IH]; intros c Hv.
    - simpl. rewrite Z.add_0_r, Z.mod_small by apply Hv.
      now rewrite set_leader_same.
    - cbn [rotate]. unfold GetLeader.
      assert (Hne : leader_index_ c <> INT_MAX) by (destruct Hv; lia).
      destruct (NextLeader_cases false (leader_index_ c) c Hv Hne)
        as (c1 & Heq & Hep & Hcase).
      assert (Hv1 : valid c1) by (eapply NextLeader_valid; eauto).
      assert (Hsz : size c1 = size c) by (unfold size; now rewrite Hep).
      rewrite Heq, (IH c1 Hv1), Hsz. f_equal. unfold set_leader.
      rewrite Hep. f_equal.
      destruct Hcase as [[_ [Hs|Hl]]|(_ & _ & Hl)];
        [discriminate|contradiction|].
      rewrite Hl, Zplus_mod_idemp_l. f_equal. lia. }
  split; [now apply H|].
  rewrite (H _ c Hv). fold (size c). f_equal.
  rewrite <- Zplus_mod_idemp_r, Z.mod_same, Z.add_0_r by (destruct Hv; lia).
  rewrite Z.mod_small by apply Hv. apply set_leader_same.
Qed.

Lemma rotate_goes_round_witness :
  rotate 2 three_endpoints
    = Some (set_leader three_endpoints
              ((leader_index_ three_endpoints + 2) mod size three_endpoints)) /\
  rotate 3 three_endpoints = Some three_endpoints.
Proof.
  assert (Hv : valid three_endpoints) by (vm_compute; intuition discriminate).
  exact (rotate_goes_round 2 three_endpoints Hv).
Defined.

End LeaderInvariant.

(** ** Initialising the channels *)
Section InitFacts.
Import Int Coordinator CoordinatorInit.

Variable StrToEndpoints : string -> list EndPoint.
Variable channel_Init : nat -> EndPoint -> Z.

Definition channel_of (endpoint : EndPoint) : Channel :=
  {| channel_endpoint := endpoint |}.

(** The first position at which a channel fails, if any. *)
Definition first_failure (k : nat) (endpoints : list EndPoint) (j : nat)
  : Prop :=
  (exists endpoint, endpoints !! j = Some endpoint /\
                    channel_Init (k + j) endpoint <> 0) /\
  forall i endpoint, (i < j)%nat -> endpoints !! i = Some endpoint ->
                     channel_Init (k + i) endpoint = 0.

Lemma init_channels_outcome k endpoints channels :
  let '(ok, channels') := init_channels channel_Init k endpoints channels in
  if ok
  then channels' = channels ++ List.map channel_of endpoints /\
       forall j endpoint, endpoints !! j = Some endpoint ->
                          channel_Init (k + j) endpoint = 0
  else exists j, first_failure k endpoints j /\
                 channels' = channels ++ List.map channel_of (take j endpoints).
Proof.
  revert k channels.
  induction endpoints as [|endpoint rest IH]; intros k channels; simpl.
  - split; [now rewrite app_nil_r|]. intros j e H. discriminate.
  - destruct (Z.eqb_spec (channel_Init k endpoint) 0) as [Hok|Hbad]; simpl.
    + specialize (IH (S k) (channels ++ [channel_of endpoint])).
      fold (channel_of endpoint).
      destruct (init_channels channel_Init (S k) rest _) as [[] channels'].
      * destruct IH as [-> Hall]. split; [now rewrite <- app_assoc|].
        intros [|j] e; simpl.
        -- intros [= <-]. now rewrite Nat.add_0_r.
        -- intros Hj. rewrite Nat.add_succ_r. now apply (Hall j).
      * destruct IH as (j & [(e & He & Hbad) Hbefore] & ->).
        exists (S j). split; [split|].
        -- exists e. split; [assumption|]. now rewrite Nat.add_succ_r.
        -- intros [|i] e' Hi; simpl.
           ++ intros [= <-]. now rewrite Nat.add_0_r.
           ++ intros He'. rewrite Nat.add_succ_r.
              apply (Hbefore i); [lia|assumption].
        -- simpl. now rewrite <- app_assoc.
    + exists 0%nat. split; [split|].
      * exists endpoint. split; [reflexivity|]. now rewrite Nat.add_0_r.
      * intros i e Hi. lia.
      * simpl. now rewrite app_nil_r.
Qed.

(** [Init]: the endpoint vector and the service type are replaced in
    every case and the leader index is kept.  It succeeds exactly when
    the address gives at least one endpoint and every channel
    initialises; the object then has one more channel per endpoint, in
    the order of the endpoints, so that a fresh object has as many
    channels as endpoints and [NextLeader] finds a non-empty vector.
    When a channel fails, the channels of the endpoints before it have
    been added all the same. *)
Theorem Init_makes_one_channel_per_endpoint (addr : string)
    (service_type : Z) (m : Members) :
  let endpoints := StrToEndpoints addr in
  let ok := fst (Init StrToEndpoints channel_Init addr service_type m) in
  let m' := snd (Init StrToEndpoints channel_Init addr service_type m) in
  endpoints_ m' = endpoints /\
  service_type_ m' = service_type /\
  leader_index_ m' = leader_index_ m /\
  (ok = true <->
   endpoints <> [] /\
   forall j endpoint, endpoints !! j = Some endpoint ->
                      channel_Init j endpoint = 0) /\
  (ok = true ->
   channels_ m' = channels_ m ++ List.map channel_of endpoints /\
   (channels_ m = [] ->
    length (channels_ m') = length (endpoints_ m') /\
    (1 <= length (endpoints_ m'))%nat /\
    (Z.of_nat (length endpoints) <= INT_MAX ->
     0 <= leader_index_ m < Z.of_nat (length endpoints) ->
     valid (interaction m')))) /\
  (ok = false -> endpoints <> [] ->
   exists j, first_failure 0 endpoints j /\
             channels_ m' = channels_ m ++ List.map channel_of (take j endpoints)).
Proof.
  intros endpoints ok m'. subst ok m'. unfold Init. fold endpoints.
  destruct endpoints as [|e rest] eqn:Heps.
  - simpl. repeat split; try discriminate; try tauto.
  - pose proof (init_channels_outcome 0 (e :: rest) (channels_ m)) as H.
    destruct (init_channels channel_Init 0 (e :: rest) (channels_ m))
      as [[] channels']; simpl.
    + destruct H as [-> Hall].
      split; [reflexivity|]. split; [reflexivity|]. split; [reflexivity|].
      split; [|split; [|discriminate]].
      * split; [|reflexivity]. intros _. split; [discriminate|exact Hall].
      * intros _. split; [reflexivity|]. intros Hnil. rewrite Hnil.
        cbn [app]. rewrite length_map.
        split; [reflexivity|]. split; [simpl; lia|].
        intros Hmax Hleader. unfold valid, size, interaction. simpl in *.
        lia.
    + destruct H as (j & Hfirst & ->).
      split; [reflexivity|]. split; [reflexivity|]. split; [reflexivity|].
      split; [|split; [discriminate|]].
      * split; [discriminate|]. intros [_ Hall].
        destruct Hfirst as [(e' & He' & Hbad) _].
        specialize (Hall j e' He'). simpl in Hbad. contradiction.
      * intros _ _. eauto.
Qed.

End InitFacts.

Section InitExamples.
Import Int Coordinator CoordinatorInit.

Definition two_endpoints : list EndPoint :=
  [ {| ip := 1; port := 22001 |}; {| ip := 2; port := 22001 |} ].

Definition fresh_members : Members :=
  {| service_type_ := 0; endpoints_ := []; channels_ := [];
     use_service_name_ := false; leader_index_ := 0 |}.

(** The second channel fails: the first one stays. *)
Example Init_keeps_the_channels_made :
  Init (fun _ => two_endpoints) (fun k _ => Z.of_nat k) "list://a,b" 0
    fresh_members
  = (false,
     {| service_type_ := 0; endpoints_ := two_endpoints;
        channels_ := [ {| channel_endpoint := {| ip := 1; port := 22001 |} |} ];
        use_service_name_ := false; leader_index_ := 0 |}).
Proof. reflexivity. Qed.

Lemma Init_makes_one_channel_per_endpoint_witness :
  length (channels_ (snd (Init (fun _ => two_endpoints) (fun _ _ => 0)
                            "list://a,b" 0 fresh_members)))
  = length (endpoints_ (snd (Init (fun _ => two_endpoints) (fun _ _ => 0)
                               "list://a,b" 0 fresh_members))).
Proof.
  exact (proj1 (proj2 (proj1 (proj2 (proj2 (proj2 (proj2
           (Init_makes_one_channel_per_endpoint (fun _ => two_endpoints)
              (fun _ _ => 0) "list://a,b" 0 fresh_members)))))
           eq_refl) eq_refl)).
Defined.

End InitExamples.

(** ** The generators *)
Section GeneratorFacts.
Import Int Benchmark.

Variable flags : Flags.
Variable env : Env.

Fixpoint chars (s : string) : list ascii :=
  match s with
  | EmptyString => []
  | String c s' => c :: chars s'
  end.

Lemma random_chars_alphabet n w :
  exists s w',
    random_chars env n w = Ret s w' /\
    String.length s = n /\
    Forall (fun c => In c kAlphabet) (chars s) /\
    draws w' = (draws w + n)%nat /\
    regions w' = regions w /\ trace w' = trace w /\ paths w' = paths w.
Proof.
  revert w. induction n as [|n IH]; intros w; cbn [random_chars].
  - exists EmptyString, w. repeat split; [constructor|lia].
  - unfold bind at 1, draw at 1.
    match goal with |- context [bind (random_chars env n) _ ?w0] =>
      destruct (IH w0) as (s & w' & Hrun & Hlen & Hall & Hd & Hr & Ht & Hp)
    end.
    unfold bind. rewrite Hrun. unfold ret.
    eexists _, w'. split; [reflexivity|]. cbn [String.length chars].
    simpl in Hd, Hr, Ht, Hp.
    repeat split; try assumption; try lia.
    constructor; [|assumption].
    apply nth_In. change (length kAlphabet) with 36%nat.
    pose proof (Z.mod_pos_bound (random_device env (draws w)) 36). lia.
Qed.

(** [GenRandomString] returns, for every length asked for and every
    stream of random numbers: a string of exactly [len] characters (none
    for a negative [len]), every one a lower-case letter or a digit of
    [kAlphabet], having drawn one random number per character and touched
    nothing else. *)
Theorem GenRandomString_alphanumeric (len : Z) (w : World) :
  exists s w',
    GenRandomString env len w = Ret s w' /\
    String.length s = Z.to_nat len /\
    (len < 0 -> s = EmptyString) /\
    Forall (fun c => In c kAlphabet) (chars s) /\
    draws w' = (draws w + Z.to_nat len)%nat /\
    regions w' = regions w /\ trace w' = trace w /\ paths w' = paths w.
Proof.
  unfold GenRandomString.
  destruct (random_chars_alphabet (Z.to_nat len) w)
    as (s & w' & Hrun & Hlen & Hall & Hrest).
  exists s, w'. split; [assumption|]. split; [assumption|].
  split; [|split; assumption].
  intros Hneg. rewrite Z2Nat.nonpos in Hlen by lia.
  now destruct s.
Qed.

(** [GenSeqString] on a non-negative number and a non-negative width
    returns the number's decimal digits padded with zeros to the width,
    longer only when the digits do not fit; two numbers give the same
    string only when they are equal; and a negative width throws. *)
Theorem GenSeqString_pads_and_separates (num len : Z) (w : World) :
  0 <= num ->
  (0 <= len ->
   exists s, GenSeqString num len w = Ret s w /\
     String.length s =
       Nat.max (Z.to_nat len) (String.length (decimal (Z.to_N num))) /\
     forall num' s', 0 <= num' ->
       GenSeqString num' len w = Ret s' w -> s' = s -> num' = num) /\
  (len < 0 -> GenSeqString num len w = Stop Thrown w).
Proof.
  intros Hnum. unfold GenSeqString, format_zero_padded. split.
  - intros Hlen. destruct (Z.ltb_spec len 0); [lia|].
    eexists. split; [reflexivity|]. split.
    + rewrite zero_padded_nonneg, length_append, zeros_length by assumption.
      lia.
    + intros num' s' Hnum' [= <-] Heq.
      now apply zero_padded_inj in Heq.
  - intros Hlen. destruct (Z.ltb_spec len 0); [reflexivity|lia].
Qed.

End GeneratorFacts.

Section GeneratorExamples.
Import Int Benchmark.

Example GenSeqString_pads :
  GenSeqString 42 7 one_shard = Ret "0000042" one_shard.
Proof. reflexivity. Qed.

Example GenSeqString_overflows_the_width :
  GenSeqString 12345 3 one_shard = Ret "12345" one_shard.
Proof. reflexivity. Qed.

Lemma GenSeqString_pads_and_separates_witness :
  exists s, GenSeqString 42 7 one_shard = Ret s one_shard /\
    String.length s =
      Nat.max (Z.to_nat 7) (String.length (decimal (Z.to_N 42))) /\
    forall num' s', 0 <= num' ->
      GenSeqString num' 7 one_shard = Ret s' one_shard -> s' = s -> num' = 42.
Proof.
  assert (H0 : 0 <= 42) by (vm_compute; discriminate).
  assert (H1 : 0 <= 7) by (vm_compute; discriminate).
  exact (proj1 (GenSeqString_pads_and_separates 42 7 one_shard H0) H1).
Defined.

End GeneratorExamples.

(** ** Sequential fills *)
Section FillFacts.
Import Int Benchmark.

Variable flags : Flags.
Variable env : Env.

Definition raw_put_call (kv : KVPair) : SdkCall :=
  RawKV_Put (key kv) (value kv).

(** One sequential [KvPut] on an entry that is [r] advanced [j] times. *)
Lemma wp_KvPut_sequential p r j (Q : Result -> World -> Prop) E u :
  regions u !! p = Some (advance env r (Z.of_nat j)) ->
  0 <= random_str_len_of flags (prefix r) ->
  (forall v u' res,
     trace u' = trace u ++ [RawKV_Put (seq_key flags env r j) v] ->
     regions u' = <[p := advance env r (Z.of_nat (S j))]> (regions u) ->
     paths u' = paths u ->
     Q res u') ->
  wp (KvPut flags env p false) Q E u.
Proof.
  intros Hp Hlen HQ. unfold KvPut.
  apply wp_bind, (wp_deref _ (advance env r (Z.of_nat j))); [assumption|].
  apply wp_bind,
    (wp_counter_fetch_add env _ (advance env r (Z.of_nat j))); [assumption|].
  apply wp_bind, wp_bind, wp_GenSeqString. cbn [prefix advance].
  unfold format_zero_padded.
  destruct (Z.ltb_spec (random_str_len_of flags (prefix r)) 0); [lia|].
  apply wp_ret, wp_bind, wp_GenRandomString. intros v u' _ Hr Ht Hpaths.
  apply wp_bind, wp_call, wp_ret. apply (HQ v).
  - simpl. rewrite Ht. reflexivity.
  - simpl. rewrite Hr. simpl. rewrite advance_advance.
    do 2 f_equal. lia.
  - simpl. rewrite Hpaths. reflexivity.
Qed.

Lemma seq_key_inj r (m : nat) :
  0 <= counter r ->
  counter r + Z.of_nat m <= 2 ^ 31 ->
  counter r + Z.of_nat m <= 2 ^ counter_bits env ->
  NoDup (List.map (seq_key flags env r) (seq 0 m)).
Proof.
  intros Hc0 Hc31 Hcb.
  pose (g := fun j : nat =>
               EncodeRawKey
                 (prefix r +:+
                  zero_padded (counter r + Z.of_nat j)
                    (random_str_len_of flags (prefix r)))).
  rewrite (map_ext_in _ g).
  - apply NoDup_ListNoDup, Injective_map_NoDup; [|apply seq_NoDup].
    intros i j H. unfold g, EncodeRawKey in H.
    apply append_inj_r, append_inj_r, zero_padded_inj in H; lia.
  - intros j Hj. apply in_seq in Hj. unfold seq_key, g.
    rewrite (Z.mod_small (counter r + Z.of_nat j)) by lia.
    rewrite to_size_t_id, to_int_id by lia. reflexivity.
Qed.

(** [m] sequential fills of one key each write [m] pairwise distinct
    keys, those of the counter values in their order, and leave the
    counter advanced by [m]: no key is written twice as long as the
    counter stays below 2^31 and does not wrap. *)
Theorem FillSeq_never_repeats_a_key (region_entry : RegionEntryPtr)
    (r : RegionEntry) (w : World) (m : nat) :
  regions w !! region_entry = Some r ->
  FLAGS_batch_size flags = 1 ->
  0 <= random_str_len_of flags (prefix r) ->
  0 <= counter r < 2 ^ counter_bits env ->
  counter r + Z.of_nat m <= 2 ^ 31 ->
  counter r + Z.of_nat m <= 2 ^ counter_bits env ->
  exists kvs u,
    repeat_body m
      (fun _ : unit => FillSeqOperation_Execute flags env region_entry ;;; ret tt)
      tt w = Ret tt u /\
    trace u = trace w ++ List.map raw_put_call kvs /\
    List.map key kvs = List.map (seq_key flags env r) (seq 0 m) /\
    NoDup (List.map key kvs) /\
    regions u = <[region_entry := advance env r (Z.of_nat m)]> (regions w).
Proof.
  intros Hp Hb Hlen Hc Hc31 Hcb.
  assert (Hwp :
    wp (repeat_body m
          (fun _ : unit =>
             FillSeqOperation_Execute flags env region_entry ;;; ret tt) tt)
       (fun _ u =>
          exists kvs,
            trace u = trace w ++ List.map raw_put_call kvs /\
            List.map key kvs = List.map (seq_key flags env r) (seq 0 m) /\
            regions u = <[region_entry := advance env r (Z.of_nat m)]> (regions w))
       never w).
  { apply (wp_repeat_body
             (fun j (_ : unit) u =>
                exists kvs,
                  trace u = trace w ++ List.map raw_put_call kvs /\
                  List.map key kvs = List.map (seq_key flags env r) (seq 0 j) /\
                  regions u
                    = <[region_entry := advance env r (Z.of_nat j)]> (regions w))
             never).
    - intros j [] u Hj (kvs & Ht & Hk & Hr).
      apply wp_bind. unfold FillSeqOperation_Execute. rewrite Hb.
      cbn [Z.eqb Pos.eqb]. apply wp_bind, wp_took.
      apply (wp_KvPut_sequential region_entry r j);
        [simpl; rewrite Hr; apply lookup_insert_eq|assumption|].
      intros v u' res Ht' Hr' _. apply wp_ret.
      exists (kvs ++ [{| key := seq_key flags env r j; value := v |}]).
      split; [|split].
      + rewrite Ht'. simpl. rewrite Ht, List.map_app, <- app_assoc.
        reflexivity.
      + rewrite List.map_app, Hk, seq_S, List.map_app. reflexivity.
      + rewrite Hr'. simpl. now rewrite Hr, insert_insert_eq.
    - exists []. split; [now rewrite app_nil_r|]. split; [reflexivity|].
      symmetry. apply insert_id. rewrite Hp. f_equal.
      destruct r as [pre c ks ri]. unfold advance. simpl in *.
      rewrite Z.add_0_r, Z.mod_small by assumption. reflexivity. }
  apply wp_returns in Hwp as ([] & u & Hrun & kvs & Ht & Hk & Hr).
  exists kvs, u. repeat split; try assumption.
  rewrite Hk. apply seq_key_inj; lia.
Qed.

End FillFacts.

Section FillExamples.
Import Int Benchmark.

Lemma FillSeq_never_repeats_a_key_witness :
  exists kvs u,
    repeat_body 3
      (fun _ : unit =>
         FillSeqOperation_Execute (small_flags 1) accepting 0%nat ;;; ret tt)
      tt one_shard = Ret tt u /\
    trace u = trace one_shard ++ List.map raw_put_call kvs /\
    List.map key kvs
      = List.map (seq_key (small_flags 1) accepting shard_P) (seq 0 3) /\
    NoDup (List.map key kvs) /\
    regions u = <[0%nat := advance accepting shard_P (Z.of_nat 3)]>
                  (regions one_shard).
Proof.
  assert (H1 : regions one_shard !! 0%nat = Some shard_P)
    by (vm_compute; reflexivity).
  assert (H2 : 0 <= random_str_len_of (small_flags 1) (prefix shard_P))
    by (vm_compute; discriminate).
  assert (H3 : 0 <= counter shard_P < 2 ^ counter_bits accepting)
    by (vm_compute; intuition discriminate).
  assert (H4 : counter shard_P + Z.of_nat 3 <= 2 ^ 31)
    by (vm_compute; discriminate).
  assert (H5 : counter shard_P + Z.of_nat 3 <= 2 ^ counter_bits accepting)
    by (vm_compute; discriminate).
  exact (FillSeq_never_repeats_a_key (small_flags 1) accepting 0%nat shard_P
           one_shard 3 H1 eq_refl H2 H3 H4 H5).
Defined.

End FillExamples.

(** ** Random reads *)
Section RandomReadFacts.
Import Int Benchmark.

Variable flags : Flags.
Variable env : Env.

(** The world after one number was taken from the random engine. *)
Definition drawn (w : World) : World :=
  {| regions := regions w; trace := trace w; draws := S (draws w);
     paths := paths w |}.

(** [keys[GenerateRealRandomInteger (0, UINT32_MAX) % keys.size()]]: an
    element of [keys], whatever the number; undefined on an empty one. *)
Lemma wp_random_read_key ks (Q : string -> World -> Prop) E u :
  (ks = [] -> E Undefined (drawn u)) ->
  (forall k, k ∈ ks -> Q k (drawn u)) ->
  wp (random_read_key env ks) Q E u.
Proof.
  intros HE HQ. unfold random_read_key, GenerateRealRandomInteger.
  apply wp_bind, wp_bind. unfold wp at 1, draw.
  apply wp_ret, wp_bind, wp_rem.
  - intros Hlen. apply HE. destruct ks; [reflexivity|discriminate].
  - intros Hlen. apply wp_at_index.
    set (index := to_size_t _ mod Z.of_nat (length ks)).
    assert (Hindex : 0 <= index < Z.of_nat (length ks))
      by (apply Z.mod_pos_bound; lia).
    assert (H32 : 0 <= to_uint32 index <= index).
    { unfold to_uint32. split; [apply Z.mod_pos_bound; lia|].
      apply Z.mod_le; lia. }
    destruct (ks !! Z.to_nat (to_uint32 index)) as [k|] eqn:Hk.
    + apply HQ. eapply list_elem_of_lookup_2. exact Hk.
    + apply lookup_ge_None in Hk. lia.
Qed.

(** The single-key path of [ReadRandomOperation::Execute] reads one key
    of the key list with one [Get] and changes no region entry: neither
    the read cursor nor the counter moves.  On an empty key list the
    remainder by its size is undefined, and nothing is asked of the SDK. *)
Theorem ReadRandom_single_reads_a_listed_key (region_entry : RegionEntryPtr)
    (r : RegionEntry) (w : World) :
  regions w !! region_entry = Some r ->
  FLAGS_batch_size flags <= 1 ->
  (keys r <> [] ->
   exists k res u,
     ReadRandomOperation_Execute flags env region_entry w = Ret res u /\
     k ∈ keys r /\
     trace u = trace w ++ [RawKV_Get k] /\
     status res = reply_status (sdk env (trace w) (RawKV_Get k)) /\
     regions u = regions w /\
     draws u = S (draws w)) /\
  (keys r = [] ->
   exists u,
     ReadRandomOperation_Execute flags env region_entry w = Stop Undefined u /\
     trace u = trace w).
Proof.
  intros Hp Hb. split; intros Hkeys.
  - enough (H : exists res u,
               ReadRandomOperation_Execute flags env region_entry w = Ret res u /\
               exists k, k ∈ keys r /\ trace u = trace w ++ [RawKV_Get k] /\
                 status res = reply_status (sdk env (trace w) (RawKV_Get k)) /\
                 regions u = regions w /\ draws u = S (draws w)).
    { destruct H as (res & u & Hrun & k & H). exists k, res, u. tauto. }
    apply wp_returns. unfold ReadRandomOperation_Execute.
    apply wp_bind, (wp_deref _ r); [assumption|].
    destruct (Z.leb_spec (FLAGS_batch_size flags) 1); [|lia].
    apply wp_bind, wp_took, wp_bind, wp_random_read_key; [contradiction|].
    intros k Hk. unfold KvGet. apply wp_bind, wp_call, wp_ret.
    exists k. simpl. auto.
  - enough (H : exists e u,
               ReadRandomOperation_Execute flags env region_entry w = Stop e u /\
               (e = Undefined /\ trace u = trace w)).
    { destruct H as (e & u & Hrun & -> & Ht). eauto. }
    apply wp_stops. unfold ReadRandomOperation_Execute.
    apply wp_bind, (wp_deref _ r); [assumption|].
    destruct (Z.leb_spec (FLAGS_batch_size flags) 1); [|lia].
    apply wp_bind, wp_took, wp_bind, wp_random_read_key.
    + intros _. split; reflexivity.
    + rewrite Hkeys. intros k Hk. inversion Hk.
Qed.

(** The batched path of [ReadRandomOperation::Execute] declares a local
    vector [keys] that hides the key list, as the one of
    [ReadSeqOperation::Execute] does: the first iteration takes a
    random number and divides it by the size of the empty vector.  The
    run stops in undefined behaviour before any call to the SDK,
    whatever the key list holds, and no region entry has changed. *)
Theorem ReadRandom_batched_divides_by_zero (region_entry : RegionEntryPtr)
    (r : RegionEntry) (w : World) :
  regions w !! region_entry = Some r ->
  1 < FLAGS_batch_size flags ->
  exists u,
    ReadRandomOperation_Execute flags env region_entry w = Stop Undefined u /\
    trace u = trace w /\ regions u = regions w /\ draws u = S (draws w).
Proof.
  intros Hp Hb.
  enough (H : exists e u,
             ReadRandomOperation_Execute flags env region_entry w = Stop e u /\
             (e = Undefined /\ trace u = trace w /\ regions u = regions w /\
              draws u = S (draws w))).
  { destruct H as (e & u & Hrun & -> & Ht). eauto. }
  apply wp_stops. unfold ReadRandomOperation_Execute.
  apply wp_bind, (wp_deref _ r); [assumption|].
  destruct (Z.leb_spec (FLAGS_batch_size flags) 1); [lia|].
  apply wp_bind, wp_took, wp_bind. unfold for_int. apply wp_bind.
  destruct (Z.to_nat (Z.min (FLAGS_batch_size flags) (INT_MAX + 1)))
    as [|n] eqn:Hn; [unfold INT_MAX in Hn; lia|].
  cbn [repeat_body]. apply wp_bind, wp_bind, wp_random_read_key.
  - intros _. repeat split.
  - intros k Hk. inversion Hk.
Qed.

End RandomReadFacts.

Section RandomReadExamples.
Import Int Benchmark.

(** The entry of [three_keys]. *)
Definition three_key_shard : RegionEntry :=
  {| prefix := "P"; counter := 3;
     keys := ["wP0000000"; "wP0000001"; "wP0000002"]; read_index := 0 |}.

Example ReadRandom_single_run :
  new_calls three_keys
    (ReadRandomOperation_Execute (small_flags 1) accepting 0%nat three_keys)
  = [RawKV_Get "wP0000000"].
Proof. vm_compute. reflexivity. Qed.

Lemma ReadRandom_single_reads_a_listed_key_witness :
  exists k res u,
    ReadRandomOperation_Execute (small_flags 1) accepting 0%nat three_keys
      = Ret res u /\
    k ∈ keys three_key_shard /\
    trace u = trace three_keys ++ [RawKV_Get k] /\
    status res = reply_status (sdk accepting (trace three_keys) (RawKV_Get k)) /\
    regions u = regions three_keys /\
    draws u = S (draws three_keys).
Proof.
  assert (H1 : regions three_keys !! 0%nat = Some three_key_shard)
    by (vm_compute; reflexivity).
  assert (H2 : FLAGS_batch_size (small_flags 1) <= 1)
    by (vm_compute; discriminate).
  assert (H3 : keys three_key_shard <> []) by (vm_compute; discriminate).
  exact (proj1 (ReadRandom_single_reads_a_listed_key (small_flags 1) accepting
                  0%nat three_key_shard three_keys H1 H2) H3).
Defined.

Lemma ReadRandom_batched_divides_by_zero_witness :
  exists u,
    ReadRandomOperation_Execute (small_flags 2) accepting 0%nat three_keys
      = Stop Undefined u /\
    trace u = trace three_keys /\ regions u = regions three_keys /\
    draws u = S (draws three_keys).
Proof.
  assert (H1 : regions three_keys !! 0%nat = Some three_key_shard)
    by (vm_compute; reflexivity).
  assert (H2 : 1 < FLAGS_batch_size (small_flags 2))
    by (vm_compute; reflexivity).
  exact (ReadRandom_batched_divides_by_zero (small_flags 2) accepting 0%nat
           three_key_shard three_keys H1 H2).
Defined.

End RandomReadExamples.

(** ** Transactions leave the region entries alone *)
Section TransactionFrame.
Import Int Benchmark.

Variable flags : Flags.
Variable env : Env.

Context {X : Type} (part : World -> X) `{!Untouched part}.

Lemma keeps_precommit_commit : keeps part (precommit_commit env).
Proof. unfold precommit_commit. frame. Qed.

Lemma keeps_txn_put_each kvs rest :
  keeps part rest -> keeps part (txn_put_each env kvs rest).
Proof. intros H. induction kvs; cbn [txn_put_each]; frame. Qed.

Lemma keeps_txn_get_each ks rest :
  keeps part rest -> keeps part (txn_get_each env ks rest).
Proof. intros H. induction ks; cbn [txn_get_each]; frame. Qed.

Lemma keeps_txn_batch_get_each ks rest :
  keeps part rest -> keeps part (txn_batch_get_each env ks rest).
Proof. intros H. induction ks; cbn [txn_batch_get_each]; frame. Qed.

Lemma keeps_transaction steps :
  keeps part steps -> keeps part (transaction flags env steps).
Proof.
  intros H. unfold transaction, transaction_options, GetTxnIsolationLevel.
  frame.
Qed.

Lemma keeps_KvTxnPut kvs : keeps part (KvTxnPut flags env kvs).
Proof.
  unfold KvTxnPut. apply keeps_bind; [|frame].
  apply keeps_transaction, keeps_txn_put_each, keeps_precommit_commit.
Qed.

Lemma keeps_KvTxnBatchPut kvs : keeps part (KvTxnBatchPut flags env kvs).
Proof.
  unfold KvTxnBatchPut. apply keeps_bind; [|frame].
  apply keeps_transaction.
  repeat first [apply keeps_precommit_commit | frame_step].
Qed.

Lemma keeps_KvTxnGet ks : keeps part (KvTxnGet flags env ks).
Proof.
  unfold KvTxnGet. apply keeps_bind; [|frame].
  apply keeps_transaction, keeps_txn_get_each, keeps_precommit_commit.
Qed.

Lemma keeps_KvTxnBatchGet ks : keeps part (KvTxnBatchGet flags env ks).
Proof.
  unfold KvTxnBatchGet. apply keeps_bind; [|frame].
  apply keeps_transaction, keeps_txn_batch_get_each, keeps_precommit_commit.
Qed.

End TransactionFrame.

(** ** The counters under the transactional fills *)
Section TxnFillFacts.
Import Int Benchmark.

Variable flags : Flags.
Variable env : Env.

(** From the entries [before] to the entries [after], the counter of
    every entry listed in [region_entries] went up by [n] for each time
    the entry is listed, and nothing else changed. *)
Definition counters_advanced (region_entries : list RegionEntryPtr) (n : Z)
    (before after : gmap nat RegionEntry) : Prop :=
  (forall p r, p ∈ region_entries -> before !! p = Some r ->
     after !! p =
     Some (advance env r
             (n * Z.of_nat (count_occ Nat.eq_dec region_entries p)))) /\
  (forall p, p ∉ region_entries -> after !! p = before !! p).

(** What the fills need of a listed entry: it is there, its counter is
    a value of its type, and for sequential keys the width left by the
    prefix is not negative. *)
Definition fillable (is_random : bool) (w : World) (p : RegionEntryPtr)
  : Prop :=
  exists r, regions w !! p = Some r /\
    0 <= counter r < 2 ^ counter_bits env /\
    (is_random = false -> 0 <= random_str_len_of flags (prefix r)).

Lemma advance_0 r : 0 <= counter r < 2 ^ counter_bits env -> advance env r 0 = r.
Proof.
  intros H. destruct r as [pre c ks ri]. unfold advance. simpl in *.
  rewrite Z.add_0_r, Z.mod_small by assumption. reflexivity.
Qed.

Lemma advance_in_range r n :
  0 < 2 ^ counter_bits env ->
  0 <= counter (advance env r n) < 2 ^ counter_bits env.
Proof. intros H. simpl. now apply Z.mod_pos_bound. Qed.

(** [txn_gen_kv] takes a counter value whether the key is random or
    not. *)
Lemma wp_txn_gen_kv p cur is_random (Q : KVPair -> World -> Prop) E u :
  regions u !! p = Some cur ->
  (is_random = false -> 0 <= random_str_len_of flags (prefix cur)) ->
  (forall kv u',
     regions u' = <[p := advance env cur 1]> (regions u) ->
     trace u' = trace u -> Q kv u') ->
  wp (txn_gen_kv flags env p is_random
        (random_str_len_of flags (prefix cur)) (prefix cur)) Q E u.
Proof.
  intros Hp Hlen HQ. unfold txn_gen_kv.
  apply wp_bind, (wp_counter_fetch_add env _ cur); [assumption|].
  apply wp_bind. destruct is_random.
  - apply wp_bind, wp_GenRandomString. intros s u1 _ Hr1 Ht1 _.
    apply wp_ret, wp_bind, wp_GenRandomString. intros v u2 _ Hr2 Ht2 _.
    apply wp_ret, HQ; simpl in *; congruence.
  - apply wp_bind, wp_GenSeqString. unfold format_zero_padded.
    destruct (Z.ltb_spec (random_str_len_of flags (prefix cur)) 0);
      [specialize (Hlen eq_refl); lia|].
    apply wp_ret, wp_bind, wp_GenRandomString. intros v u2 _ Hr2 Ht2 _.
    apply wp_ret, HQ; simpl in *; congruence.
Qed.

(** A loop over the listed entries whose body advances the counter of
    its entry by [n]. *)
Lemma entries_loop_counters {S} (n : Z) is_random
    (body : S -> RegionEntryPtr -> M S) ps s w :
  (forall p cur s u (Q : S -> World -> Prop),
     regions u !! p = Some cur ->
     0 <= counter cur < 2 ^ counter_bits env ->
     (is_random = false -> 0 <= random_str_len_of flags (prefix cur)) ->
     (forall s' u', regions u' = <[p := advance env cur n]> (regions u) ->
                    Q s' u') ->
     wp (body s p) Q never u) ->
  Forall (fillable is_random w) ps ->
  wp (for_each ps body s)
     (fun _ u => counters_advanced ps n (regions w) (regions u)) never w.
Proof.
  intros Hbody Hps.
  assert (Hlive : forall p, p ∈ ps -> fillable is_random w p)
    by (now apply Forall_forall).
  eapply wp_mono;
    [apply (wp_for_each
              (fun done (_ : S) u =>
                 counters_advanced ps 0 (regions w) (regions w) /\
                 (forall p r, p ∈ ps -> regions w !! p = Some r ->
                    regions u !! p =
                    Some (advance env r
                            (n * Z.of_nat (count_occ Nat.eq_dec done p)))) /\
                 (forall p, p ∉ ps -> regions u !! p = regions w !! p))
              never)| |auto].
  - intros done x s0 u Hpre (H0 & Hin & Hout).
    assert (Hx : x ∈ ps).
    { destruct Hpre as [rest ->]. rewrite !elem_of_app.
      left. right. now apply list_elem_of_singleton. }
    destruct (Hlive x Hx) as (r & Hr & Hc & Hlen).
    assert (Hpos : 0 < 2 ^ counter_bits env) by lia.
    apply (Hbody x _ s0 u _ (Hin x r Hx Hr));
      [now apply advance_in_range|exact Hlen|].
    intros s' u' Hu'. split; [assumption|]. split.
    + intros p r' Hp Hr'. rewrite Hu'. destruct (decide (p = x)) as [Heq|Hne].
      * subst p. rewrite lookup_insert_eq.
        pose proof (eq_trans (eq_sym Hr) Hr') as Hsame.
        injection Hsame as <-.
        rewrite advance_advance, count_occ_app. do 2 f_equal.
        cbn [count_occ]. destruct (Nat.eq_dec x x); [lia|contradiction].
      * rewrite lookup_insert_ne by congruence.
        rewrite (Hin p r' Hp Hr'), count_occ_app. do 3 f_equal.
        cbn [count_occ]. destruct (Nat.eq_dec x p); [congruence|lia].
    + intros p Hp. rewrite Hu', lookup_insert_ne; [now apply Hout|].
      intros ->. contradiction.
  - assert (H0 : counters_advanced ps 0 (regions w) (regions w)).
    { split; [|reflexivity]. intros p r Hp Hr.
      destruct (Hlive p Hp) as (r' & Hr' & Hc & _).
      pose proof (eq_trans (eq_sym Hr) Hr') as Hsame. injection Hsame as <-.
      rewrite Z.mul_0_l, advance_0 by assumption. exact Hr. }
    split; [exact H0|]. split; [|reflexivity].
    intros p r Hp Hr. rewrite Z.mul_0_r. apply (proj1 H0 p r Hp) in Hr.
    now rewrite Z.mul_0_l in Hr.
  - intros s' u (_ & Hin & Hout). split; assumption.
Qed.

(** The transactional fills take one counter value per key they make,
    for random keys as for sequential ones: [KvTxnPut] on a list of
    region entries leaves every listed counter advanced by one for each
    time its entry is listed, [KvTxnBatchPut] by the batch size for each
    time, also when one entry is listed twice; entries that are not
    listed are not changed, whether the transaction succeeds or not. *)
Theorem transactional_fills_count_every_key
    (region_entries : list RegionEntryPtr) (is_random : bool) (w : World) :
  Forall (fillable is_random w) region_entries ->
  0 <= FLAGS_batch_size flags <= INT_MAX ->
  counters_advanced region_entries 1 (regions w)
    (regions (final_world
                (KvTxnPut_entries flags env region_entries is_random w))) /\
  counters_advanced region_entries (FLAGS_batch_size flags) (regions w)
    (regions (final_world
                (KvTxnBatchPut_entries flags env region_entries is_random w))).
Proof.
  intros Hps Hb. split.
  - apply (wp_final _ (fun u => counters_advanced _ _ _ (regions u))).
    unfold KvTxnPut_entries. apply wp_bind.
    eapply wp_mono;
      [apply (entries_loop_counters 1 is_random); [|exact Hps]| |contradiction].
    + intros p cur kvs u Q Hp Hc Hlen HQ.
      apply wp_bind, (wp_deref _ cur); [assumption|].
      apply wp_bind, (wp_txn_gen_kv p cur); [assumption..|].
      intros kv u' Hr _. apply wp_ret, HQ, Hr.
    + intros kvs u Hadv.
      apply (keeps_wp _ (counters_advanced _ _ _));
        [apply keeps_KvTxnPut; typeclasses eauto|exact Hadv].
  - apply (wp_final _ (fun u => counters_advanced _ _ _ (regions u))).
    unfold KvTxnBatchPut_entries. apply wp_bind.
    eapply wp_mono;
      [apply (entries_loop_counters (FLAGS_batch_size flags) is_random);
       [|exact Hps]| |contradiction].
    + intros p cur kvs u Q Hp Hc Hlen HQ.
      apply wp_bind, (wp_deref _ cur); [assumption|].
      eapply wp_mono;
        [apply (wp_for_int
                  (fun i (_ : list KVPair) u' =>
                     regions u' =
                     <[p := advance env cur (Z.of_nat i)]> (regions u))
                  never); [unfold INT_MAX in *; lia| |]| |auto].
      * intros i kvs' u' Hi Hinv. apply wp_bind.
        apply (wp_txn_gen_kv p (advance env cur (Z.of_nat i)));
          [rewrite Hinv; apply lookup_insert_eq|exact Hlen|].
        intros kv u'' Hr _. apply wp_ret.
        rewrite Hr, Hinv, insert_insert_eq, advance_advance.
        do 2 f_equal. lia.
      * simpl. symmetry. apply insert_id. now rewrite advance_0.
      * intros kvs' u' Hinv. apply HQ. rewrite Hinv, Z2Nat.id by lia.
        reflexivity.
    + intros kvs u Hadv.
      apply (keeps_wp _ (counters_advanced _ _ _));
        [apply keeps_KvTxnBatchPut; typeclasses eauto|exact Hadv].
Qed.

End TxnFillFacts.

Section TxnFillExamples.
Import Int Benchmark.

(** One entry listed twice, random keys, a batch size of two: four
    counter values are gone. *)
Example KvTxnBatchPut_same_entry_twice :
  counter_after
    (KvTxnBatchPut_entries (small_flags 2) accepting [0%nat; 0%nat] true
       one_shard) = Some 4.
Proof. vm_compute. reflexivity. Qed.

Lemma transactional_fills_count_every_key_witness :
  counters_advanced accepting [0%nat; 0%nat] 1 (regions one_shard)
    (regions (final_world
                (KvTxnPut_entries (small_flags 2) accepting [0%nat; 0%nat]
                   true one_shard))) /\
  counters_advanced accepting [0%nat; 0%nat]
    (FLAGS_batch_size (small_flags 2)) (regions one_shard)
    (regions (final_world
                (KvTxnBatchPut_entries (small_flags 2) accepting
                   [0%nat; 0%nat] true one_shard))).
Proof.
  assert (H0 : fillable (small_flags 2) accepting true one_shard 0%nat).
  { exists shard_P. split; [vm_compute; reflexivity|].
    split; [vm_compute; intuition discriminate|discriminate]. }
  assert (H1 : 0 <= FLAGS_batch_size (small_flags 2) <= INT_MAX)
    by (vm_compute; intuition discriminate).
  assert (H2 : Forall (fillable (small_flags 2) accepting true one_shard)
                 [0%nat; 0%nat])
    by (do 2 (constructor; [exact H0|]); constructor).
  exact (transactional_fills_count_every_key (small_flags 2) accepting
           [0%nat; 0%nat] true one_shard H2 H1).
Defined.

End TxnFillExamples.

(** ** Batched raw writes *)
Section BatchPutFacts.
Import Int Benchmark.

Variable flags : Flags.
Variable env : Env.

Lemma sum_kv_bytes_snoc kvs kv :
  sum_kv_bytes (kvs ++ [kv]) = sum_kv_bytes kvs + kv_bytes kv.
Proof. unfold sum_kv_bytes. now rewrite fold_left_app. Qed.

Lemma EncodeRawKey_prefix pre s :
  String.prefix (EncodeRawKey pre) (EncodeRawKey (pre +:+ s)) = true.
Proof.
  change (String.prefix (String "w" pre) (String "w" (pre +:+ s)) = true).
  cbn [String.prefix].
  destruct (ascii_dec "w" "w"); [apply prefix_append|contradiction].
Qed.

(** What every pair of a batch looks like: the key starts with the
    raw-key marker and the prefix of the entry, the value has the length
    asked for. *)
Definition batch_pair (r : RegionEntry) (kv : KVPair) : Prop :=
  String.prefix (EncodeRawKey (prefix r)) (key kv) = true /\
  String.length (value kv) = Z.to_nat (to_int (FLAGS_value_size flags)).

(** [KvBatchPut] hands the whole batch to the SDK in one [BatchPut]: as
    many pairs as the batch size (none, in a call all the same, for a
    batch size of zero), every key under the prefix of the entry, the
    bytes written counted as the sizes of these keys and values, and the
    status that of the one call.  Sequential keys are those of the counter
    values in their order. *)
Theorem KvBatchPut_sends_the_batch_in_one_call (region_entry : RegionEntryPtr)
    (r : RegionEntry) (is_random : bool) (w : World) :
  regions w !! region_entry = Some r ->
  0 <= FLAGS_batch_size flags <= INT_MAX ->
  (is_random = false ->
   0 <= random_str_len_of flags (prefix r) /\
   0 <= counter r < 2 ^ counter_bits env) ->
  exists kvs u,
    KvBatchPut flags env region_entry is_random w =
      Ret {| status := reply_status (sdk env (trace w) (RawKV_BatchPut kvs));
             write_bytes := sum_kv_bytes kvs; read_bytes := 0 |} u /\
    trace u = trace w ++ [RawKV_BatchPut kvs] /\
    length kvs = Z.to_nat (FLAGS_batch_size flags) /\
    Forall (batch_pair r) kvs /\
    (is_random = false ->
     List.map key kvs =
     List.map (seq_key flags env r)
       (seq 0 (Z.to_nat (FLAGS_batch_size flags)))).
Proof.
  intros Hp Hb Hseq.
  enough (H : exists res u,
             KvBatchPut flags env region_entry is_random w = Ret res u /\
             exists kvs,
               res = {| status := reply_status
                                    (sdk env (trace w) (RawKV_BatchPut kvs));
                        write_bytes := sum_kv_bytes kvs; read_bytes := 0 |} /\
               trace u = trace w ++ [RawKV_BatchPut kvs] /\
               length kvs = Z.to_nat (FLAGS_batch_size flags) /\
               Forall (batch_pair r) kvs /\
               (is_random = false ->
                List.map key kvs =
                List.map (seq_key flags env r)
                  (seq 0 (Z.to_nat (FLAGS_batch_size flags))))).
  { destruct H as (res & u & Hrun & kvs & -> & H). exists kvs, u. tauto. }
  apply wp_returns. unfold KvBatchPut.
  apply wp_bind, (wp_deref _ r); [assumption|]. apply wp_bind.
  eapply wp_mono;
    [apply (wp_for_int
              (fun i (built : list KVPair * Z) u =>
                 length (fst built) = i /\
                 snd built = sum_kv_bytes (fst built) /\
                 trace u = trace w /\
                 Forall (batch_pair r) (fst built) /\
                 (is_random = false ->
                  regions u =
                    <[region_entry := advance env r (Z.of_nat i)]> (regions w) /\
                  List.map key (fst built) =
                    List.map (seq_key flags env r) (seq 0 i)))
              never); [unfold INT_MAX in *; lia| |]| |auto].
  - intros i [kvs bytes] u Hi (Hlen & Hbytes & Ht & Hall & Hs).
    simpl in Hlen, Hbytes, Hall, Hs.
    assert (Hstep : forall k v u',
              String.prefix (EncodeRawKey (prefix r)) k = true ->
              String.length v = Z.to_nat (to_int (FLAGS_value_size flags)) ->
              trace u' = trace w ->
              (is_random = false ->
               regions u' =
                 <[region_entry := advance env r (Z.of_nat (S i))]> (regions w) /\
               k = seq_key flags env r i) ->
              length (fst (kvs ++ [{| key := k; value := v |}],
                           bytes + kv_bytes {| key := k; value := v |})) = S i /\
              snd (kvs ++ [{| key := k; value := v |}],
                   bytes + kv_bytes {| key := k; value := v |}) =
                sum_kv_bytes
                  (fst (kvs ++ [{| key := k; value := v |}],
                        bytes + kv_bytes {| key := k; value := v |})) /\
              trace u' = trace w /\
              Forall (batch_pair r)
                (fst (kvs ++ [{| key := k; value := v |}],
                      bytes + kv_bytes {| key := k; value := v |})) /\
              (is_random = false ->
               regions u' =
                 <[region_entry := advance env r (Z.of_nat (S i))]> (regions w) /\
               List.map key
                 (fst (kvs ++ [{| key := k; value := v |}],
                       bytes + kv_bytes {| key := k; value := v |})) =
                 List.map (seq_key flags env r) (seq 0 (S i)))).
    { intros k v u' Hk Hv Ht' Hs'. cbn [fst snd].
      split; [rewrite length_app; simpl; lia|].
      split; [now rewrite sum_kv_bytes_snoc, Hbytes|].
      split; [assumption|]. split.
      - apply Forall_app. split; [assumption|].
        constructor; [|constructor]. split; assumption.
      - intros Hr. destruct (Hs' Hr) as [Hreg ->]. split; [assumption|].
        rewrite List.map_app, (proj2 (Hs Hr)), seq_S, List.map_app.
        reflexivity. }
    apply wp_bind. destruct is_random.
    + apply wp_bind, wp_GenRandomString. intros s u1 _ _ Ht1 _.
      apply wp_ret, wp_bind, wp_GenRandomString. intros v u2 Hv _ Ht2 _.
      apply wp_ret, Hstep;
        [apply EncodeRawKey_prefix|assumption|congruence|discriminate].
    + destruct (Hs eq_refl) as [Hreg Hkeys].
      destruct (Hseq eq_refl) as [Hwidth Hc].
      apply wp_bind,
        (wp_counter_fetch_add env _ (advance env r (Z.of_nat i)));
        [rewrite Hreg; apply lookup_insert_eq|].
      apply wp_bind, wp_GenSeqString. cbn [prefix advance].
      unfold format_zero_padded.
      destruct (Z.ltb_spec (random_str_len_of flags (prefix r)) 0); [lia|].
      apply wp_ret, wp_bind, wp_GenRandomString. intros v u2 Hv Hr2 Ht2 _.
      apply wp_ret, Hstep;
        [apply EncodeRawKey_prefix|assumption|simpl in Ht2; congruence|].
      intros _. split; [|reflexivity].
      rewrite Hr2. simpl. rewrite Hreg, insert_insert_eq, advance_advance.
      do 2 f_equal. lia.
  - simpl. split; [reflexivity|]. split; [reflexivity|].
    split; [reflexivity|]. split; [constructor|].
    intros Hr. split; [|reflexivity].
    destruct (Hseq Hr) as [_ Hc]. symmetry. apply insert_id.
    rewrite Hp. f_equal. destruct r as [pre c ks ri]. unfold advance.
    simpl in *. rewrite Z.add_0_r, Z.mod_small by assumption. reflexivity.
  - intros [kvs bytes] u (Hlen & Hbytes & Ht & Hall & Hs).
    simpl in Hlen, Hbytes, Hall, Hs. cbv beta iota.
    apply wp_bind, wp_call, wp_ret. exists kvs. simpl.
    rewrite Ht, Hbytes. split; [reflexivity|]. split; [reflexivity|].
    split; [assumption|]. split; [assumption|].
    intros Hr. apply (Hs Hr).
Qed.

End BatchPutFacts.

Section BatchPutExamples.
Import Int Benchmark.

(** With a batch size of zero the SDK is still called, with no pair. *)
Example KvBatchPut_empty_batch :
  KvBatchPut (small_flags 0) accepting 0%nat false one_shard =
  Ret {| status := OK; write_bytes := 0; read_bytes := 0 |}
      (with_trace one_shard [RawKV_BatchPut []]).
Proof. vm_compute. reflexivity. Qed.

Lemma KvBatchPut_sends_the_batch_in_one_call_witness :
  exists kvs u,
    KvBatchPut (small_flags 3) accepting 0%nat false one_shard =
      Ret {| status := reply_status
                         (sdk accepting (trace one_shard) (RawKV_BatchPut kvs));
             write_bytes := sum_kv_bytes kvs; read_bytes := 0 |} u /\
    trace u = trace one_shard ++ [RawKV_BatchPut kvs] /\
    length kvs = Z.to_nat (FLAGS_batch_size (small_flags 3)) /\
    Forall (batch_pair (small_flags 3) shard_P) kvs /\
    (false = false ->
     List.map key kvs =
     List.map (seq_key (small_flags 3) accepting shard_P)
       (seq 0 (Z.to_nat (FLAGS_batch_size (small_flags 3))))).
Proof.
  assert (H1 : regions one_shard !! 0%nat = Some shard_P)
    by (vm_compute; reflexivity).
  assert (H2 : 0 <= FLAGS_batch_size (small_flags 3) <= INT_MAX)
    by (vm_compute; intuition discriminate).
  assert (H3 : false = false ->
               0 <= random_str_len_of (small_flags 3) (prefix shard_P) /\
               0 <= counter shard_P < 2 ^ counter_bits accepting)
    by (intros _; vm_compute; intuition discriminate).
  exact (KvBatchPut_sends_the_batch_in_one_call (small_flags 3) accepting
           0%nat shard_P false one_shard H1 H2 H3).
Defined.

End BatchPutExamples.

(** ** Transactional sequential reads *)
Section TxnReadSeqFacts.
Import Int Benchmark.

Variable flags : Flags.
Variable env : Env.

Hypothesis Hvalid :
  txn_isolation_level_validator (FLAGS_txn_isolation_level flags) = true.

(** The calls and the status of a transaction over the operand steps
    [steps] begun after the calls [history]. *)
Definition transaction_run (history steps : list SdkCall)
  : list SdkCall * Status :=
  let a := attempt env history (plan_of flags steps) OK in
  (fst a ++ [Txn_delete], snd a).

Lemma wp_KvTxnGet ks (Q : Result -> World -> Prop) E u :
  (let run := transaction_run (trace u) (List.map Txn_Get ks) in
   Q {| status := snd run; write_bytes := 0; read_bytes := 0 |}
     (with_trace u (trace u ++ fst run))) ->
  wp (KvTxnGet flags env ks) Q E u.
Proof.
  intros HQ. unfold wp, KvTxnGet, bind.
  rewrite (transaction_attempt flags env (List.map Txn_Get ks) _ u Hvalid);
    [exact HQ|].
  apply txn_get_each_steps. intros. apply precommit_commit_steps.
Qed.

Lemma wp_KvTxnBatchGet kss (Q : Result -> World -> Prop) E u :
  (let run := transaction_run (trace u) (List.map Txn_BatchGet kss) in
   Q {| status := snd run; write_bytes := 0; read_bytes := 0 |}
     (with_trace u (trace u ++ fst run))) ->
  wp (KvTxnBatchGet flags env kss) Q E u.
Proof.
  intros HQ. unfold wp, KvTxnBatchGet, bind.
  rewrite (transaction_attempt flags env (List.map Txn_BatchGet kss) _ u
             Hvalid); [exact HQ|].
  apply txn_batch_get_each_steps. intros. apply precommit_commit_steps.
Qed.

(** The key under the cursor [j] places further. *)
Definition cursor_key (r : RegionEntry) (j : nat) : string :=
  nth (Z.to_nat ((read_index r + Z.of_nat j) mod Z.of_nat (length (keys r))))
    (keys r) "".

(** [TxnReadSeqOperation::Execute] on one region entry with a non-empty
    key list.  With a batch size of at most one it reads the key under
    the cursor with one [Get] in a transaction of its own and moves the
    cursor by one.  With a larger batch size it reads the keys under the
    cursor, as many as the batch size and round the key list, with one
    [BatchGet] in one transaction, and moves the cursor by the batch
    size: its vector has a name of its own and does not hide the key
    list.  The cursor has moved whether the transaction succeeded or
    not; the transaction stops at its first failing call. *)
Theorem TxnReadSeq_reads_the_keys_under_the_cursor
    (region_entry : RegionEntryPtr) (r : RegionEntry) (w : World) :
  regions w !! region_entry = Some r ->
  keys r <> [] ->
  0 <= read_index_bits env <= 64 ->
  0 <= read_index r < 2 ^ read_index_bits env ->
  let steps :=
    if FLAGS_batch_size flags <=? 1
    then [Txn_Get (cursor_key r 0)]
    else [Txn_BatchGet
            (List.map (cursor_key r)
               (seq 0 (Z.to_nat (FLAGS_batch_size flags))))] in
  let moved := if FLAGS_batch_size flags <=? 1 then 1
               else FLAGS_batch_size flags in
  FLAGS_batch_size flags <= INT_MAX ->
  read_index r + moved <= 2 ^ read_index_bits env ->
  exists res u,
    TxnReadSeqOperation_Execute flags env region_entry w = Ret res u /\
    trace u = trace w ++ fst (transaction_run (trace w) steps) /\
    status res = snd (transaction_run (trace w) steps) /\
    (exists calls, fst (transaction_run (trace w) steps)
                   = calls ++ [Txn_delete] /\
                   calls `prefix_of` plan_of flags steps) /\
    regions u = <[region_entry := stepped env r moved]> (regions w).
Proof.
  intros Hp Hne Hbits Hri steps moved Hb Hend.
  assert (Hrun : exists calls, fst (transaction_run (trace w) steps)
                   = calls ++ [Txn_delete] /\
                   calls `prefix_of` plan_of flags steps).
  { eexists. split; [reflexivity|]. apply attempt_prefix. }
  enough (H : exists res u,
             TxnReadSeqOperation_Execute flags env region_entry w = Ret res u /\
             (trace u = trace w ++ fst (transaction_run (trace w) steps) /\
              status res = snd (transaction_run (trace w) steps) /\
              regions u = <[region_entry := stepped env r moved]> (regions w))).
  { destruct H as (res & u & Hex & Ht & Hs & Hr). exists res, u. auto. }
  apply wp_returns. unfold TxnReadSeqOperation_Execute.
  apply wp_bind, (wp_deref _ r); [assumption|].
  assert (H64 : 2 ^ read_index_bits env <= 2 ^ 64)
    by (apply Z.pow_le_mono_r; lia).
  subst steps moved. destruct (Z.leb_spec (FLAGS_batch_size flags) 1).
  - apply wp_bind, wp_took, wp_bind.
    apply (wp_next_read_key env region_entry r); [assumption|assumption|lia|].
    intros k Hk. apply wp_KvTxnGet. simpl.
    replace k with (cursor_key r 0).
    + auto.
    + unfold cursor_key. rewrite Z.add_0_r.
      apply (nth_lookup_Some _ _ _ _ Hk).
  - apply wp_bind, wp_took, wp_bind.
    eapply wp_mono;
      [apply (TxnReadSeq_loop_reads_cursor_keys env region_entry r);
       [assumption|assumption|assumption|assumption|assumption
       |unfold INT_MAX in *; lia]| |auto].
    intros batch_keys u (-> & Hr & Ht). apply wp_KvTxnBatchGet. simpl.
    rewrite Ht, Hr. auto.
Qed.

End TxnReadSeqFacts.

Section TxnReadSeqExamples.
Import Int Benchmark.

(** Three keys, a batch size of five: the keys are read round the key
    list in one [BatchGet]. *)
Example TxnReadSeq_batch_goes_round :
  new_calls three_keys
    (TxnReadSeqOperation_Execute (small_flags 5) accepting 0%nat three_keys)
  = [ Client_NewTransaction
        {| kind := kOptimistic; isolation := kSnapshotIsolation |};
      Txn_BatchGet
        ["wP0000000"; "wP0000001"; "wP0000002"; "wP0000000"; "wP0000001"];
      Txn_PreCommit; Txn_Commit; Txn_delete ].
Proof. vm_compute. reflexivity. Qed.

Lemma TxnReadSeq_reads_the_keys_under_the_cursor_witness :
  let steps :=
    [Txn_BatchGet (List.map (cursor_key three_key_shard) (seq 0 2))] in
  exists res u,
    TxnReadSeqOperation_Execute (small_flags 2) accepting 0%nat three_keys
      = Ret res u /\
    trace u = trace three_keys ++
              fst (transaction_run (small_flags 2) accepting
                     (trace three_keys) steps) /\
    status res = snd (transaction_run (small_flags 2) accepting
                        (trace three_keys) steps) /\
    (exists calls, fst (transaction_run (small_flags 2) accepting
                          (trace three_keys) steps)
                   = calls ++ [Txn_delete] /\
                   calls `prefix_of` plan_of (small_flags 2) steps) /\
    regions u = <[0%nat := stepped accepting three_key_shard 2]>
                  (regions three_keys).
Proof.
  assert (H1 : regions three_keys !! 0%nat = Some three_key_shard)
    by (vm_compute; reflexivity).
  assert (H2 : keys three_key_shard <> []) by (vm_compute; discriminate).
  assert (H3 : 0 <= read_index_bits accepting <= 64)
    by (vm_compute; intuition discriminate).
  assert (H4 : 0 <= read_index three_key_shard < 2 ^ read_index_bits accepting)
    by (vm_compute; intuition discriminate).
  assert (H5 : FLAGS_batch_size (small_flags 2) <= INT_MAX)
    by (vm_compute; discriminate).
  assert (H6 : read_index three_key_shard + 2 <= 2 ^ read_index_bits accepting)
    by (vm_compute; discriminate).
  exact (TxnReadSeq_reads_the_keys_under_the_cursor (small_flags 2) accepting
           eq_refl 0%nat three_key_shard three_keys H1 H2 H3 H4 H5 H6).
Defined.

End TxnReadSeqExamples.

(** ** The batches of Arrange *)
Section ArrangeBatchFacts.
Import Int Benchmark.

Variable flags : Flags.
Variable env : Env.

(** The batches of a run that returned [b]: full ones of 256 pairs,
    then at most one more that is not empty and not larger; together,
    when the run returned true, as many pairs as were asked for; and a
    run that returned false made a write. *)
Definition in_batches_of_256 (b : bool) (batches : list (list KVPair))
  : Prop :=
  exists full last,
    batches = full ++ last /\
    Forall (fun kvs => length kvs = 256%nat) full /\
    Forall (fun kvs => (1 <= length kvs <= 256)%nat) last /\
    (length last <= 1)%nat /\
    if b then length (concat batches) = Z.to_nat (FLAGS_arrange_kv_num flags)
    else batches <> [].

Lemma Arrange_loop_batches p r w :
  0 <= random_str_len_of flags (prefix r) ->
  is_uint32 (FLAGS_arrange_kv_num flags) ->
  forall todo i kvs full u,
    (i + todo = Z.to_nat (FLAGS_arrange_kv_num flags))%nat ->
    regions u = <[p := grown flags env r i]> (regions w) ->
    trace u = trace w ++ List.map RawKV_BatchPut full ->
    Forall (fun kvs => length kvs = 256%nat) full ->
    i = (length (concat full) + length kvs)%nat ->
    (length kvs < 256)%nat ->
    (todo = 0%nat -> kvs = []) ->
    wp (Arrange_loop flags env (raw_write env) p (prefix r)
          (random_str_len_of flags (prefix r)) todo (Z.of_nat i) kvs)
       (fun b u' => exists batches,
          trace u' = trace w ++ List.map RawKV_BatchPut batches /\
          in_batches_of_256 b batches)
       never u.
Proof.
  intros Hlen Hn.
  assert (Hfull : forall full : list (list KVPair),
            Forall (fun kvs => length kvs = 256%nat) full ->
            length (concat full) = (256 * length full)%nat).
  { induction 1 as [|kvs full Hk _ IH]; simpl; [reflexivity|].
    rewrite length_app, IH, Hk. lia. }
  induction todo as [|todo IH]; intros i kvs full u Hi Hu Ht Hall Hcount Hkvs Hlast;
    cbn [Arrange_loop].
  - apply wp_ret. exists full. split; [assumption|].
    exists full, []. rewrite app_nil_r. rewrite (Hlast eq_refl) in Hcount.
    simpl in *. repeat split; try assumption; try constructor; lia.
  - apply wp_bind, (wp_arrange_kv flags env p r i _ _ w); [assumption..|].
    intros value u1 Ht1 _ Hr1.
    assert (Hi1 : to_uint32 (Z.of_nat i + 1) = Z.of_nat (S i)).
    { rewrite to_uint32_id; unfold is_uint32, UINT32_MAX in *; lia. }
    rewrite !Hi1.
    replace (Z.of_nat i + 1) with (Z.of_nat (S i)) by lia.
    set (kv := {| key := seq_key flags env r i; value := value |}).
    assert (Hmod : Z.of_nat (S i) mod 256
                   = Z.of_nat (S (length kvs)) mod 256).
    { rewrite Hcount, (Hfull full Hall).
      replace (Z.of_nat (S (256 * length full + length kvs)))
        with (Z.of_nat (S (length kvs)) + Z.of_nat (length full) * 256) by lia.
      apply Z_mod_plus_full. }
    destruct (Z.eqb_spec (Z.of_nat (S i) mod 256) 0) as [Hz|Hnz]; cbn [orb].
    + (* a full batch *)
      assert (Hbatch : length (kvs ++ [kv]) = 256%nat).
      { rewrite length_app. simpl. rewrite Hmod in Hz.
        destruct (decide (S (length kvs) = 256%nat)) as [|Hne]; [lia|].
        rewrite Z.mod_small in Hz by lia. lia. }
      apply wp_bind. unfold raw_write at 1.
      apply wp_bind, wp_call, wp_ret.
      assert (Hall' : Forall (fun kvs => length kvs = 256%nat)
                        (full ++ [kvs ++ [kv]]))
        by (apply Forall_app; split; [assumption|now repeat constructor]).
      destruct (IsOK _); cbn [negb].
      * apply (IH (S i) [] (full ++ [kvs ++ [kv]]));
          [lia|exact Hr1| |exact Hall'| |simpl; lia|reflexivity].
        -- simpl. rewrite Ht1, Ht, List.map_app, <- app_assoc. reflexivity.
        -- rewrite concat_app. simpl. rewrite app_nil_r, !length_app. simpl.
           lia.
      * apply wp_ret. exists (full ++ [kvs ++ [kv]]). split.
        -- simpl. rewrite Ht1, Ht, List.map_app, <- app_assoc. reflexivity.
        -- exists (full ++ [kvs ++ [kv]]), []. rewrite app_nil_r.
           repeat split; try assumption; try constructor; simpl; try lia.
           intros Hnil. now apply app_eq_nil in Hnil as [_ [=]].
    + destruct (Z.eqb_spec (Z.of_nat (S i)) (FLAGS_arrange_kv_num flags))
        as [Hend|Hmore].
      * (* the last batch *)
        assert (todo = 0%nat) by lia. subst todo.
        apply wp_bind. unfold raw_write at 1.
        apply wp_bind, wp_call, wp_ret.
        assert (Hshape : exists full' last,
                  full ++ [kvs ++ [kv]] = full' ++ last /\
                  Forall (fun kvs => length kvs = 256%nat) full' /\
                  Forall (fun kvs => (1 <= length kvs <= 256)%nat) last /\
                  (length last <= 1)%nat).
        { exists full, [kvs ++ [kv]]. split; [reflexivity|].
          split; [assumption|]. split; [|simpl; lia].
          constructor; [|constructor]. rewrite length_app. simpl. lia. }
        destruct Hshape as (full' & last & Heq & Hf & Hl & Hone).
        assert (Hout : trace (with_trace u1
                                (trace u1 ++ [RawKV_BatchPut (kvs ++ [kv])]))
                       = trace w ++
                         List.map RawKV_BatchPut (full ++ [kvs ++ [kv]])).
        { simpl. rewrite Ht1, Ht, List.map_app, <- app_assoc. reflexivity. }
        destruct (IsOK _); cbn [negb Arrange_loop]; apply wp_ret;
          exists (full ++ [kvs ++ [kv]]); (split; [exact Hout|]);
          exists full', last; (split; [exact Heq|]);
          (split; [exact Hf|]); (split; [exact Hl|]);
          (split; [exact Hone|]).
        -- rewrite concat_app. simpl. rewrite app_nil_r, !length_app. simpl.
           lia.
        -- intros Hnil. now apply app_eq_nil in Hnil as [_ [=]].
      * (* no write yet *)
        assert (Hroom : (S (length kvs) < 256)%nat).
        { destruct (decide (S (length kvs) = 256%nat)) as [He|Hne]; [|lia].
          rewrite Hmod, He in Hnz. now contradiction Hnz. }
        apply (IH (S i) (kvs ++ [kv]) full);
          [lia|exact Hr1|congruence|assumption| | |lia].
        -- rewrite length_app. simpl. lia.
        -- rewrite length_app. simpl. lia.
Qed.

(** [ReadOperation::Arrange] writes with [BatchPut] only, in batches of
    256 pairs followed by at most one smaller batch, never an empty one;
    when it returns true the batches hold as many pairs as
    [arrange_kv_num] asks for, so that for zero nothing is written; when
    it returns false a write was made. *)
Theorem Arrange_writes_in_batches_of_256 (region_entry : RegionEntryPtr)
    (r : RegionEntry) (w : World) :
  regions w !! region_entry = Some r ->
  0 <= counter r < 2 ^ counter_bits env ->
  0 <= random_str_len_of flags (prefix r) ->
  is_uint32 (FLAGS_arrange_kv_num flags) ->
  exists b u batches,
    ReadOperation_Arrange flags env region_entry w = Ret b u /\
    trace u = trace w ++ List.map RawKV_BatchPut batches /\
    in_batches_of_256 b batches /\
    (FLAGS_arrange_kv_num flags = 0 -> b = true /\ batches = []).
Proof.
  intros Hp Hc Hlen Hn.
  enough (H : exists b u,
             ReadOperation_Arrange flags env region_entry w = Ret b u /\
             exists batches,
               trace u = trace w ++ List.map RawKV_BatchPut batches /\
               in_batches_of_256 b batches).
  { destruct H as (b & u & Hrun & batches & Ht & Hin).
    exists b, u, batches. repeat split; try assumption.
    - destruct b; [reflexivity|].
      revert Hrun. unfold ReadOperation_Arrange, bind, deref.
      rewrite Hp, H. simpl. discriminate.
    - destruct Hin as (full & last & -> & Hf & Hl & _ & Hcount).
      assert (Hb : b = true).
      { destruct b; [reflexivity|].
        revert Hrun. unfold ReadOperation_Arrange, bind, deref.
        rewrite Hp, H. simpl. discriminate. }
      subst b. rewrite H in Hcount. simpl in Hcount.
      destruct full as [|kvs full].
      + destruct last as [|kvs last]; [reflexivity|].
        apply Forall_cons in Hl as [Hk _]. simpl in Hcount.
        rewrite length_app in Hcount. lia.
      + apply Forall_cons in Hf as [Hk _]. simpl in Hcount.
        rewrite length_app in Hcount. lia. }
  apply wp_returns. unfold ReadOperation_Arrange.
  apply wp_bind, (wp_deref _ r); [assumption|].
  apply (Arrange_loop_batches region_entry r w Hlen Hn _ 0%nat [] []);
    [lia| |simpl; now rewrite app_nil_r|constructor|reflexivity|simpl; lia
    |reflexivity].
  symmetry. apply insert_id. now rewrite grown_0.
Qed.

End ArrangeBatchFacts.

Section ArrangeBatchExamples.
Import Int Benchmark.

(** The sizes of the batches a run wrote. *)
Definition batch_sizes {A} (o : Outcome A) : list nat :=
  List.map (fun c => match c with
                     | RawKV_BatchPut kvs => length kvs
                     | _ => 0%nat
                     end)
    (trace (final_world o)).

Example Arrange_1000_in_four_batches :
  batch_sizes arranged_1000 = [256; 256; 256; 232]%nat.
Proof. vm_compute. reflexivity. Qed.

Lemma Arrange_writes_in_batches_of_256_witness :
  exists b u batches,
    ReadOperation_Arrange (arrange_flags 1000) accepting 0%nat one_shard
      = Ret b u /\
    trace u = trace one_shard ++ List.map RawKV_BatchPut batches /\
    in_batches_of_256 (arrange_flags 1000) b batches /\
    (FLAGS_arrange_kv_num (arrange_flags 1000) = 0 -> b = true /\ batches = []).
Proof.
  assert (H1 : regions one_shard !! 0%nat = Some shard_P)
    by (vm_compute; reflexivity).
  assert (H2 : 0 <= counter shard_P < 2 ^ counter_bits accepting)
    by (vm_compute; intuition discriminate).
  assert (H3 : 0 <= random_str_len_of (arrange_flags 1000) (prefix shard_P))
    by (vm_compute; discriminate).
  assert (H4 : is_uint32 (FLAGS_arrange_kv_num (arrange_flags 1000)))
    by (vm_compute; intuition discriminate).
  exact (Arrange_writes_in_batches_of_256 (arrange_flags 1000) accepting
           0%nat shard_P one_shard H1 H2 H3 H4).
Defined.

End ArrangeBatchExamples.

(** ** The operations by name *)
Section RegistryFacts.
Import Benchmark.

(** The words of a text, separated by single spaces. *)
Fixpoint words_from (text word : string) : list string :=
  match text with
  | EmptyString => match word with EmptyString => [] | _ => [word] end
  | String c text' =>
      if Ascii.eqb c " " then word :: words_from text' ""
      else words_from text' (word +:+ String c "")
  end.

Definition words (text : string) : list string := words_from text "".

Ltac by_name H b :=
  repeat match type of H with
         | context [String.eqb ?name b] =>
             destruct (String.eqb_spec name b);
             [try discriminate; try (subst b; simpl; tauto);
              try congruence|]
         end.

(** The flag validator [IsSupportBenchmarkType] accepts a name exactly
    when [NewOperation] builds an operation for it, so that a validated
    flag never gives the null pointer; every operation class is built
    under exactly one name; and the names accepted are exactly the words
    of the text of [GetSupportBenchmarkType], compared as they are
    written. *)
Theorem validated_benchmark_has_an_operation :
  (forall benchmark,
     IsSupportBenchmarkType benchmark = true <->
     exists op, NewOperation benchmark = Some op) /\
  (forall op, exists benchmark,
     NewOperation benchmark = Some op /\
     forall other, NewOperation other = Some op -> other = benchmark) /\
  (forall benchmark,
     IsSupportBenchmarkType benchmark = true <->
     In benchmark (words GetSupportBenchmarkType)) /\
  IsSupportBenchmarkType "FillSeq" = false.
Proof.
  split; [|split; [|split; [|reflexivity]]].
  - intros b. unfold IsSupportBenchmarkType, NewOperation.
    destruct (find_operation b support_operations) as [op|].
    + split; [eauto|reflexivity].
    + split; [discriminate|]. now intros [op H].
  - intros op.
    exists (match op with
            | FillSeqOperation => "fillseq"
            | FillRandomOperation => "fillrandom"
            | ReadSeqOperation => "readseq"
            | ReadRandomOperation => "readrandom"
            | ReadMissingOperation => "readmissing"
            | FillTxnSeqOperation => "filltxnseq"
            | FillTxnRandomOperation => "filltxnrandom"
            | TxnReadSeqOperation => "readtxnseq"
            | TxnReadRandomOperation => "readtxnrandom"
            | TxnReadMissingOperation => "readtxnmissing"
            end).
    destruct op; (split; [reflexivity|]); intros other H;
      unfold NewOperation, support_operations in H;
      cbn [find_operation] in H; by_name H other; discriminate.
  - intros b.
    replace (words GetSupportBenchmarkType)
      with (List.map fst support_operations) by (vm_compute; reflexivity).
    unfold IsSupportBenchmarkType, support_operations.
    cbn [find_operation List.map fst]. split.
    + intros H. by_name H b. discriminate.
    + intros H. simpl in H.
      repeat (destruct H as [<-|H]; [reflexivity|]). contradiction.
Qed.

End RegistryFacts.

(** ** A prefix longer than the key size *)
Section LongPrefixFacts.
Import Int Benchmark.

Variable flags : Flags.
Variable env : Env.

Lemma append_empty_r (s : string) : s +:+ "" = s.
Proof.
  induction s as [|c s IH]; [reflexivity|].
  change (String c (s +:+ "") = String c s). now rewrite IH.
Qed.

Lemma random_str_len_negative pre :
  0 <= FLAGS_key_size flags ->
  FLAGS_key_size flags < size pre <= FLAGS_key_size flags + 2 ^ 31 ->
  random_str_len_of flags pre = FLAGS_key_size flags - size pre.
Proof.
  intros H0 H1. unfold random_str_len_of.
  rewrite to_int_to_size_t. apply to_int_id. lia.
Qed.

(** On a region entry whose prefix is longer than the key size the
    width left for the rest of the key is negative.  [KvPut] with a
    random key then writes the marker and the prefix alone, a key longer
    than the key size asks for; with a sequential key the formatting of
    the sequence number throws, after the counter was advanced and before
    anything is written. *)
Theorem KvPut_with_a_prefix_longer_than_the_key (region_entry : RegionEntryPtr)
    (r : RegionEntry) (w : World) :
  regions w !! region_entry = Some r ->
  0 <= FLAGS_key_size flags ->
  FLAGS_key_size flags < size (prefix r) <= FLAGS_key_size flags + 2 ^ 31 ->
  (exists value res u,
     KvPut flags env region_entry true w = Ret res u /\
     trace u = trace w ++ [RawKV_Put (EncodeRawKey (prefix r)) value] /\
     FLAGS_key_size flags + 1 < size (EncodeRawKey (prefix r))) /\
  (exists u,
     KvPut flags env region_entry false w = Stop Thrown u /\
     trace u = trace w /\
     regions u = <[region_entry := advance env r 1]> (regions w)).
Proof.
  intros Hp H0 Hpre.
  pose proof (random_str_len_negative (prefix r) H0 Hpre) as Hlen.
  split.
  - enough (H : exists res u,
               KvPut flags env region_entry true w = Ret res u /\
               exists value,
                 trace u = trace w ++ [RawKV_Put (EncodeRawKey (prefix r)) value]).
    { destruct H as (res & u & Hrun & value & Ht).
      exists value, res, u. split; [assumption|]. split; [assumption|].
      unfold size in *. rewrite EncodeRawKey_length. lia. }
    apply wp_returns. unfold KvPut.
    apply wp_bind, (wp_deref _ r); [assumption|].
    apply wp_bind, (wp_counter_fetch_add env _ r); [assumption|].
    apply wp_bind, wp_bind, wp_GenRandomString. intros s u1 Hs _ Ht1 _.
    rewrite Hlen, Z2Nat.nonpos in Hs by lia.
    destruct s; [|discriminate]. rewrite append_empty_r.
    apply wp_ret, wp_bind, wp_GenRandomString. intros value u2 _ _ Ht2 _.
    apply wp_bind, wp_call, wp_ret. exists value. simpl in *.
    rewrite Ht2, Ht1. reflexivity.
  - enough (H : exists e u,
               KvPut flags env region_entry false w = Stop e u /\
               (e = Thrown /\ trace u = trace w /\
                regions u = <[region_entry := advance env r 1]> (regions w))).
    { destruct H as (e & u & Hrun & -> & H). eauto. }
    apply wp_stops. unfold KvPut.
    apply wp_bind, (wp_deref _ r); [assumption|].
    apply wp_bind, (wp_counter_fetch_add env _ r); [assumption|].
    apply wp_bind, wp_bind, wp_GenSeqString. unfold format_zero_padded.
    destruct (Z.ltb_spec (random_str_len_of flags (prefix r)) 0); [|lia].
    repeat split.
Qed.

End LongPrefixFacts.

Section LongPrefixExamples.
Import Int Benchmark.

Definition long_prefix : RegionEntry :=
  {| prefix := "Pabcdefgh"; counter := 0; keys := []; read_index := 0 |}.

Definition long_prefix_shard : World :=
  {| regions := {[ 0%nat := long_prefix ]}; trace := []; draws := 0;
     paths := [] |}.

Lemma KvPut_with_a_prefix_longer_than_the_key_witness :
  (exists value res u,
     KvPut (small_flags 1) accepting 0%nat true long_prefix_shard = Ret res u /\
     trace u = trace long_prefix_shard ++
               [RawKV_Put (EncodeRawKey (prefix long_prefix)) value] /\
     FLAGS_key_size (small_flags 1) + 1 < size (EncodeRawKey (prefix long_prefix))) /\
  (exists u,
     KvPut (small_flags 1) accepting 0%nat false long_prefix_shard
       = Stop Thrown u /\
     trace u = trace long_prefix_shard /\
     regions u =
       <[0%nat := advance accepting long_prefix 1]>
         (regions long_prefix_shard)).
Proof.
  exact (KvPut_with_a_prefix_longer_than_the_key (small_flags 1) accepting
           0%nat
           long_prefix long_prefix_shard eq_refl
           ltac:(vm_compute; discriminate)
           ltac:(vm_compute; intuition discriminate)).
Defined.

End LongPrefixExamples.

(** ** Transactional random reads *)
Section TxnReadRandomFacts.
Import Int Benchmark.

Variable flags : Flags.
Variable env : Env.

Hypothesis Hvalid :
  txn_isolation_level_validator (FLAGS_txn_isolation_level flags) = true.

(** [TxnReadRandomOperation::Execute] on one region entry with a
    non-empty key list reads keys of the key list only, in one
    transaction: one key with a [Get] for a batch size of at most one,
    and otherwise as many keys as the batch size with one [BatchGet]
    (its loop indexes the key list, where the loop of
    [ReadRandomOperation::Execute] indexes its own empty vector).  No
    region entry changes: the read cursor stays where it is. *)
Theorem TxnReadRandom_reads_listed_keys (region_entry : RegionEntryPtr)
    (r : RegionEntry) (w : World) :
  regions w !! region_entry = Some r ->
  keys r <> [] ->
  FLAGS_batch_size flags <= INT_MAX ->
  exists res u ks,
    let steps := if FLAGS_batch_size flags <=? 1
                 then List.map Txn_Get ks else [Txn_BatchGet ks] in
    TxnReadRandomOperation_Execute flags env region_entry w = Ret res u /\
    Forall (fun k => k ∈ keys r) ks /\
    length ks = (if FLAGS_batch_size flags <=? 1 then 1%nat
                 else Z.to_nat (FLAGS_batch_size flags)) /\
    trace u = trace w ++ fst (transaction_run flags env (trace w) steps) /\
    status res = snd (transaction_run flags env (trace w) steps) /\
    regions u = regions w.
Proof.
  intros Hp Hne Hb.
  enough (H : exists res u,
             TxnReadRandomOperation_Execute flags env region_entry w
               = Ret res u /\
             exists ks,
               let steps := if FLAGS_batch_size flags <=? 1
                            then List.map Txn_Get ks else [Txn_BatchGet ks] in
               Forall (fun k => k ∈ keys r) ks /\
               length ks = (if FLAGS_batch_size flags <=? 1 then 1%nat
                            else Z.to_nat (FLAGS_batch_size flags)) /\
               trace u = trace w ++
                         fst (transaction_run flags env (trace w) steps) /\
               status res = snd (transaction_run flags env (trace w) steps) /\
               regions u = regions w).
  { destruct H as (res & u & Hrun & ks & H). exists res, u, ks.
    split; [assumption|exact H]. }
  apply wp_returns. unfold TxnReadRandomOperation_Execute.
  apply wp_bind, (wp_deref _ r); [assumption|].
  destruct (Z.leb_spec (FLAGS_batch_size flags) 1).
  - apply wp_bind, wp_took, wp_bind, wp_random_read_key; [contradiction|].
    intros k Hk. apply (wp_KvTxnGet flags env Hvalid). simpl.
    exists [k]. simpl. repeat split. now repeat constructor.
  - apply wp_bind, wp_took, wp_bind.
    eapply wp_mono;
      [apply (wp_for_int
                (fun i (batch_keys : list string) u =>
                   length batch_keys = i /\
                   Forall (fun k => k ∈ keys r) batch_keys /\
                   trace u = trace w /\ regions u = regions w)
                never); [unfold INT_MAX in *; lia| |]| |auto].
    + intros i batch_keys u Hi (Hlen & Hall & Ht & Hr).
      apply wp_bind, wp_random_read_key; [contradiction|].
      intros k Hk. apply wp_ret. simpl.
      split; [rewrite length_app; simpl; lia|].
      split; [|split; assumption].
      apply Forall_app. split; [assumption|]. now repeat constructor.
    + simpl. repeat split. constructor.
    + intros batch_keys u (Hlen & Hall & Ht & Hr).
      apply (wp_KvTxnBatchGet flags env Hvalid). simpl.
      exists batch_keys. simpl. rewrite Ht. auto.
Qed.

End TxnReadRandomFacts.

Section TxnReadRandomExamples.
Import Int Benchmark.

Lemma TxnReadRandom_reads_listed_keys_witness :
  exists res u ks,
    let steps := if FLAGS_batch_size (small_flags 2) <=? 1
                 then List.map Txn_Get ks else [Txn_BatchGet ks] in
    TxnReadRandomOperation_Execute (small_flags 2) accepting 0%nat three_keys
      = Ret res u /\
    Forall (fun k => k ∈ keys three_key_shard) ks /\
    length ks = (if FLAGS_batch_size (small_flags 2) <=? 1 then 1%nat
                 else Z.to_nat (FLAGS_batch_size (small_flags 2))) /\
    trace u = trace three_keys ++
              fst (transaction_run (small_flags 2) accepting
                     (trace three_keys) steps) /\
    status res = snd (transaction_run (small_flags 2) accepting
                        (trace three_keys) steps) /\
    regions u = regions three_keys.
Proof.
  assert (H1 : regions three_keys !! 0%nat = Some three_key_shard)
    by (vm_compute; reflexivity).
  assert (H2 : keys three_key_shard <> []) by (vm_compute; discriminate).
  assert (H3 : FLAGS_batch_size (small_flags 2) <= INT_MAX)
    by (vm_compute; discriminate).
  exact (TxnReadRandom_reads_listed_keys (small_flags 2) accepting eq_refl
           0%nat three_key_shard three_keys H1 H2 H3).
Defined.

End TxnReadRandomExamples.

(** ** The two overloads of Execute *)
Section OverloadFacts.
Import Int Benchmark.

Variable flags : Flags.
Variable env : Env.

Lemma bind_Ret {A B} (m : M A) (k : A -> M B) w a w' :
  m w = Ret a w' -> bind m k w = k a w'.
Proof. intros H. unfold bind. now rewrite H. Qed.

Lemma bind_assoc {A B C} (m : M A) (k : A -> M B) (h : B -> M C) w :
  bind (bind m k) h w = bind m (fun a => bind (k a) h) w.
Proof. unfold bind. now destruct (m w). Qed.

Lemma bind_ret_l {A B} (a : A) (k : A -> M B) w : bind (ret a) k w = k a w.
Proof. reflexivity. Qed.

Lemma for_each_one {A S B} (x : A) (body : S -> A -> M S) s
    (k : S -> M B) w :
  bind (for_each [x] body s) k w = bind (body s x) k w.
Proof.
  cbn [for_each]. rewrite bind_assoc. apply bind_ext. reflexivity.
Qed.

(** Every class that overrides both overloads: on a region entry that
    is there, [Execute] of the entry does what [Execute] of the list
    holding just this entry does: the same calls, the same result, the
    same entries and the same branch. *)
Theorem Execute_of_one_entry_is_Execute_of_its_list (op : Operation)
    (region_entry : RegionEntryPtr) (r : RegionEntry) (w : World)
    (of_list : M Result) :
  regions w !! region_entry = Some r ->
  Execute_entries flags env op [region_entry] = Some of_list ->
  Execute flags env op region_entry w = of_list w.
Proof.
  intros Hp Hop.
  assert (Hd : forall u, regions u = regions w ->
            deref region_entry u = Ret r u).
  { intros u Hu. unfold deref. now rewrite Hu, Hp. }
  destruct op; try discriminate; injection Hop as <-; cbn [Execute].
  - reflexivity.
  - reflexivity.
  - unfold TxnReadSeqOperation_Execute, TxnReadSeqOperation_Execute_entries.
    rewrite (bind_Ret _ _ _ _ _ (Hd w eq_refl)).
    destruct (FLAGS_batch_size flags <=? 1);
      rewrite !(bind_Ret (took _) _ w tt _ eq_refl);
      rewrite for_each_one, bind_assoc.
    + apply bind_ext. reflexivity.
    + match goal with
      | |- _ = _ ?u =>
          rewrite (bind_Ret (deref region_entry) _ u r u (Hd u eq_refl))
      end.
      rewrite bind_assoc. apply bind_ext. reflexivity.
  - unfold TxnReadRandomOperation_Execute,
      TxnReadRandomOperation_Execute_entries.
    rewrite (bind_Ret _ _ _ _ _ (Hd w eq_refl)).
    destruct (FLAGS_batch_size flags <=? 1);
      rewrite !(bind_Ret (took _) _ w tt _ eq_refl);
      rewrite for_each_one, bind_assoc;
      match goal with
      | |- _ = _ ?u =>
          rewrite (bind_Ret (deref region_entry) _ u r u (Hd u eq_refl))
      end;
      rewrite bind_assoc; apply bind_ext; reflexivity.
  - unfold TxnReadMissingOperation_Execute,
      TxnReadMissingOperation_Execute_entries.
    rewrite (bind_Ret _ _ _ _ _ (Hd w eq_refl)).
    destruct (FLAGS_batch_size flags <=? 1);
      rewrite !(bind_Ret (took _) _ w tt _ eq_refl);
      rewrite for_each_one, bind_assoc;
      match goal with
      | |- _ = _ ?u =>
          rewrite (bind_Ret (deref region_entry) _ u r u (Hd u eq_refl))
      end;
      rewrite bind_assoc; apply bind_ext; reflexivity.
Qed.

End OverloadFacts.

Section OverloadExamples.
Import Int Benchmark.

Lemma Execute_of_one_entry_is_Execute_of_its_list_witness :
  Execute (small_flags 2) accepting TxnReadSeqOperation 0%nat three_keys =
  TxnReadSeqOperation_Execute_entries (small_flags 2) accepting [0%nat]
    three_keys.
Proof.
  assert (H1 : regions three_keys !! 0%nat = Some three_key_shard)
    by (vm_compute; reflexivity).
  exact (Execute_of_one_entry_is_Execute_of_its_list (small_flags 2) accepting
           TxnReadSeqOperation 0%nat three_key_shard three_keys _ H1 eq_refl).
Defined.

End OverloadExamples.
